(** * Charybdis / Construct: event identity, conformance and the context scheduler

    A shallow embedding of two translation units of the server:

    - [ircd/ctx.cc]: the cooperative context ("task") primitives [note],
      [wait], [jump], [interrupt], [interruption_point], the [continuation]
      guard and the timed waits of [this_ctx];
    - [ircd/m/event.cc]: [event_id], [check_size], [event::sign],
      [event::signatures] and the [event::conforms] report.

    Every definition is written after the C++ function of the same name. *)

From Stdlib Require Import ZArith List Bool Lia String Ascii.
Import ListNotations.

Open Scope Z_scope.

(* ------------------------------------------------------------------------- *)
(** * The context scheduler (ircd/ctx.cc) *)
(* ------------------------------------------------------------------------- *)

Module Ctx.

(** [int64_t notes]: the counter is kept in [Z] and every [++]/[--] is
    followed by the two's complement wrap of a 64 bit register. *)
Definition INT64_MAX : Z := 2 ^ 63 - 1.
Definition INT64_MIN : Z := - 2 ^ 63.

Definition wrap64 (z : Z) : Z := (z + 2 ^ 63) mod 2 ^ 64 - 2 ^ 63.

(** ** Durations

    A [std::chrono] duration counts ticks of a period in an [int64_t].  The
    steady clock and the [steady_timer] count nanoseconds; [this_ctx::wait]
    takes and returns microseconds, and its templates any of the periods
    below. *)
Inductive period : Type :=
| nanoseconds
| microseconds
| milliseconds
| seconds
| minutes
| hours.

(** The length of one tick, in nanoseconds. *)
Definition period_ns (p : period) : Z :=
  match p with
  | nanoseconds => 1
  | microseconds => 1000
  | milliseconds => 1000000
  | seconds => 1000000000
  | minutes => 60000000000
  | hours => 3600000000000
  end.

(** [duration_cast<to>(d)] of a count [n] of [from], also where a duration
    is converted implicitly: between equal periods the count is kept; to a
    finer period it is multiplied, in the 64 bit register; to a coarser one
    it is divided, truncating toward zero. *)
Definition duration_cast (from to : period) (n : Z) : Z :=
  if period_ns to =? period_ns from then n
  else if period_ns to <? period_ns from
       then wrap64 (n * (period_ns from / period_ns to))
       else Z.quot n (period_ns to / period_ns from).

(** [boost::asio::steady_timer alarm]: the absolute expiry (nanoseconds of
    the steady clock) and the number of [cancel()] calls it has received. *)
Record timer : Type := mk_timer
  { expiry : Z
  ; cancels : nat }.

(** The fields of [struct ircd::ctx::ctx] that the primitives below touch. *)
Record ctx : Type := mk_ctx
  { flags : Z                    (* context::flags, a bit mask *)
  ; alarm : timer                (* acting semaphore *)
  ; notes : Z }.                 (* norm: 0 = asleep; 1 = awake *)

Definition set_flags (c : ctx) (f : Z) : ctx := mk_ctx f (alarm c) (notes c).
Definition set_alarm (c : ctx) (a : timer) : ctx := mk_ctx (flags c) a (notes c).
Definition set_notes (c : ctx) (n : Z) : ctx := mk_ctx (flags c) (alarm c) n.

(** The process-wide state the primitives read and write: the [current]
    pointer, [critical_asserted], the steady clock and the contexts
    themselves, addressed by a natural number. *)
Record world : Type := mk_world
  { current : option nat         (* ircd::ctx::current; None is nullptr *)
  ; critical_asserted : bool
  ; clock : Z                    (* steady_clock::now(), in nanoseconds *)
  ; ctxs : nat -> ctx }.

Definition set_current (w : world) (o : option nat) : world :=
  mk_world o (critical_asserted w) (clock w) (ctxs w).

Definition set_clock (w : world) (t : Z) : world :=
  mk_world (current w) (critical_asserted w) t (ctxs w).

Definition upd (w : world) (i : nat) (c : ctx) : world :=
  mk_world (current w) (critical_asserted w) (clock w)
           (fun j => if Nat.eqb j i then c else ctxs w j).

Definition is_current (w : world) (i : nat) : bool :=
  match current w with
  | Some j => Nat.eqb j i
  | None => false
  end.

(** [ircd::ctx::interrupted] is the only exception these functions throw. *)
Inductive exn : Type := interrupted.

(** Outcome of a primitive: a normal return, a thrown exception, a failed
    [assert], or a context that is still suspended when the observed
    activity of the other contexts ends. *)
Inductive result (A : Type) : Type :=
| Ok (a : A) (w : world)
| Throw (e : exn) (w : world)
| Abort
| Blocked (w : world).

Arguments Ok {A} a w.
Arguments Throw {A} e w.
Arguments Abort {A}.
Arguments Blocked {A} w.

(** Where the first half of a suspending primitive ends. *)
Inductive entered : Type :=
| Returned (b : bool) (w : world)
| Yielded (w : world)
| Aborted.

Section Primitives.

(** [context::INTERRUPTED] is an enumerator of [context::flags], declared in
    ircd/ctx/context.h; only its being a non-zero mask matters here. *)
Variable INTERRUPTED : Z.

(** ** ctx::wake, ctx::note, notify, interrupt *)

(** [ctx::wake]: [alarm.cancel()]. *)
Definition ctx_wake (c : ctx) : ctx :=
  set_alarm c (mk_timer (expiry (alarm c)) (S (cancels (alarm c)))).

(** [ctx::note]: [if(notes++ > 0) return false; wake(); return true;] *)
Definition ctx_note (c : ctx) : bool * ctx :=
  let c' := set_notes c (wrap64 (notes c + 1)) in
  if 0 <? notes c then (false, c') else (true, ctx_wake c').

Definition wake (t : nat) (w : world) : world := upd w t (ctx_wake (ctxs w t)).

Definition note (t : nat) (w : world) : bool * world :=
  let (r, c') := ctx_note (ctxs w t) in (r, upd w t c').

(** [ircd::ctx::notify(ctx &)]: [return ctx.note();] *)
Definition notify (t : nat) (w : world) : bool * world := note t w.

(** [ircd::ctx::yield(ctx &)]: the direct jump is commented out in the
    source, what is left is [notify(ctx)]. *)
Definition yield_to (t : nat) (w : world) : world := snd (notify t w).

(** [ircd::ctx::interrupt]: [ctx.flags |= INTERRUPTED; ctx.wake();] *)
Definition interrupt (t : nat) (w : world) : world :=
  wake t (upd w t (set_flags (ctxs w t) (Z.lor (flags (ctxs w t)) INTERRUPTED))).

(** [ircd::ctx::interruption]: [return c.flags & context::INTERRUPTED;] *)
Definition interruption (w : world) (t : nat) : bool :=
  negb (Z.land (flags (ctxs w t)) INTERRUPTED =? 0).

(** ** ctx::interruption_point *)

(** The [std::nothrow] overload checks and clears the flag. *)
Definition interruption_point_nothrow (t : nat) (w : world) : bool * world :=
  if interruption w t
  then (true, upd w t (set_flags (ctxs w t)
                         (Z.land (flags (ctxs w t)) (Z.lnot INTERRUPTED))))
  else (false, w).

(** The throwing overload. *)
Definition interruption_point (t : nat) (w : world) : result unit :=
  let (r, w') := interruption_point_nothrow t w in
  if r then Throw interrupted w' else Ok tt w'.

(** ** continuation *)

(** Constructor: [assert(!critical_asserted); assert(self->notes <= 1);
    current = nullptr;].  [None] is a failed assertion.  The profiler marks
    ([mark(prof::event::...)]) of the constructor, of the destructor and of
    [interruption_point] are left out: with the settings of the source
    ([slice_interrupt] 0us) they measure and log only. *)
Definition continuation_ctor (self : nat) (w : world) : option world :=
  if critical_asserted w then None
  else if notes (ctxs w self) <=? 1 then Some (set_current w None)
  else None.

(** Destructor: [current = self; self->notes = 1;] *)
Definition continuation_dtor (self : nat) (w : world) : world :=
  let w1 := set_current w (Some self) in
  upd w1 self (set_notes (ctxs w1 self) 1).

(** ** What the other contexts do while one is suspended *)

Inductive ext : Type :=
| ext_notify (t : nat)           (* somebody calls notify(t) *)
| ext_interrupt (t : nat)        (* somebody calls interrupt(t) *)
| ext_elapse (ns : N)            (* the steady clock advances *)
| ext_restore (t : nat).         (* the io_service runs the closure that
                                    this_ctx::yield() of t has posted *)

Definition run_ext1 (e : ext) (w : world) : world :=
  match e with
  | ext_notify t => snd (notify t w)
  | ext_interrupt t => interrupt t w
  | ext_elapse ns => set_clock w (clock w + Z.of_N ns)
  | ext_restore t => snd (notify t w)
  end.

(** [restore] of the yield of [me] sets its [done]. *)
Definition is_restore (me : nat) (e : ext) : bool :=
  match e with
  | ext_restore t => Nat.eqb t me
  | _ => false
  end.

Definition run_ext (es : list ext) (w : world) : world :=
  fold_left (fun w e => run_ext1 e w) es w.

(** The handler of [alarm.async_wait] is queued when the alarm was cancelled
    after the wait began or when its expiry is reached. *)
Definition alarm_fired (this : nat) (before after : world) : bool :=
  (cancels (alarm (ctxs before this)) <? cancels (alarm (ctxs after this)))%nat
  || (expiry (alarm (ctxs after this)) <=? clock after).

(** ** ctx::wait *)

(** Up to the suspension: [assert(current == this); if(--notes > 0) return
    false;] and the [to_asio] continuation handed to [async_wait]. *)
Definition wait_enter (this : nat) (w : world) : entered :=
  if is_current w this then
    let n := wrap64 (notes (ctxs w this) - 1) in
    let w1 := upd w this (set_notes (ctxs w this) n) in
    if 0 <? n then Returned false w1
    else match continuation_ctor this w1 with
         | Some w2 => Yielded w2
         | None => Aborted
         end
  else Aborted.

(** From the wakeup on: the continuation is destroyed, the two assertions,
    [interruption_point(); return true;] *)
Definition wait_resume (this : nat) (w : world) : result bool :=
  let w1 := continuation_dtor this w in
  if is_current w1 this && (notes (ctxs w1 this) =? 1) then
    match interruption_point this w1 with
    | Ok _ w2 => Ok true w2
    | Throw e w2 => Throw e w2
    | Abort => Abort
    | Blocked w2 => Blocked w2
    end
  else Abort.

(** [ctx::wait] with [es] the activity of the other contexts while this one
    is suspended. *)
Definition wait (this : nat) (es : list ext) (w : world) : result bool :=
  match wait_enter this w with
  | Returned b w1 => Ok b w1
  | Aborted => Abort
  | Yielded w1 =>
      let w2 := run_ext es w1 in
      if alarm_fired this w1 w2 then wait_resume this w2 else Blocked w2
  end.

(** ** ctx::jump *)

(** [assert(current != this); current->notes = 0;] and the continuation of
    the source; [target()] then runs the target. *)
Definition jump_enter (this : nat) (w : world) : entered :=
  match current w with
  | None => Aborted
  | Some cur =>
      if Nat.eqb cur this then Aborted
      else
        let w1 := upd w cur (set_notes (ctxs w cur) 0) in
        match continuation_ctor cur w1 with
        | Some w2 => Yielded w2
        | None => Aborted
        end
  end.

(** Back in the source: the continuation is destroyed, [assert(current !=
    this); assert(current->notes == 1);] and [this->interruption_point()]. *)
Definition jump_resume (this cur : nat) (w : world) : result unit :=
  let w1 := continuation_dtor cur w in
  if negb (is_current w1 this) && (notes (ctxs w1 cur) =? 1)
  then interruption_point this w1
  else Abort.

Definition jump (this : nat) (es : list ext) (w : world) : result unit :=
  match current w, jump_enter this w with
  | Some cur, Yielded w1 => jump_resume this cur (run_ext es w1)
  | _, _ => Abort
  end.

(** ** this_ctx *)

(** [alarm.expires_at(tp)] and [alarm.expires_from_now(d)]. *)
Definition expires_at (c : nat) (tp : Z) (w : world) : world :=
  upd w c (set_alarm (ctxs w c) (mk_timer tp (cancels (alarm (ctxs w c))))).

Definition expires_from_now (c : nat) (w : world) : Z :=
  expiry (alarm (ctxs w c)) - clock w.

(** The time point [alarm.expires_from_now(duration)] arms the alarm for:
    the microseconds are converted to the duration of the timer and added to
    [now()]. *)
Definition deadline (d : Z) (w : world) : Z :=
  clock w + duration_cast microseconds nanoseconds d.

(** [this_ctx::wait(const microseconds &, const std::nothrow_t &)]: arm the
    alarm, [c.wait()], [ret = c.alarm.expires_from_now()] and
    [return duration_cast<microseconds>(ret);].  The alarm reads the clock
    twice: [lag] is the time the context itself has run between the return
    of [c.wait()] and the second reading; the time it was suspended for is
    in [es]. *)
Definition wait_for (d : Z) (lag : N) (es : list ext) (w : world)
  : result Z :=
  match current w with
  | None => Abort
  | Some c =>
      match wait c es (expires_at c (deadline d w) w) with
      | Ok _ w1 =>
          let w2 := set_clock w1 (clock w1 + Z.of_N lag) in
          Ok (duration_cast nanoseconds microseconds (expires_from_now c w2))
             w2
      | Throw e w1 => Throw e w1
      | Abort => Abort
      | Blocked w1 => Blocked w1
      end
  end.

(** [this_ctx::wait_until(tp, std::nothrow)]: [return now() >= tp;] *)
Definition wait_until (tp : Z) (es : list ext) (w : world) : result bool :=
  match current w with
  | None => Abort
  | Some c =>
      match wait c es (expires_at c tp w) with
      | Ok _ w1 => Ok (tp <=? clock w1) w1
      | Throw e w1 => Throw e w1
      | Abort => Abort
      | Blocked w1 => Blocked w1
      end
  end.

(** [this_ctx::wait()]: the alarm is set to [time_point::max()] first. *)
Definition TIME_MAX : Z := INT64_MAX.

Definition this_wait_enter (c : nat) (w : world) : entered :=
  wait_enter c (expires_at c TIME_MAX w).

(** [this_ctx::yield()]: [ios->post(restore); do wait(); while(!done);] where
    [restore] sets [done] and calls [notify(me)].  The io_service runs
    [restore] while this context is suspended: one element of [rounds] is the
    activity during one suspension, [ext_restore me] in it is the run of
    [restore].  [fuel] bounds the iterations of the loop. *)
Fixpoint yield_loop (fuel : nat) (me : nat) (rounds : list (list ext))
         (done : bool) (w : world) : result unit :=
  match fuel with
  | O => Blocked w
  | S fuel' =>
      match this_wait_enter me w with
      | Aborted => Abort
      | Returned _ w1 =>
          if done then Ok tt w1 else yield_loop fuel' me rounds done w1
      | Yielded w1 =>
          match rounds with
          | [] => Blocked w1
          | es :: rest =>
              let w2 := run_ext es w1 in
              if alarm_fired me w1 w2 then
                match wait_resume me w2 with
                | Ok _ w3 =>
                    if done || existsb (is_restore me) es then Ok tt w3
                    else yield_loop fuel' me rest false w3
                | Throw e w3 => Throw e w3
                | Abort => Abort
                | Blocked w3 => Blocked w3
                end
              else Blocked w2
          end
      end
  end.

Definition yield (fuel : nat) (rounds : list (list ext)) (w : world)
  : result unit :=
  match current w with
  | None => Abort
  | Some me => yield_loop fuel me rounds false w
  end.

(** ** Observers used in the statements *)

Definition suspends (e : entered) : bool :=
  match e with Yielded _ => true | _ => false end.

Definition world_of {A : Type} (r : result A) : option world :=
  match r with
  | Ok _ w | Throw _ w | Blocked w => Some w
  | Abort => None
  end.

Definition notes_of (w : world) (t : nat) : Z := notes (ctxs w t).
Definition cancels_of (w : world) (t : nat) : nat := cancels (alarm (ctxs w t)).
Definition expiry_of (w : world) (t : nat) : Z := expiry (alarm (ctxs w t)).

(** The normal range of the counters: none is negative and the one of the
    running context is at least 1. *)
Definition notes_ok (w : world) : Prop :=
  (forall t, 0 <= notes_of w t <= INT64_MAX)
  /\ (forall c, current w = Some c -> 1 <= notes_of w c).

(** The alarm of [c] ran out during the suspension: nobody cancelled it and
    the clock has reached the expiry. *)
Definition timed_out (c : nat) (before after : world) : bool :=
  Nat.eqb (cancels_of before c) (cancels_of after c)
  && (expiry_of after c <=? clock after).

(** Whether [wait_for d] suspends the calling context. *)
Definition wait_for_suspends (d : Z) (w : world) : bool :=
  match current w with
  | None => false
  | Some c => suspends (wait_enter c (expires_at c (deadline d w) w))
  end.

(** Whether the wait of [wait_for d] timed out: the context was suspended
    and its alarm ran out with no notification or interruption. *)
Definition wait_for_timed_out (d : Z) (es : list ext) (w : world) : bool :=
  match current w with
  | None => false
  | Some c =>
      match wait_enter c (expires_at c (deadline d w) w) with
      | Yielded w1 => timed_out c w1 (run_ext es w1)
      | _ => false
      end
  end.

(** The timed wait as the list of task operations words it: it suspends, and
    the remaining time it returns is at most zero exactly when it timed
    out. *)
Definition wait_for_claim (d : Z) (lag : N) (es : list ext) (w : world)
  : Prop :=
  wait_for_suspends d w = true
  /\ forall r w', wait_for d lag es w = Ok r w' ->
                  (r <= 0 <-> wait_for_timed_out d es w = true).

(** The value of a normal return. *)
Definition returned {A : Type} (r : result A) : option A :=
  match r with
  | Ok a _ => Some a
  | _ => None
  end.

End Primitives.

(** ** A concrete machine for the examples

    One context, number 0, is running; [context::INTERRUPTED] is given the
    value 0x10. *)
Definition INTERRUPTED_0x10 : Z := 16.

Definition idle_ctx (n : Z) : ctx := mk_ctx 0 (mk_timer 0 0) n.

Definition world_running (n : Z) : world :=
  mk_world (Some 0%nat) false 1000 (fun _ => idle_ctx n).

Definition world_asleep : world :=
  mk_world None false 1000 (fun _ => idle_ctx 0).

End Ctx.

(* ------------------------------------------------------------------------- *)
(** * The event model (ircd/m/event.cc) *)
(* ------------------------------------------------------------------------- *)

Module Event.

Open Scope string_scope.

(** ** JSON as the functions see it *)

(** A [json::object] is read through [get(key)]: an association list from
    keys to the text of the values.  A [json::array] is read by iteration and
    [at(i)]: the list of the texts of its elements. *)
Definition object : Type := list (string * string).
Definition array : Type := list string.

Fixpoint object_get (o : object) (k : string) : string :=
  match o with
  | [] => EmptyString
  | (k', v) :: o' => if String.eqb k' k then v else object_get o' k
  end.

(** [json::array::at(i)] throws when the array has no element [i]. *)
Definition array_at (a : array) (i : nat) : option string := nth_error a i.

(** The members of [m::event] (a [json::tuple]) read in this file.
    [signatures] maps a server name to the object of its keys; the three
    reference lists are arrays of [[event_id, hashes]] arrays. *)
Record event : Type := mk_event
  { event_id_ : string
  ; room_id : string
  ; sender : string
  ; type : string
  ; origin : string
  ; redacts : string
  ; membership_ : string
  ; state_key : string
  ; depth : Z
  ; content : object
  ; signatures_ : list (string * object)
  ; prev_events : list array
  ; prev_state : list array
  ; auth_events : list array }.

Fixpoint signatures_get (s : list (string * object)) (k : string) : object :=
  match s with
  | [] => []
  | (k', v) :: s' => if String.eqb k' k then v else signatures_get s' k
  end.

Definition empty_str (s : string) : bool := String.eqb s EmptyString.
Definition empty_list {A : Type} (l : list A) : bool :=
  match l with [] => true | _ => false end.

(** [std::islower] in the C locale and [all_of<std::islower>]. *)
Definition islower (c : ascii) : bool :=
  let n := nat_of_ascii c in (97 <=? n)%nat && (n <=? 122)%nat.

Fixpoint all_of (p : ascii -> bool) (s : string) : bool :=
  match s with
  | EmptyString => true
  | String c s' => p c && all_of p s'
  end.

(** ** event::conforms::code

    The enumerators in the order of [event_conforms_reflects], which
    [reflect(code)] indexes by the value of the code. *)
Inductive code : Type :=
| INVALID_OR_MISSING_EVENT_ID
| INVALID_OR_MISSING_ROOM_ID
| INVALID_OR_MISSING_SENDER_ID
| MISSING_TYPE
| MISSING_ORIGIN
| INVALID_ORIGIN
| INVALID_OR_MISSING_REDACTS_ID
| MISSING_MEMBERSHIP
| INVALID_MEMBERSHIP
| MISSING_CONTENT_MEMBERSHIP
| INVALID_CONTENT_MEMBERSHIP
| MISSING_PREV_EVENTS
| MISSING_PREV_STATE
| DEPTH_NEGATIVE
| DEPTH_ZERO
| MISSING_SIGNATURES
| MISSING_ORIGIN_SIGNATURE
| MISMATCH_ORIGIN_SENDER
| MISMATCH_ORIGIN_EVENT_ID
| SELF_REDACTS
| SELF_PREV_EVENT
| SELF_PREV_STATE
| DUP_PREV_EVENT
| DUP_PREV_STATE.

Definition code_value (c : code) : Z :=
  match c with
  | INVALID_OR_MISSING_EVENT_ID => 0
  | INVALID_OR_MISSING_ROOM_ID => 1
  | INVALID_OR_MISSING_SENDER_ID => 2
  | MISSING_TYPE => 3
  | MISSING_ORIGIN => 4
  | INVALID_ORIGIN => 5
  | INVALID_OR_MISSING_REDACTS_ID => 6
  | MISSING_MEMBERSHIP => 7
  | INVALID_MEMBERSHIP => 8
  | MISSING_CONTENT_MEMBERSHIP => 9
  | INVALID_CONTENT_MEMBERSHIP => 10
  | MISSING_PREV_EVENTS => 11
  | MISSING_PREV_STATE => 12
  | DEPTH_NEGATIVE => 13
  | DEPTH_ZERO => 14
  | MISSING_SIGNATURES => 15
  | MISSING_ORIGIN_SIGNATURE => 16
  | MISMATCH_ORIGIN_SENDER => 17
  | MISMATCH_ORIGIN_EVENT_ID => 18
  | SELF_REDACTS => 19
  | SELF_PREV_EVENT => 20
  | SELF_PREV_STATE => 21
  | DUP_PREV_EVENT => 22
  | DUP_PREV_STATE => 23
  end%Z.

(** [uint64_t report] and its accessors. *)
Definition report : Type := Z.

(** [set]: [report |= (1UL << code)] *)
Definition set (r : report) (c : code) : report :=
  Z.lor r (Z.shiftl 1 (code_value c)).

(** [has(const code &)]: [return report & (1UL << code);] *)
Definition has (r : report) (c : code) : bool :=
  negb (Z.land r (Z.shiftl 1 (code_value c)) =? 0)%Z.

(** [clean]: [return report == 0;] *)
Definition clean (r : report) : bool := (r =? 0)%Z.

(** [set] under a condition: the shape of every [if(...) set(CODE);]. *)
Definition set_if (b : bool) (c : code) (r : report) : report :=
  if b then set r c else r.

(** The matrix identifier sigils. *)
Inductive sigil : Type := EVENT | ROOM | USER.

Definition sigil_char (s : sigil) : ascii :=
  match s with
  | EVENT => "$"%char
  | ROOM => "!"%char
  | USER => "@"%char
  end.

(** Every entry has an element 0, so that [at(0)] does not throw. *)
Definition entries_ok (refs : list array) : bool :=
  forallb (fun a => negb (empty_list a)) refs.

(** ** event::conforms::conforms(const event &) *)

Section Conforms.

(** Three helpers of other translation units: [m::valid(sigil, id)] and
    [m::id::host()] of ircd/m/id.cc and [ircd::unquote]. *)
Variable valid : sigil -> string -> bool.
Variable id_host : string -> string.
Variable unquote : string -> string.

(** The checks before the two loops, in the order of the source. *)
Definition conforms_fields (e : event) : report :=
  let r := 0%Z in
  let r := set_if (negb (valid EVENT (event_id_ e)))
                  INVALID_OR_MISSING_EVENT_ID r in
  let r := set_if (negb (valid ROOM (room_id e)))
                  INVALID_OR_MISSING_ROOM_ID r in
  let r := set_if (negb (valid USER (sender e)))
                  INVALID_OR_MISSING_SENDER_ID r in
  let r := set_if (empty_str (type e)) MISSING_TYPE r in
  let r := set_if (empty_str (origin e)) MISSING_ORIGIN r in
  (* TODO: XXX *)
  let r := set_if false INVALID_ORIGIN r in
  let r := set_if (empty_list (signatures_ e)) MISSING_SIGNATURES r in
  let r := set_if (empty_list (signatures_get (signatures_ e) (origin e)))
                  MISSING_ORIGIN_SIGNATURE r in
  let r := set_if (negb (has r INVALID_OR_MISSING_SENDER_ID)
                   && negb (String.eqb (origin e) (id_host (sender e))))
                  MISMATCH_ORIGIN_SENDER r in
  let r := set_if (negb (has r INVALID_OR_MISSING_EVENT_ID)
                   && negb (String.eqb (origin e) (id_host (event_id_ e))))
                  MISMATCH_ORIGIN_EVENT_ID r in
  let r := set_if (String.eqb (type e) "m.room.redaction"
                   && negb (valid EVENT (redacts e)))
                  INVALID_OR_MISSING_REDACTS_ID r in
  let r := set_if (negb (empty_str (redacts e))
                   && String.eqb (redacts e) (event_id_ e))
                  SELF_REDACTS r in
  let r := set_if (String.eqb (type e) "m.room.member"
                   && empty_str (membership_ e))
                  MISSING_MEMBERSHIP r in
  let r := set_if (String.eqb (type e) "m.room.member"
                   && negb (all_of islower (membership_ e)))
                  INVALID_MEMBERSHIP r in
  let r := set_if (String.eqb (type e) "m.room.member"
                   && empty_str (unquote (object_get (content e) "membership")))
                  MISSING_CONTENT_MEMBERSHIP r in
  let r := set_if (String.eqb (type e) "m.room.member"
                   && negb (all_of islower
                              (unquote (object_get (content e) "membership"))))
                  INVALID_CONTENT_MEMBERSHIP r in
  let r := set_if (negb (String.eqb (type e) "m.room.create")
                   && empty_list (prev_events e))
                  MISSING_PREV_EVENTS r in
  let r := set_if (negb (String.eqb (type e) "m.room.create")
                   && negb (empty_str (state_key e))
                   && empty_list (prev_state e))
                  MISSING_PREV_STATE r in
  let r := set_if (depth e <? 0)%Z DEPTH_NEGATIVE r in
  let r := set_if (negb (String.eqb (type e) "m.room.create")
                   && (depth e =? 0)%Z)
                  DEPTH_ZERO r in
  r.

(** The inner loop: [j = 0; for(pe_ : refs) if(i != j++) if(pe_.at(0) ==
    pe.at(0)) set(dup);] *)
Fixpoint scan_dup (dup : code) (pe0 : string) (i : nat) (refs : list array)
         (j : nat) (r : report) : option report :=
  match refs with
  | [] => Some r
  | pe_ :: refs' =>
      if Nat.eqb i j then scan_dup dup pe0 i refs' (S j) r
      else
        match array_at pe_ 0 with
        | None => None
        | Some x =>
            scan_dup dup pe0 i refs' (S j)
                     (set_if (String.eqb x pe0) dup r)
        end
  end.

(** The outer loop over [prev_events] and, with the other two codes, over
    [prev_state]: the source has the same loop twice. *)
Fixpoint scan_refs (self dup : code) (eid : string) (refs rest : list array)
         (i : nat) (r : report) : option report :=
  match rest with
  | [] => Some r
  | pe :: rest' =>
      match array_at pe 0 with
      | None => None
      | Some x =>
          let r1 := set_if (String.eqb (unquote x) eid) self r in
          match scan_dup dup x i refs 0 r1 with
          | None => None
          | Some r2 => scan_refs self dup eid refs rest' (S i) r2
          end
      end
  end.

(** The constructor; [None] is the exception of [json::array::at]. *)
Definition conforms (e : event) : option report :=
  match scan_refs SELF_PREV_EVENT DUP_PREV_EVENT (event_id_ e)
                  (prev_events e) (prev_events e) 0 (conforms_fields e) with
  | None => None
  | Some r =>
      scan_refs SELF_PREV_STATE DUP_PREV_STATE (event_id_ e)
                (prev_state e) (prev_state e) 0 r
  end.

(** ** What the two loops look for, as predicates on the lists *)

(** Some entry of [refs], at a position other than [i], has [x] for element
    0; [j] is the position of the head of [refs]. *)
Fixpoint dup_at (x : string) (i : nat) (refs : list array) (j : nat) : bool :=
  match refs with
  | [] => false
  | pe_ :: refs' =>
      (negb (Nat.eqb i j)
       && match array_at pe_ 0 with
          | Some y => String.eqb y x
          | None => false
          end)
      || dup_at x i refs' (S j)
  end.

(** Some entry of [rest], whose head has position [i] in [refs], has its
    element 0 again at another position of [refs]. *)
Fixpoint any_dup (refs rest : list array) (i : nat) : bool :=
  match rest with
  | [] => false
  | pe :: rest' =>
      match array_at pe 0 with
      | Some x => dup_at x i refs 0
      | None => false
      end
      || any_dup refs rest' (S i)
  end.

(** Some entry names the event itself. *)
Definition any_self (eid : string) (refs : list array) : bool :=
  existsb (fun pe => match array_at pe 0 with
                     | Some x => String.eqb (unquote x) eid
                     | None => false
                     end) refs.

(** A reference list with an element 0 in every entry, no reference to the
    event itself and no repetition. *)
Definition refs_clean (eid : string) (refs : list array) : bool :=
  entries_ok refs && negb (any_self eid refs) && negb (any_dup refs refs 0).

(** The members other than [type] and [depth] are well formed: the three
    identifiers are valid, the origin is present, signed for and equal to
    the hosts of the sender and of the event id, the event does not redact
    itself, it has predecessors, a previous state if it has a state key, and
    clean reference lists. *)
Definition rest_well_formed (e : event) : bool :=
  valid EVENT (event_id_ e)
  && valid ROOM (room_id e)
  && valid USER (sender e)
  && negb (empty_str (origin e))
  && negb (empty_list (signatures_get (signatures_ e) (origin e)))
  && String.eqb (origin e) (id_host (sender e))
  && String.eqb (origin e) (id_host (event_id_ e))
  && (empty_str (redacts e) || negb (String.eqb (redacts e) (event_id_ e)))
  && negb (empty_list (prev_events e))
  && (empty_str (state_key e) || negb (empty_list (prev_state e)))
  && refs_clean (event_id_ e) (prev_events e)
  && refs_clean (event_id_ e) (prev_state e).

End Conforms.

(** ** event_id and event::hash *)

Section Identity.

(** From other translation units: [json::stringify] of the event tuple,
    [sha256], [b58encode] and [my_host()]. *)
Variable stringify : event -> string.
Variable sha256 : string -> string.
Variable b58encode : string -> string.
Variable my_host : string.

(** [event::hash(const m::event &)]: the digest of [stringify(buf, event)]. *)
Definition hash (e : event) : string := sha256 (stringify e).

(** Modelled from the spec: the constructor [id::event{buf, local, host}] of
    ircd/m/id.cc prints the sigil, the local part, a colon and the host. *)
Definition id_event (local host : string) : string :=
  "$" ++ local ++ ":" ++ host.

(** [event_id(event, buf, hash)]: [id::event{buf, b58encode(readable, hash),
    my_host()}] *)
Definition event_id_hash (e : event) (h : string) : string :=
  id_event (b58encode h) my_host.

(** [event_id(event, buf)]: [const sha256::buf hash{event}; return
    event_id(event, buf, hash);] with the buffer filled by [event::hash]. *)
Definition event_id (e : event) : string := event_id_hash e (hash e).

(** The identifier as the data model words it, for a redaction [redact] and
    a canonical serialisation [canonical]. *)
Definition event_id_spec (canonical : event -> string)
           (redact : event -> event) (e : event) : string :=
  "$" ++ b58encode (sha256 (canonical (redact e))) ++ ":" ++ origin e.

End Identity.

(** For every [stringify], [sha256], [b58encode], [canonical] and [redact],
    the identifier minted on server [host] for [e] is not the one the data
    model words. *)
Definition event_id_differs (host : string) (e : event) : Prop :=
  forall stringify sha256 b58encode canonical redact,
    event_id stringify sha256 b58encode host e
    <> event_id_spec sha256 b58encode canonical redact e.

(** ** check_size *)

(** [conf::item<size_t> event_max_size]: its name and default; a
    configuration gives values to items by name, an item it does not name has
    its default. *)
Record conf_item : Type := mk_conf_item
  { conf_name : string
  ; conf_default : N }.

Definition event_max_size : conf_item :=
  mk_conf_item "m.event.max_size" 65507.

Definition conf : Type := list (string * N).

Fixpoint conf_value (item : conf_item) (cfg : conf) : N :=
  match cfg with
  | [] => conf_default item
  | (k, v) :: cfg' =>
      if String.eqb k (conf_name item) then v else conf_value item cfg'
  end.

(** [m::BAD_JSON] with the two numbers of its message. *)
Inductive thrown : Type := BAD_JSON (event_size limit : N).

Section CheckSize.

(** [json::serialized(event)], the size of the serialisation in bytes. *)
Variable serialized : event -> N.
Variable cfg : conf.

(** [check_size(const event &)]; [None] is the normal return. *)
Definition check_size (e : event) : option thrown :=
  let event_size := serialized e in
  if (conf_value event_max_size cfg <? event_size)%N
  then Some (BAD_JSON event_size (conf_value event_max_size cfg))
  else None.

(** [check_size(std::nothrow_t, const event &)] *)
Definition check_size_nothrow (e : event) : bool :=
  let event_size := serialized e in
  (event_size <=? conf_value event_max_size cfg)%N.

End CheckSize.

(** ** event::sign and event::signatures *)

(** A [json::value] as [json::iov] and [json::members] carry it: a text, or
    an object given by its members. *)
#[local] Unset Elimination Schemes.
Inductive value : Type :=
| jtext (s : string)
| jmembers (ms : list (string * value)).
#[local] Set Elimination Schemes.

(** [json::iov]: the members of an event under construction. *)
Definition iov : Type := list (string * value).

(** [json::iov::at(key)] throws when no member has the key. *)
Fixpoint iov_at (v : iov) (k : string) : option value :=
  match v with
  | [] => None
  | (k', x) :: v' => if String.eqb k' k then Some x else iov_at v' k
  end.

(** [json::iov::push]: one more member for the time of the call. *)
Definition push (v : iov) (m : string * value) : iov := m :: v.

Definition type_is (v : value) (s : string) : bool :=
  match v with
  | jtext t => String.eqb t s
  | jmembers _ => false
  end.

(** [{ key, contents.at(key) }] for each key of a list, in its order. *)
Fixpoint members_at (contents : iov) (keys : list string)
  : option (list (string * value)) :=
  match keys with
  | [] => Some []
  | k :: keys' =>
      match iov_at contents k with
      | None => None
      | Some x =>
          match members_at contents keys' with
          | None => None
          | Some ms => Some ((k, x) :: ms)
          end
      end
  end.

Section Sign.

(** From other translation units: [stringify] of the iov as an [m::event],
    [self::secret_key.sign], [b64encode_unpadded], [json::stringify] of
    [json::members], [my_host()] and [self::public_key_id]. *)
Variable stringify_iov : iov -> string.
Variable ed25519_sign : string -> string.
Variable b64encode_unpadded : string -> string.
Variable stringify_members : list (string * value) -> string.
Variable my_host : string.
Variable public_key_id : string.

(** [event::sign(const m::event &)] *)
Definition sign_event (ev : iov) : string := ed25519_sign (stringify_iov ev).

(** The shape of the six typed branches: push the content made of the
    listed keys, sign. *)
Definition sign_keeping (ev contents : iov) (keys : list string)
  : option string :=
  match members_at contents keys with
  | None => None
  | Some ms => Some (sign_event (push ev ("content", jmembers ms)))
  end.

(** [event::sign(json::iov &event, const json::iov &contents)]; [None] is
    the exception of [at]. *)
Definition sign (ev contents : iov) : option string :=
  match iov_at ev "type" with
  | None => None
  | Some ty =>
      if type_is ty "m.room.aliases" then
        sign_keeping ev contents ["aliases"]
      else if type_is ty "m.room.create" then
        sign_keeping ev contents ["creator"]
      else if type_is ty "m.room.history_visibility" then
        sign_keeping ev contents ["history_visibility"]
      else if type_is ty "m.room.join_rules" then
        sign_keeping ev contents ["join_rule"]
      else if type_is ty "m.room.member" then
        sign_keeping ev contents ["membership"]
      else if type_is ty "m.room.power_levels" then
        sign_keeping ev contents
          [ "ban"; "events"; "events_default"; "kick"; "redact"
          ; "state_default"; "users"; "users_default" ]
      else
        Some (sign_event (push ev ("content", jtext "{}")))
  end.

(** [event::signatures]: the signature under the key id under the host. *)
Definition signatures (ev contents : iov) : option string :=
  match sign ev contents with
  | None => None
  | Some sig =>
      let sigb64 := [ (public_key_id, jtext (b64encode_unpadded sig)) ] in
      let sigs := [ (my_host, jmembers sigb64) ] in
      Some (stringify_members sigs)
  end.

End Sign.

(** The content allowlist by event type, as the redaction is worded. *)
Definition allowlist (ty : string) : list string :=
  if String.eqb ty "m.room.member" then ["membership"]
  else if String.eqb ty "m.room.create" then ["creator"]
  else if String.eqb ty "m.room.power_levels" then
    [ "ban"; "events"; "events_default"; "kick"; "redact"
    ; "state_default"; "users"; "users_default" ]
  else if String.eqb ty "m.room.join_rules" then ["join_rule"]
  else if String.eqb ty "m.room.history_visibility" then
    ["history_visibility"]
  else if String.eqb ty "m.room.aliases" then ["aliases"]
  else [].

(** The content reduced to a list of keys: the members of [contents] with
    these keys, the others dropped. *)
Definition reduce (contents : iov) (keys : list string)
  : list (string * value) :=
  flat_map (fun k => match iov_at contents k with
                     | Some x => [(k, x)]
                     | None => []
                     end) keys.

Definition has_keys (contents : iov) (keys : list string) : Prop :=
  forall k, In k keys -> iov_at contents k <> None.

(** The content member [sign] is worded to push for an event of type [ty]. *)
Definition redacted_content (ty : string) (contents : iov) : value :=
  match allowlist ty with
  | [] => jtext "{}"
  | keys => jmembers (reduce contents keys)
  end.

(** ** Well-formed reference lists *)

Definition code_eqb (a b : code) : bool := (code_value a =? code_value b)%Z.

(** Two entries at different positions carry the same element 0. *)
Definition repeated (refs : list array) : Prop :=
  exists i j x, i <> j /\
    option_map (fun a => array_at a 0) (nth_error refs i) = Some (Some x) /\
    option_map (fun a => array_at a 0) (nth_error refs j) = Some (Some x).

(** ** An instance of the identifier helpers

    ircd/m/id.cc, which has the grammar of the identifiers, is not among the
    sources read here.  The statements about [conforms] are for every
    [valid], [id_host] and [unquote]; the instance below serves the
    examples. *)

Definition dquote : ascii := ascii_of_nat 34.

Definition quote (s : string) : string :=
  String dquote (s ++ String dquote EmptyString).

(** The text after the first colon. *)
Fixpoint after_colon (s : string) : option string :=
  match s with
  | EmptyString => None
  | String c s' => if Ascii.eqb c ":" then Some s' else after_colon s'
  end.

(** Modelled from the spec: the host part of an identifier
    [<sigil><local>:<host>] is what follows its first colon. *)
Definition host_std (s : string) : string :=
  match after_colon s with
  | Some h => h
  | None => EmptyString
  end.

(** Modelled from the spec: an identifier is its sigil, a local part, a
    colon and a host that is not empty ([$<local>:<host>],
    [!<opaque>:<host>]). *)
Definition valid_std (sg : sigil) (s : string) : bool :=
  match s with
  | EmptyString => false
  | String c s' =>
      Ascii.eqb c (sigil_char sg)
      && match after_colon s' with
         | Some h => negb (empty_str h)
         | None => false
         end
  end.

Fixpoint drop_last_quote (s : string) : string :=
  match s with
  | EmptyString => EmptyString
  | String c EmptyString =>
      if Ascii.eqb c dquote then EmptyString else String c EmptyString
  | String c s' => String c (drop_last_quote s')
  end.

(** [unquote] takes one double quote off either end of a JSON string. *)
Definition unquote_std (s : string) : string :=
  drop_last_quote
    match s with
    | String c s' => if Ascii.eqb c dquote then s' else s
    | EmptyString => s
    end.

(** ** Sample events *)

Definition ref_to (id : string) : array := [quote id; "{}"].

(** A message event of host [h] with one predecessor. *)
Definition ev_message : event :=
  {| event_id_ := "$e:h"
   ; room_id := "!r:h"
   ; sender := "@a:h"
   ; type := "m.room.message"
   ; origin := "h"
   ; redacts := EmptyString
   ; membership_ := EmptyString
   ; state_key := EmptyString
   ; depth := 1
   ; content := []
   ; signatures_ := [("h", [("ed25519:a", "c2ln")])]
   ; prev_events := [ref_to "$p:h"]
   ; prev_state := []
   ; auth_events := [] |}.

Definition with_auth_events (e : event) (l : list array) : event :=
  mk_event (event_id_ e) (room_id e) (sender e) (type e) (origin e)
           (redacts e) (membership_ e) (state_key e) (depth e) (content e)
           (signatures_ e) (prev_events e) (prev_state e) l.

Definition with_prev_events (e : event) (l : list array) : event :=
  mk_event (event_id_ e) (room_id e) (sender e) (type e) (origin e)
           (redacts e) (membership_ e) (state_key e) (depth e) (content e)
           (signatures_ e) l (prev_state e) (auth_events e).

Definition with_type_depth (e : event) (t : string) (d : Z) : event :=
  mk_event (event_id_ e) (room_id e) (sender e) t (origin e)
           (redacts e) (membership_ e) (state_key e) d (content e)
           (signatures_ e) (prev_events e) (prev_state e) (auth_events e).

Definition with_origin (e : event) (o : string) : event :=
  mk_event (event_id_ e) (room_id e) (sender e) (type e) o
           (redacts e) (membership_ e) (state_key e) (depth e) (content e)
           (signatures_ e) (prev_events e) (prev_state e) (auth_events e).

(** The same authorisation event referenced twice. *)
Definition ev_dup_auth : event :=
  with_auth_events ev_message [ref_to "$c:h"; ref_to "$c:h"].

(** The same predecessor referenced twice. *)
Definition ev_dup_prev : event :=
  with_prev_events ev_message [ref_to "$p:h"; ref_to "$p:h"].

(** Depth -1 and no type. *)
Definition ev_untyped : event := with_type_depth ev_message EmptyString (-1).

(** An event of origin [y]. *)
Definition ev_foreign : event := with_origin ev_message "y".

(** A member event under construction and its content. *)
Definition iov_member : iov :=
  [ ("type", jtext "m.room.member"); ("sender", jtext "@a:h") ].

Definition content_member : iov :=
  [ ("membership", jtext "join"); ("displayname", jtext "a") ].

End Event.

(* ------------------------------------------------------------------------- *)
(** * More of the context scheduler: this_ctx overloads, profiling, pools *)
(* ------------------------------------------------------------------------- *)

Module CtxMore.

Import Ctx.

(** The throwing overloads of ircd/ctx/this_ctx.h throw [E], by default
    [ircd::ctx::timeout], besides what [ctx::wait] throws. *)
Inductive exception : Type := ex_interrupted | ex_timeout.

Inductive outcome (A : Type) : Type :=
| Done (a : A) (w : world)
| Raised (e : exception) (w : world)
| Failed
| Pending (w : world).

Arguments Done {A} a w.
Arguments Raised {A} e w.
Arguments Failed {A}.
Arguments Pending {A} w.

(** What a caller of a primitive sees: its normal return goes through [k]. *)
Definition lift {A B : Type} (k : A -> world -> outcome B) (r : result A)
  : outcome B :=
  match r with
  | Ok a w => k a w
  | Throw interrupted w => Raised ex_interrupted w
  | Abort => Failed
  | Blocked w => Pending w
  end.

(** The context an activity of the others is aimed at. *)
Definition targets (t : nat) (e : ext) : bool :=
  match e with
  | ext_notify u | ext_interrupt u | ext_restore u => Nat.eqb u t
  | ext_elapse _ => false
  end.

(** The time that passes during an activity. *)
Definition elapsed (es : list ext) : Z :=
  fold_right (fun e acc => match e with
                           | ext_elapse ns => Z.of_N ns + acc
                           | _ => acc
                           end) 0 es.


Section Overloads.

Variable INTERRUPTED : Z.


(** [nothrow_overload<E, duration> wait(const duration &d)], for a
    [duration] of period [u]: [ret = wait(duration_cast<microseconds>(d),
    std::nothrow); return duration_cast<duration>(ret);] *)
Definition wait_for_nothrow (u : period) (d : Z) (lag : N) (es : list ext)
           (w : world) : result Z :=
  match wait_for INTERRUPTED (duration_cast u microseconds d) lag es w with
  | Ok ret w1 => Ok (duration_cast microseconds u ret) w1
  | Throw e w1 => Throw e w1
  | Abort => Abort
  | Blocked w1 => Blocked w1
  end.

(** [throw_overload<E, duration> wait(const duration &d)]: [ret =
    wait<std::nothrow_t>(d); return ret <= duration(0)? throw E{} : ret;] *)
Definition wait_for_throw (u : period) (d : Z) (lag : N) (es : list ext)
           (w : world) : outcome Z :=
  lift (fun ret w1 => if ret <=? 0 then Raised ex_timeout w1 else Done ret w1)
       (wait_for_nothrow u d lag es w).

(** [throw_overload<E> wait_until(const steady_point &tp)]:
    [if(wait_until<std::nothrow_t>(tp)) throw E{};] *)
Definition wait_until_throw (tp : Z) (es : list ext) (w : world)
  : outcome unit :=
  lift (fun (b : bool) w1 => if b then Raised ex_timeout w1 else Done tt w1)
       (wait_until INTERRUPTED tp es w).

(** Whether [wait_until(tp)] suspends the calling context. *)
Definition wait_until_suspends (tp : Z) (w : world) : bool :=
  match current w with
  | None => false
  | Some c => suspends (wait_enter c (expires_at c tp w))
  end.

(** [this_ctx::sleep_until]: [while(!wait_until(tp, std::nothrow));].  One
    element of [rounds] is the activity of the others during one suspension;
    a call that does not suspend uses none.  [fuel] bounds the iterations. *)
Fixpoint sleep_until (fuel : nat) (tp : Z) (rounds : list (list ext))
         (w : world) : result unit :=
  match fuel with
  | O => Blocked w
  | S fuel' =>
      match wait_until INTERRUPTED tp (hd [] rounds) w with
      | Ok true w1 => Ok tt w1
      | Ok false w1 =>
          sleep_until fuel' tp
                      (if wait_until_suspends tp w then tl rounds else rounds)
                      w1
      | Throw e w1 => Throw e w1
      | Abort => Abort
      | Blocked w1 => Blocked w1
      end
  end.


(** [this_ctx::wait()]: [c.alarm.expires_at(time_point::max()); c.wait();] *)
Definition this_wait (es : list ext) (w : world) : result unit :=
  match current w with
  | None => Abort
  | Some c =>
      match wait INTERRUPTED c es (expires_at c TIME_MAX w) with
      | Ok _ w1 => Ok tt w1
      | Throw e w1 => Throw e w1
      | Abort => Abort
      | Blocked w1 => Blocked w1
      end
  end.

(** [n] calls of [interrupt(t)]. *)
Definition interrupts (n : nat) (t : nat) (w : world) : world :=
  Nat.iter n (interrupt INTERRUPTED t) w.

End Overloads.

(** ** ctx::prof *)

(** The three time slice members of [struct settings], in microseconds; the
    two stack members are read by [check_stack] only. *)
Record settings : Type := mk_settings
  { slice_warning : Z
  ; slice_interrupt : Z
  ; slice_assertion : Z }.

(** The initialiser of [ircd::ctx::prof::settings]: 50ms, 0us, 0us. *)
Definition default_settings : settings := mk_settings 50000 0 0.

Inductive slice_end : Type :=
| slice_ok                       (* returns *)
| slice_interrupted              (* throws interrupted *)
| slice_assert_failed.           (* the assertion in the warning branch *)

Record slice_report : Type := mk_slice_report
  { awake_after : Z              (* c.awake *)
  ; warned : bool                (* log::warning was called *)
  ; ended : slice_end }.

(** [prof::check_slice]: the time used since [cur_slice_start] is added to
    [c.awake]; a warning from [slice_warning] on, with the assertion inside
    that branch; [interrupted] is thrown from [slice_interrupt] on.  Times
    are whole microseconds, the unit of [c.awake] and of the settings. *)
Definition check_slice (s : settings) (cur_slice_start now awake : Z)
  : slice_report :=
  let time_usage := now - cur_slice_start in
  let awake1 := awake + time_usage in
  let warn := (0 <? slice_warning s) && (slice_warning s <=? time_usage) in
  if warn && negb ((slice_assertion s =? 0) || (time_usage <? slice_assertion s))
  then mk_slice_report awake1 true slice_assert_failed
  else if (0 <? slice_interrupt s) && (slice_interrupt s <=? time_usage)
       then mk_slice_report awake1 warn slice_interrupted
       else mk_slice_report awake1 warn slice_ok.

(** ** ctx::pool: the contexts *)

Section PoolContexts.

(** A [context] of the pool; [worker] is the one [add] emplaces:
    [(name, stack_size, context::POST, std::bind(&pool::main, this))]. *)
Variable context : Type.
Variable worker : context.

(** [const ssize_t requested(size() - num); const size_t
    target(std::max(requested, ssize_t(0)));] with [size] the value of
    [size()], a member of ircd/ctx/pool.h. *)
Definition del_target (size num : Z) : Z :=
  Z.max (wrap64 ((size - num) mod 2 ^ 64)) 0.

(** [while(ctxs.size() > target) ctxs.pop_back();] *)
Fixpoint pop_back_while (fuel : nat) (target : Z) (ctxs : list context)
  : list context :=
  match fuel with
  | O => ctxs
  | S fuel' =>
      if target <? Z.of_nat (List.length ctxs)
      then pop_back_while fuel' target (removelast ctxs)
      else ctxs
  end.

(** [pool::del(num)]; the loop runs at most [ctxs.size()] times. *)
Definition del (size num : Z) (ctxs : list context) : list context :=
  pop_back_while (List.length ctxs) (del_target size num) ctxs.

(** [pool::add(num)]: [num] times [ctxs.emplace_back(...)]. *)
Fixpoint add (num : nat) (ctxs : list context) : list context :=
  match num with
  | O => ctxs
  | S num' => add num' (ctxs ++ [worker])
  end.

(** [pool::join()]: [del(size());] *)
Definition join (size : Z) (ctxs : list context) : list context :=
  del size size ctxs.

End PoolContexts.

(** ** ctx::pool: the queue *)

(** How a queued closure ends.  [interrupted] is caught before
    [std::exception] in [pool::next]. *)
Inductive closure_end : Type :=
| returns
| throws_interrupted
| throws_exception.

(** A closure, known by a number and by how it ends. *)
Definition closure : Type := (nat * closure_end)%type.

(** [queue], [available] and, for the statements, the closures run so far
    with the value of [available] each one ran under. *)
Record pool : Type := mk_pool
  { queue : list closure
  ; available : Z
  ; ran : list (nat * Z) }.

(** [pool::operator()(closure)]: [queue.push_back(closure);
    dock.notify_one();] *)
Definition submit (f : closure) (p : pool) : pool :=
  mk_pool (queue p ++ [f]) (available p) (ran p).

Inductive next_end : Type :=
| next_returned                  (* also after a logged std::exception *)
| next_interrupted               (* interrupted, thrown on *)
| next_waiting.                  (* in dock.wait on an empty queue *)

(** [pool::next]: past [dock.wait], [--available], the front closure is
    taken off the queue and run, [++available] on the way out however the
    closure ends; [interrupted] is thrown on, any other [std::exception] is
    logged. *)
Definition next (p : pool) : next_end * pool :=
  match queue p with
  | [] => (next_waiting, p)
  | (id, e) :: q =>
      let running := available p - 1 in
      let p' := mk_pool q (running + 1) (ran p ++ [(id, running)]) in
      match e with
      | returns => (next_returned, p')
      | throws_interrupted => (next_interrupted, p')
      | throws_exception => (next_returned, p')
      end
  end.

Inductive main_end : Type :=
| main_exited                    (* interrupted caught, the function returns *)
| main_waiting                   (* idle in dock.wait *)
| main_running.                  (* the fuel of the model ran out *)

(** [while(1) next();] *)
Fixpoint main_loop (fuel : nat) (p : pool) : main_end * pool :=
  match fuel with
  | O => (main_running, p)
  | S fuel' =>
      match next p with
      | (next_returned, p') => main_loop fuel' p'
      | (next_interrupted, p') => (main_exited, p')
      | (next_waiting, p') => (main_waiting, p')
      end
  end.

(** [pool::main]: [++available], the loop, [--available] when the function
    is left. *)
Definition main (fuel : nat) (p : pool) : main_end * pool :=
  let p1 := mk_pool (queue p) (available p + 1) (ran p) in
  match main_loop fuel p1 with
  | (main_exited, p2) =>
      (main_exited, mk_pool (queue p2) (available p2 - 1) (ran p2))
  | other => other
  end.

(** The queue up to and with its first closure that throws [interrupted],
    and what follows it. *)
Fixpoint split_at_interrupt (q : list closure) : list closure * list closure :=
  match q with
  | [] => ([], [])
  | (id, e) :: q' =>
      match e with
      | throws_interrupted => ([(id, e)], q')
      | _ => let (a, b) := split_at_interrupt q' in ((id, e) :: a, b)
      end
  end.

Definition interrupting (c : closure) : bool :=
  match snd c with
  | throws_interrupted => true
  | _ => false
  end.

(** ** ctx::ole: the offload queue *)

(** [queue] and [interruption] of namespace [ole], both read and written
    under [mutex]; a closure is known by a number. *)
Record ole : Type := mk_ole
  { ole_queue : list nat
  ; ole_interruption : bool }.

(** [ole::push]: [queue.emplace_back(std::move(func)); cond.notify_one();] *)
Definition push (f : nat) (o : ole) : ole :=
  mk_ole (ole_queue o ++ [f]) (ole_interruption o).

Inductive popped : Type :=
| pop_closure (f : nat) (o : ole)
| pop_interrupted
| pop_waiting.

(** [ole::pop]: the predicate of [cond.wait] is true on a queue that is not
    empty, throws [interrupted] on an empty one under [interruption] and is
    false otherwise; then the front is taken. *)
Definition pop (o : ole) : popped :=
  match ole_queue o with
  | f :: q => pop_closure f (mk_ole q (ole_interruption o))
  | [] => if ole_interruption o then pop_interrupted else pop_waiting
  end.

Inductive worker_end : Type :=
| worker_returned                (* interrupted caught *)
| worker_waiting
| worker_running.

(** [ole::worker]: [while(1) { const auto func(pop()); func(); }], with the
    closures run so far. *)
Fixpoint ole_worker (fuel : nat) (o : ole) (done : list nat)
  : worker_end * ole * list nat :=
  match fuel with
  | O => (worker_running, o, done)
  | S fuel' =>
      match pop o with
      | pop_closure f o' => ole_worker fuel' o' (done ++ [f])
      | pop_interrupted => (worker_returned, o, done)
      | pop_waiting => (worker_waiting, o, done)
      end
  end.

End CtxMore.

(* ------------------------------------------------------------------------- *)
(** * More of the event model: the report's accessors, names and text *)
(* ------------------------------------------------------------------------- *)

Module EventMore.

Import Event.

Open Scope string_scope.

(** ** The accessors of event::conforms *)

(** [del]: [report &= ~(1UL << code)] *)
Definition del (r : report) (c : code) : report :=
  Z.ldiff r (Z.shiftl 1 (code_value c)).

(** [has(const uint &code)]: [return (report & (1UL << code)) == code;] *)
Definition has_uint (r : report) (c : Z) : bool :=
  (Z.land r (Z.shiftl 1 c) =? c)%Z.

(** [conforms(const event &e, const uint64_t &skip)]: the report of [e]
    and then [report &= ~skip]. *)
Definition conforms_skip (valid : sigil -> string -> bool)
           (id_host unquote : string -> string) (e : event) (skip : Z)
  : option report :=
  option_map (fun r => Z.ldiff r skip) (conforms valid id_host unquote e).

(** ** The names of the codes *)

Definition event_conforms_reflects : list string :=
  [ "INVALID_OR_MISSING_EVENT_ID"
  ; "INVALID_OR_MISSING_ROOM_ID"
  ; "INVALID_OR_MISSING_SENDER_ID"
  ; "MISSING_TYPE"
  ; "MISSING_ORIGIN"
  ; "INVALID_ORIGIN"
  ; "INVALID_OR_MISSING_REDACTS_ID"
  ; "MISSING_MEMBERSHIP"
  ; "INVALID_MEMBERSHIP"
  ; "MISSING_CONTENT_MEMBERSHIP"
  ; "INVALID_CONTENT_MEMBERSHIP"
  ; "MISSING_PREV_EVENTS"
  ; "MISSING_PREV_STATE"
  ; "DEPTH_NEGATIVE"
  ; "DEPTH_ZERO"
  ; "MISSING_SIGNATURES"
  ; "MISSING_ORIGIN_SIGNATURE"
  ; "MISMATCH_ORIGIN_SENDER"
  ; "MISMATCH_ORIGIN_EVENT_ID"
  ; "SELF_REDACTS"
  ; "SELF_PREV_EVENT"
  ; "SELF_PREV_STATE"
  ; "DUP_PREV_EVENT"
  ; "DUP_PREV_STATE" ].

(** [m::reflect(code)]: [event_conforms_reflects.at(code)], and [??????]
    when [at] throws [std::out_of_range]; the argument is the value of the
    code. *)
Definition reflect_at (n : nat) : string :=
  nth n event_conforms_reflects "??????".

Definition reflect (c : code) : string :=
  reflect_at (Z.to_nat (code_value c)).

(** [std::find] and [std::distance] over the array. *)
Fixpoint find_index (name : string) (l : list string) (i : nat) : option nat :=
  match l with
  | [] => None
  | x :: l' => if String.eqb x name then Some i else find_index name l' (S i)
  end.

(** [event::conforms::reflect(name)]: the value of the code of that name;
    [None] is [std::out_of_range]. *)
Definition conforms_reflect (name : string) : option nat :=
  find_index name event_conforms_reflects 0.

(** The codes by increasing value: [code(i)] for [i] from 0 below
    [num_of<code>()]. *)
Definition codes : list code :=
  [ INVALID_OR_MISSING_EVENT_ID; INVALID_OR_MISSING_ROOM_ID
  ; INVALID_OR_MISSING_SENDER_ID; MISSING_TYPE; MISSING_ORIGIN
  ; INVALID_ORIGIN; INVALID_OR_MISSING_REDACTS_ID; MISSING_MEMBERSHIP
  ; INVALID_MEMBERSHIP; MISSING_CONTENT_MEMBERSHIP
  ; INVALID_CONTENT_MEMBERSHIP; MISSING_PREV_EVENTS; MISSING_PREV_STATE
  ; DEPTH_NEGATIVE; DEPTH_ZERO; MISSING_SIGNATURES
  ; MISSING_ORIGIN_SIGNATURE; MISMATCH_ORIGIN_SENDER
  ; MISMATCH_ORIGIN_EVENT_ID; SELF_REDACTS; SELF_PREV_EVENT
  ; SELF_PREV_STATE; DUP_PREV_EVENT; DUP_PREV_STATE ].

(** ** event::conforms::string *)

(** A [mutable_buffer] being filled: what has been written from [data(out)]
    on and the room left. *)
Record buffer : Type := mk_buffer
  { written : string
  ; room : nat }.

(** [consume(buf, copy(buf, s))]: as much of [s] as there is room for. *)
Definition copy_consume (b : buffer) (s : string) : buffer :=
  let n := Nat.min (room b) (String.length s) in
  mk_buffer (written b ++ substring 0 n s) (room b - n).

(** The body of the loop for the codes still to visit; [begin(buf) !=
    begin(out)] is that something has been written. *)
Fixpoint string_loop (r : report) (cs : list code) (b : buffer) : buffer :=
  match cs with
  | [] => b
  | c :: cs' =>
      if has r c then
        let b1 := if empty_str (written b) then b else copy_consume b " " in
        string_loop r cs' (copy_consume b1 (reflect c))
      else string_loop r cs' b
  end.

(** [conforms::string(out)] for a buffer of [capacity] bytes. *)
Definition conforms_string (r : report) (capacity : nat) : string :=
  written (string_loop r codes (mk_buffer EmptyString capacity)).

(** The size of [thread_local char buf[1024]] of [operator<<]. *)
Definition ostream_buf_size : nat := 1024.

(** A report with bits of the 24 codes only. *)
Definition code_bits (r : report) : Prop :=
  (0 <= r)%Z /\ forall n, (24 <= n)%Z -> Z.testbit r n = false.

(** ** m::membership *)

(** [json::get<"membership"_>(event)? string_view{...} :
    unquote(json::get<"content"_>(event).get("membership"))] *)
Definition membership (unquote : string -> string) (e : event) : string :=
  if negb (empty_str (membership_ e)) then membership_ e
  else unquote (object_get (content e) "membership").

(** ** Agreement of two contents on a list of keys *)

Definition agree_on (keys : list string) (c1 c2 : iov) : Prop :=
  forall k, In k keys -> iov_at c1 k = iov_at c2 k.

(** Some entry of a reference list names the event. *)
Definition names_self (unquote : string -> string) (eid : string)
           (refs : list array) : Prop :=
  exists a x, In a refs /\ array_at a 0 = Some x /\ unquote x = eid.

(** A member event with both membership members given. *)
Definition ev_member : event :=
  {| event_id_ := "$m:h"
   ; room_id := "!r:h"
   ; sender := "@a:h"
   ; type := "m.room.member"
   ; origin := "h"
   ; redacts := EmptyString
   ; membership_ := "join"
   ; state_key := "@a:h"
   ; depth := 2
   ; content := [("membership", quote "join")]
   ; signatures_ := [("h", [("ed25519:a", "c2ln")])]
   ; prev_events := [ref_to "$p:h"]
   ; prev_state := [ref_to "$s:h"]
   ; auth_events := [] |}.

End EventMore.

(* ------------------------------------------------------------------------- *)
(** * Properties of the context scheduler *)
(* ------------------------------------------------------------------------- *)

Module CtxFacts.

Import Ctx.

(** ** Arithmetic of the 64 bit counter *)

Lemma wrap64_small (z : Z) : INT64_MIN <= z <= INT64_MAX -> wrap64 z = z.
Proof.
  unfold INT64_MIN, INT64_MAX, wrap64. intros H.
  rewrite Z.mod_small; lia.
Qed.

Lemma wrap64_range (z : Z) : INT64_MIN <= wrap64 z <= INT64_MAX.
Proof.
  unfold INT64_MIN, INT64_MAX, wrap64.
  pose proof (Z.mod_pos_bound (z + 2 ^ 63) (2 ^ 64) ltac:(lia)). lia.
Qed.

(** ** The store of contexts *)

Lemma ctxs_upd_same (w : world) (i : nat) (c : ctx) : ctxs (upd w i c) i = c.
Proof. simpl. now rewrite Nat.eqb_refl. Qed.

Lemma ctxs_upd_other (w : world) (i j : nat) (c : ctx) :
  j <> i -> ctxs (upd w i c) j = ctxs w j.
Proof. intros H. simpl. apply Nat.eqb_neq in H. now rewrite H. Qed.

Lemma is_current_iff (w : world) (i : nat) :
  is_current w i = true <-> current w = Some i.
Proof.
  unfold is_current. destruct (current w) as [j|].
  - rewrite Nat.eqb_eq. split; congruence.
  - split; discriminate.
Qed.

Section Facts.

Variable INTERRUPTED : Z.

(** ** note *)

Lemma note_notes (t : nat) (w : world) :
  notes_of (snd (note t w)) t = wrap64 (notes_of w t + 1).
Proof.
  unfold note, ctx_note, notes_of.
  destruct (0 <? notes (ctxs w t)); simpl; now rewrite Nat.eqb_refl.
Qed.

Lemma note_woke (t : nat) (w : world) :
  fst (note t w) = negb (0 <? notes_of w t).
Proof.
  unfold note, ctx_note, notes_of. now destruct (0 <? notes (ctxs w t)).
Qed.

Lemma note_cancels (t : nat) (w : world) :
  cancels_of (snd (note t w)) t
  = if fst (note t w) then S (cancels_of w t) else cancels_of w t.
Proof.
  unfold note, ctx_note, cancels_of.
  destruct (0 <? notes (ctxs w t)); simpl; now rewrite Nat.eqb_refl.
Qed.

Lemma note_other (t u : nat) (w : world) :
  u <> t -> ctxs (snd (note t w)) u = ctxs w u.
Proof.
  intros H. unfold note, ctx_note.
  destruct (0 <? notes (ctxs w t)); simpl;
    apply Nat.eqb_neq in H; now rewrite H.
Qed.

Lemma note_expiry (t u : nat) (w : world) :
  expiry_of (snd (note t w)) u = expiry_of w u.
Proof.
  unfold expiry_of. destruct (Nat.eq_dec u t) as [->|H].
  - unfold note, ctx_note.
    destruct (0 <? notes (ctxs w t)); simpl; now rewrite Nat.eqb_refl.
  - now rewrite note_other.
Qed.

Lemma note_clock (t : nat) (w : world) : clock (snd (note t w)) = clock w.
Proof.
  unfold note, ctx_note. now destruct (0 <? notes (ctxs w t)).
Qed.

Lemma note_cancels_mono (t u : nat) (w : world) :
  (cancels_of w u <= cancels_of (snd (note t w)) u)%nat.
Proof.
  destruct (Nat.eq_dec u t) as [->|H].
  - rewrite note_cancels. destruct (fst (note t w)); lia.
  - unfold cancels_of. rewrite note_other by assumption. lia.
Qed.

(** ** interrupt *)

Lemma interrupt_cancels (t : nat) (w : world) :
  cancels_of (interrupt INTERRUPTED t w) t = S (cancels_of w t).
Proof. unfold interrupt, wake, cancels_of. simpl. now rewrite !Nat.eqb_refl. Qed.

Lemma interrupt_other (t u : nat) (w : world) :
  u <> t -> ctxs (interrupt INTERRUPTED t w) u = ctxs w u.
Proof.
  intros H. unfold interrupt, wake. simpl.
  apply Nat.eqb_neq in H. now rewrite H.
Qed.

Lemma interrupt_expiry (t u : nat) (w : world) :
  expiry_of (interrupt INTERRUPTED t w) u = expiry_of w u.
Proof.
  unfold expiry_of. destruct (Nat.eq_dec u t) as [->|H].
  - unfold interrupt, wake. simpl. now rewrite !Nat.eqb_refl.
  - now rewrite interrupt_other.
Qed.

Lemma interrupt_notes (t u : nat) (w : world) :
  notes_of (interrupt INTERRUPTED t w) u = notes_of w u.
Proof.
  unfold notes_of. destruct (Nat.eq_dec u t) as [->|H].
  - unfold interrupt, wake. simpl. now rewrite !Nat.eqb_refl.
  - now rewrite interrupt_other.
Qed.

Lemma interrupt_cancels_mono (t u : nat) (w : world) :
  (cancels_of w u <= cancels_of (interrupt INTERRUPTED t w) u)%nat.
Proof.
  destruct (Nat.eq_dec u t) as [->|H].
  - rewrite interrupt_cancels. lia.
  - unfold cancels_of. rewrite interrupt_other by assumption. lia.
Qed.

(** ** The activity of the other contexts *)

Lemma run_ext_cons (e : ext) (es : list ext) (w : world) :
  run_ext INTERRUPTED (e :: es) w
  = run_ext INTERRUPTED es (run_ext1 INTERRUPTED e w).
Proof. reflexivity. Qed.

Lemma run_ext1_expiry (e : ext) (w : world) (u : nat) :
  expiry_of (run_ext1 INTERRUPTED e w) u = expiry_of w u.
Proof.
  destruct e as [t|t|us|t]; simpl.
  - apply note_expiry.
  - apply interrupt_expiry.
  - reflexivity.
  - apply note_expiry.
Qed.

Lemma run_ext_expiry (es : list ext) (w : world) (u : nat) :
  expiry_of (run_ext INTERRUPTED es w) u = expiry_of w u.
Proof.
  revert w. induction es as [|e es IH]; intros w; [reflexivity|].
  rewrite run_ext_cons, IH. apply run_ext1_expiry.
Qed.

Lemma run_ext1_clock (e : ext) (w : world) :
  clock w <= clock (run_ext1 INTERRUPTED e w).
Proof.
  destruct e as [t|t|us|t]; simpl.
  - unfold notify. rewrite note_clock. lia.
  - lia.
  - lia.
  - unfold notify. rewrite note_clock. lia.
Qed.

Lemma run_ext_clock (es : list ext) (w : world) :
  clock w <= clock (run_ext INTERRUPTED es w).
Proof.
  revert w. induction es as [|e es IH]; intros w; [simpl; lia|].
  rewrite run_ext_cons. pose proof (run_ext1_clock e w).
  specialize (IH (run_ext1 INTERRUPTED e w)). lia.
Qed.

Lemma run_ext1_cancels_mono (e : ext) (w : world) (u : nat) :
  (cancels_of w u <= cancels_of (run_ext1 INTERRUPTED e w) u)%nat.
Proof.
  destruct e as [t|t|us|t]; simpl.
  - apply note_cancels_mono.
  - apply interrupt_cancels_mono.
  - unfold cancels_of. simpl. lia.
  - apply note_cancels_mono.
Qed.

Lemma run_ext_cancels_mono (es : list ext) (w : world) (u : nat) :
  (cancels_of w u <= cancels_of (run_ext INTERRUPTED es w) u)%nat.
Proof.
  revert w. induction es as [|e es IH]; intros w; [simpl; lia|].
  rewrite run_ext_cons. pose proof (run_ext1_cancels_mono e w u).
  specialize (IH (run_ext1 INTERRUPTED e w)). lia.
Qed.

(** A notification of a context whose counter is not positive cancels its
    alarm, whatever else happens around it. *)
Lemma run_ext_notify_cancels (es : list ext) (w : world) (t : nat) :
  notes_of w t <= 0 -> In (ext_notify t) es ->
  (cancels_of w t < cancels_of (run_ext INTERRUPTED es w) t)%nat.
Proof.
  revert w. induction es as [|e es IH]; intros w Hn Hin; [destruct Hin|].
  rewrite run_ext_cons.
  pose proof (run_ext_cancels_mono es (run_ext1 INTERRUPTED e w) t) as Hm.
  pose proof (run_ext1_cancels_mono e w t) as Hm1.
  destruct e as [u|u|us|u].
  - destruct (Nat.eq_dec u t) as [->|Hne].
    + simpl in *. unfold notify in *.
      pose proof (note_cancels t w) as Hc. rewrite note_woke in Hc.
      destruct (0 <? notes_of w t) eqn:E; [apply Z.ltb_lt in E; lia|].
      simpl in Hc. lia.
    + destruct Hin as [Heq|Hin]; [congruence|].
      assert (Hn' : notes_of (run_ext1 INTERRUPTED (ext_notify u) w) t <= 0).
      { simpl. unfold notify, notes_of. now rewrite note_other by congruence. }
      specialize (IH _ Hn' Hin). lia.
  - destruct Hin as [Heq|Hin]; [discriminate|].
    assert (Hn' : notes_of (run_ext1 INTERRUPTED (ext_interrupt u) w) t <= 0).
    { simpl. now rewrite interrupt_notes. }
    specialize (IH _ Hn' Hin). lia.
  - destruct Hin as [Heq|Hin]; [discriminate|].
    assert (Hn' : notes_of (run_ext1 INTERRUPTED (ext_elapse us) w) t <= 0).
    { exact Hn. }
    specialize (IH _ Hn' Hin). lia.
  - destruct (Nat.eq_dec u t) as [->|Hne].
    + simpl in *. unfold notify in *.
      pose proof (note_cancels t w) as Hc. rewrite note_woke in Hc.
      destruct (0 <? notes_of w t) eqn:E; [apply Z.ltb_lt in E; lia|].
      simpl in Hc. lia.
    + destruct Hin as [Heq|Hin]; [discriminate|].
      assert (Hn' : notes_of (run_ext1 INTERRUPTED (ext_restore u) w) t <= 0).
      { simpl. unfold notify, notes_of. now rewrite note_other by congruence. }
      specialize (IH _ Hn' Hin). lia.
Qed.

(** ** interruption_point *)

Lemma interruption_point_cases (t : nat) (w : world) :
  (interruption INTERRUPTED w t = false
   /\ interruption_point INTERRUPTED t w = Ok tt w)
  \/ (interruption INTERRUPTED w t = true
      /\ interruption_point INTERRUPTED t w
         = Throw interrupted
             (upd w t (set_flags (ctxs w t)
                         (Z.land (flags (ctxs w t)) (Z.lnot INTERRUPTED))))).
Proof.
  unfold interruption_point, interruption_point_nothrow.
  destruct (interruption INTERRUPTED w t); [right|left]; split; reflexivity.
Qed.

(** ** continuation and the two halves of wait *)

Lemma continuation_dtor_notes (self : nat) (w : world) :
  notes_of (continuation_dtor self w) self = 1
  /\ current (continuation_dtor self w) = Some self.
Proof.
  unfold continuation_dtor, notes_of. simpl. now rewrite Nat.eqb_refl.
Qed.

Lemma wait_enter_cases (this : nat) (w : world) :
  current w = Some this ->
  let n := wrap64 (notes_of w this - 1) in
  let w1 := upd w this (set_notes (ctxs w this) n) in
  (0 < n /\ wait_enter this w = Returned false w1)
  \/ (n <= 0 /\ critical_asserted w = false
      /\ wait_enter this w = Yielded (set_current w1 None))
  \/ (n <= 0 /\ critical_asserted w = true /\ wait_enter this w = Aborted).
Proof.
  intros Hc n w1. unfold wait_enter.
  apply is_current_iff in Hc. rewrite Hc.
  fold (notes_of w this). fold n. fold w1.
  destruct (0 <? n) eqn:E.
  - left. apply Z.ltb_lt in E. now split.
  - right. apply Z.ltb_ge in E. unfold continuation_ctor.
    replace (critical_asserted w1) with (critical_asserted w) by reflexivity.
    destruct (critical_asserted w); [right; now auto|left].
    replace (notes (ctxs w1 this)) with n
      by (unfold w1; simpl; now rewrite Nat.eqb_refl).
    destruct (n <=? 1) eqn:E1; [now auto|].
    apply Z.leb_gt in E1. lia.
Qed.

Lemma wait_resume_cases (this : nat) (w : world) :
  exists w2,
    (wait_resume INTERRUPTED this w = Ok true w2
     \/ wait_resume INTERRUPTED this w = Throw interrupted w2)
    /\ notes_of w2 this = 1
    /\ clock w2 = clock w
    /\ expiry_of w2 this = expiry_of w this
    /\ (interruption INTERRUPTED w this = false ->
        wait_resume INTERRUPTED this w = Ok true w2).
Proof.
  unfold wait_resume.
  destruct (continuation_dtor_notes this w) as [Hn Hc].
  apply is_current_iff in Hc. rewrite Hc.
  unfold notes_of in Hn. rewrite Hn. simpl andb.
  assert (Hi : interruption INTERRUPTED (continuation_dtor this w) this
               = interruption INTERRUPTED w this).
  { unfold interruption, continuation_dtor. simpl. now rewrite Nat.eqb_refl. }
  destruct (interruption_point_cases this (continuation_dtor this w))
    as [[Hf ->]|[Hf ->]].
  - exists (continuation_dtor this w). repeat split; auto.
    unfold expiry_of, continuation_dtor. simpl. now rewrite Nat.eqb_refl.
  - eexists. split; [right; reflexivity|].
    unfold notes_of, expiry_of, continuation_dtor. simpl.
    rewrite !Nat.eqb_refl. simpl. repeat split; auto.
    intros Hf'. congruence.
Qed.

Lemma wait_notified (t : nat) (es : list ext) (w w1 : world) :
  current w = Some t ->
  wait_enter t w = Yielded w1 ->
  In (ext_notify t) es ->
  exists w2,
    (wait INTERRUPTED t es w = Ok true w2
     \/ wait INTERRUPTED t es w = Throw interrupted w2)
    /\ notes_of w2 t = 1.
Proof.
  intros Hc He Hin. unfold wait. rewrite He.
  destruct (wait_enter_cases t w Hc) as [[_ H]|[[Hn [_ H]]|[_ [_ H]]]];
    rewrite H in He; try discriminate.
  injection He as <-.
  assert (Hn1 : notes_of (set_current
                  (upd w t (set_notes (ctxs w t) (wrap64 (notes_of w t - 1))))
                  None) t <= 0).
  { unfold notes_of at 1. simpl. now rewrite Nat.eqb_refl. }
  pose proof (run_ext_notify_cancels es _ t Hn1 Hin) as Hlt.
  unfold alarm_fired. fold (cancels_of (set_current
                  (upd w t (set_notes (ctxs w t) (wrap64 (notes_of w t - 1))))
                  None) t).
  match goal with
  | |- context [(?a <? ?b)%nat] =>
      replace (a <? b)%nat with true by (symmetry; apply Nat.ltb_lt; exact Hlt)
  end.
  simpl orb. cbv iota.
  destruct (wait_resume_cases t (run_ext INTERRUPTED es (set_current
                  (upd w t (set_notes (ctxs w t) (wrap64 (notes_of w t - 1))))
                  None))) as [w2 [Hr [Hn2 _]]].
  exists w2. now split.
Qed.

(** C6. [notify(t)] adds one to the note counter of [t] and wakes [t]
    (cancels its alarm) exactly when the counter went from 0 to 1.  For the
    current context, [wait()] takes one from the counter and returns at once,
    without suspending, exactly when the counter is still positive; else it
    suspends.  No notification is lost: a note that arrives before the wait
    makes the wait return at once, and a note that arrives during the
    suspension resumes the context. *)
Theorem notify_wait_notes (w : world) (t : nat)
        (Hrange : 0 <= notes_of w t < INT64_MAX) :
  (* notify *)
  notes_of (snd (notify t w)) t = notes_of w t + 1
  /\ (fst (notify t w) = true
      <-> notes_of w t = 0 /\ notes_of (snd (notify t w)) t = 1)
  /\ cancels_of (snd (notify t w)) t
     = (if fst (notify t w) then S (cancels_of w t) else cancels_of w t)
  (* wait, for the current context *)
  /\ (current w = Some t ->
      (0 < notes_of w t - 1 <-> exists w', wait_enter t w = Returned false w')
      /\ (forall b w', wait_enter t w = Returned b w' ->
          b = false /\ notes_of w' t = notes_of w t - 1)
      /\ (forall w', wait_enter t w = Yielded w' ->
          notes_of w' t = notes_of w t - 1 /\ notes_of w' t <= 0)
      /\ (critical_asserted w = false -> notes_of w t - 1 <= 0 ->
          suspends (wait_enter t w) = true))
  (* a note before the wait *)
  /\ (current w = Some t -> notes_of w t = 1 ->
      exists w', wait_enter t (snd (notify t w)) = Returned false w'
                 /\ notes_of w' t = 1)
  (* a note during the suspension *)
  /\ (current w = Some t ->
      forall es w1, wait_enter t w = Yielded w1 -> In (ext_notify t) es ->
      exists w2,
        (wait INTERRUPTED t es w = Ok true w2
         \/ wait INTERRUPTED t es w = Throw interrupted w2)
        /\ notes_of w2 t = 1).
Proof.
  assert (Hinc : notes_of (snd (notify t w)) t = notes_of w t + 1).
  { unfold notify. rewrite note_notes. apply wrap64_small.
    unfold INT64_MIN, INT64_MAX in *. lia. }
  assert (Hdec : wrap64 (notes_of w t - 1) = notes_of w t - 1).
  { apply wrap64_small. unfold INT64_MIN, INT64_MAX in *. lia. }
  split; [exact Hinc|].
  split.
  { unfold notify in *. rewrite note_woke, Hinc. rewrite negb_true_iff, Z.ltb_ge. lia. }
  split; [apply note_cancels|].
  split.
  { intros Hc. pose proof (wait_enter_cases t w Hc) as Hcases.
    cbv zeta in Hcases. rewrite Hdec in Hcases.
    split; [split|split; [|split]].
    - intros Hpos. destruct Hcases as [[_ H]|[[Hn _]|[Hn _]]]; try lia.
      eexists; exact H.
    - intros [w' H'].
      destruct Hcases as [[Hn _]|[[_ [_ H]]|[_ [_ H]]]]; [exact Hn| |];
        rewrite H in H'; discriminate.
    - intros b w' H'.
      destruct Hcases as [[_ H]|[[_ [_ H]]|[_ [_ H]]]];
        rewrite H in H'; try discriminate.
      injection H' as <- <-. split; [reflexivity|].
      unfold notes_of. simpl. now rewrite Nat.eqb_refl.
    - intros w' H'.
      destruct Hcases as [[_ H]|[[Hn [_ H]]|[_ [_ H]]]];
        rewrite H in H'; try discriminate.
      injection H' as <-.
      assert (E : notes_of (set_current
                    (upd w t (set_notes (ctxs w t) (notes_of w t - 1))) None) t
                  = notes_of w t - 1).
      { unfold notes_of at 1. simpl. now rewrite Nat.eqb_refl. }
      rewrite E. split; [reflexivity|exact Hn].
    - intros Hcrit Hle.
      destruct Hcases as [[Hn _]|[[_ [_ H]]|[_ [Hcr _]]]];
        [lia| now rewrite H | congruence].
  }
  split.
  { intros Hc H1.
    assert (Hc' : current (snd (notify t w)) = Some t).
    { unfold notify, note, ctx_note.
      destruct (0 <? notes (ctxs w t)); exact Hc. }
    pose proof (wait_enter_cases t _ Hc') as Hcases. cbv zeta in Hcases.
    rewrite Hinc, H1 in Hcases.
    replace (wrap64 (1 + 1 - 1)) with 1 in Hcases by reflexivity.
    destruct Hcases as [[_ H]|[[Hn _]|[Hn _]]]; try lia.
    eexists. split; [exact H|].
    unfold notes_of. simpl. now rewrite Nat.eqb_refl. }
  intros Hc es w1 He Hin. eapply wait_notified; eauto.
Qed.

(** ** The interruption flag *)

Lemma land_lor_same (f m : Z) : Z.land (Z.lor f m) m = m.
Proof.
  apply Z.bits_inj'. intros n Hn.
  rewrite Z.land_spec, Z.lor_spec.
  destruct (Z.testbit f n), (Z.testbit m n); reflexivity.
Qed.

Lemma land_lnot_same (f m : Z) : Z.land (Z.land f (Z.lnot m)) m = 0.
Proof.
  apply Z.bits_inj'. intros n Hn.
  rewrite !Z.land_spec, Z.lnot_spec, Z.bits_0 by assumption.
  destruct (Z.testbit f n), (Z.testbit m n); reflexivity.
Qed.

(** C7. [interrupt(t)] sets the interruption flag of [t] and posts a wake
    (one [alarm.cancel()]), the counter of notes untouched.  At any state,
    [interruption_point()] in [t] raises [interrupted] if and only if the flag
    is set at that point, clearing it; when the flag is not set it returns
    with the state as it was.  In particular the first interruption point
    after an interrupt raises. *)
Theorem interrupt_interruption_point (w : world) (t : nat)
        (Hmask : INTERRUPTED <> 0) :
  interruption INTERRUPTED (interrupt INTERRUPTED t w) t = true
  /\ cancels_of (interrupt INTERRUPTED t w) t = S (cancels_of w t)
  /\ notes_of (interrupt INTERRUPTED t w) t = notes_of w t
  /\ ((exists w', interruption_point INTERRUPTED t w = Throw interrupted w')
      <-> interruption INTERRUPTED w t = true)
  /\ (forall w', interruption_point INTERRUPTED t w = Throw interrupted w' ->
      interruption INTERRUPTED w' t = false)
  /\ (interruption INTERRUPTED w t = false ->
      interruption_point INTERRUPTED t w = Ok tt w)
  /\ (exists w', interruption_point INTERRUPTED t (interrupt INTERRUPTED t w)
                 = Throw interrupted w').
Proof.
  assert (Hset : interruption INTERRUPTED (interrupt INTERRUPTED t w) t = true).
  { unfold interruption, interrupt, wake. simpl. rewrite !Nat.eqb_refl. simpl.
    rewrite land_lor_same. apply negb_true_iff. now apply Z.eqb_neq. }
  split; [exact Hset|].
  split; [apply interrupt_cancels|].
  split; [apply interrupt_notes|].
  split.
  { destruct (interruption_point_cases t w) as [[Hf He]|[Hf He]]; rewrite He, Hf.
    - split; [intros [w' H]; discriminate|discriminate].
    - split; [reflexivity|intros _; eexists; reflexivity]. }
  split.
  { intros w' H.
    destruct (interruption_point_cases t w) as [[Hf He]|[Hf He]];
      rewrite He in H; [discriminate|].
    injection H as <-. unfold interruption. simpl. rewrite Nat.eqb_refl. simpl.
    now rewrite land_lnot_same. }
  split.
  { intros Hf.
    destruct (interruption_point_cases t w) as [[_ He]|[Hf' _]];
      [exact He|congruence]. }
  destruct (interruption_point_cases t (interrupt INTERRUPTED t w))
    as [[Hf _]|[_ He]]; [congruence|].
  eexists; exact He.
Qed.

(** ** The counter at every resumption *)

Lemma continuation_ctor_notes (self : nat) (w w' : world) :
  continuation_ctor self w = Some w' ->
  notes_of w self <= 1 /\ notes_of w' self = notes_of w self
  /\ current w' = None.
Proof.
  unfold continuation_ctor, notes_of.
  destruct (critical_asserted w); [discriminate|].
  destruct (notes (ctxs w self) <=? 1) eqn:E; [|discriminate].
  intros H. injection H as <-. apply Z.leb_le in E. now repeat split.
Qed.

Lemma wait_enter_yielded (t : nat) (w w1 : world) :
  wait_enter t w = Yielded w1 -> notes_of w1 t <= 0.
Proof.
  unfold wait_enter. destruct (is_current w t); [|discriminate].
  destruct (0 <? wrap64 (notes (ctxs w t) - 1)) eqn:E; [discriminate|].
  destruct (continuation_ctor t _) as [w2|] eqn:Ec; [|discriminate].
  intros H. injection H as <-.
  apply continuation_ctor_notes in Ec. destruct Ec as [_ [-> _]].
  apply Z.ltb_ge in E. unfold notes_of. simpl. now rewrite Nat.eqb_refl.
Qed.

Lemma wait_resumed_notes (t : nat) (es : list ext) (w w' : world) :
  wait INTERRUPTED t es w = Ok true w'
  \/ wait INTERRUPTED t es w = Throw interrupted w' ->
  notes_of w' t = 1.
Proof.
  unfold wait. destruct (wait_enter t w) as [b w1|w1|] eqn:He.
  - unfold wait_enter in He. destruct (is_current w t); [|discriminate].
    destruct (0 <? wrap64 (notes (ctxs w t) - 1)); [|
      destruct (continuation_ctor t _); discriminate].
    injection He as <- <-. intros [H|H]; discriminate.
  - destruct (alarm_fired t w1 (run_ext INTERRUPTED es w1)).
    + destruct (wait_resume_cases t (run_ext INTERRUPTED es w1))
        as [w2 [[Hr|Hr] [Hn _]]]; rewrite Hr; intros [H|H];
        try discriminate; now injection H as <-.
    + intros [H|H]; discriminate.
  - intros [H|H]; discriminate.
Qed.

Lemma jump_enter_yielded (this cur : nat) (w w1 : world) :
  current w = Some cur ->
  jump_enter this w = Yielded w1 -> notes_of w1 cur = 0.
Proof.
  intros Hc. unfold jump_enter. rewrite Hc.
  destruct (Nat.eqb cur this); [discriminate|].
  destruct (continuation_ctor cur _) as [w2|] eqn:Ec; [|discriminate].
  intros H. injection H as <-.
  apply continuation_ctor_notes in Ec. destruct Ec as [_ [-> _]].
  unfold notes_of. simpl. now rewrite Nat.eqb_refl.
Qed.

Lemma jump_enter_yields (this cur : nat) (w : world) :
  current w = Some cur -> cur <> this -> critical_asserted w = false ->
  exists w1, jump_enter this w = Yielded w1.
Proof.
  intros Hc Hne Hcr. unfold jump_enter. rewrite Hc.
  apply Nat.eqb_neq in Hne. rewrite Hne.
  unfold continuation_ctor. simpl. rewrite Hcr, Nat.eqb_refl. simpl.
  eexists; reflexivity.
Qed.

Lemma jump_resumed_notes (this cur : nat) (es : list ext) (w w' : world) :
  current w = Some cur ->
  jump INTERRUPTED this es w = Ok tt w'
  \/ jump INTERRUPTED this es w = Throw interrupted w' ->
  notes_of w' cur = 1.
Proof.
  intros Hc. unfold jump. rewrite Hc.
  destruct (jump_enter this w) as [b w1|w1|];
    try (intros [H|H]; discriminate).
  unfold jump_resume.
  destruct (continuation_dtor_notes cur (run_ext INTERRUPTED es w1))
    as [Hn Hcur].
  destruct (negb (is_current _ this) && _) eqn:E;
    [|intros [H|H]; discriminate].
  destruct (interruption_point_cases this
              (continuation_dtor cur (run_ext INTERRUPTED es w1)))
    as [[_ He]|[_ He]]; rewrite He; intros [H|H]; try discriminate.
  - now injection H as <-.
  - injection H as <-.
    apply andb_true_iff in E. destruct E as [E _].
    apply negb_true_iff in E. unfold is_current in E. rewrite Hcur in E.
    unfold notes_of in *. rewrite ctxs_upd_other; [exact Hn|].
    apply Nat.eqb_neq. exact E.
Qed.

Lemma yield_loop_notes (fuel : nat) (me : nat)
      (rounds : list (list ext)) (w w' : world) :
  yield_loop INTERRUPTED fuel me rounds false w = Ok tt w'
  \/ yield_loop INTERRUPTED fuel me rounds false w = Throw interrupted w' ->
  notes_of w' me = 1.
Proof.
  revert rounds w. induction fuel as [|fuel IH]; intros rounds w; simpl.
  - intros [H|H]; discriminate.
  - destruct (this_wait_enter me w) as [b w1|w1|].
    + apply IH.
    + destruct rounds as [|es rest]; [intros [H|H]; discriminate|].
      destruct (alarm_fired me w1 (run_ext INTERRUPTED es w1));
        [|intros [H|H]; discriminate].
      destruct (wait_resume_cases me (run_ext INTERRUPTED es w1))
        as [w2 [[Hr|Hr] [Hn _]]]; rewrite Hr.
      * destruct (existsb (is_restore me) es); simpl.
        -- intros [H|H]; [|discriminate]. now injection H as <-.
        -- apply IH.
      * intros [H|H]; [discriminate|]. now injection H as <-.
    + intros [H|H]; discriminate.
Qed.

(** C10. The note counter of a context is exactly 1 whenever the context is
    resumed from a suspension.  The destructor of the continuation sets it to
    1 whatever it was; a context that yields in [wait] or [jump] passes the
    [notes <= 1] assertion of the continuation ([jump] having cleared the
    counter of the jumping context to 0); and [wait], [jump] and [yield]
    return or throw with the counter at 1 whatever notes and interrupts
    arrived during the suspension. *)
Theorem resumed_notes_one :
  (forall self w, notes_of (continuation_dtor self w) self = 1)
  /\ (forall self w w', continuation_ctor self w = Some w' ->
      notes_of w self <= 1)
  /\ (forall t w w1, wait_enter t w = Yielded w1 -> notes_of w1 t <= 1)
  /\ (forall this cur w w1, current w = Some cur ->
      jump_enter this w = Yielded w1 -> notes_of w1 cur = 0)
  /\ (forall this cur w, current w = Some cur -> cur <> this ->
      critical_asserted w = false ->
      exists w1, jump_enter this w = Yielded w1)
  /\ (forall t es w w',
      wait INTERRUPTED t es w = Ok true w'
      \/ wait INTERRUPTED t es w = Throw interrupted w' ->
      notes_of w' t = 1)
  /\ (forall this cur es w w', current w = Some cur ->
      jump INTERRUPTED this es w = Ok tt w'
      \/ jump INTERRUPTED this es w = Throw interrupted w' ->
      notes_of w' cur = 1)
  /\ (forall fuel rounds me w w', current w = Some me ->
      yield INTERRUPTED fuel rounds w = Ok tt w'
      \/ yield INTERRUPTED fuel rounds w = Throw interrupted w' ->
      notes_of w' me = 1).
Proof.
  split; [intros self w; apply continuation_dtor_notes|].
  split; [intros self w w' H; now apply continuation_ctor_notes in H|].
  split; [intros t w w1 H; apply wait_enter_yielded in H; lia|].
  split; [intros this cur w w1; apply jump_enter_yielded|].
  split; [intros this cur w; apply jump_enter_yields|].
  split; [intros t es w w'; apply wait_resumed_notes|].
  split; [intros this cur es w w'; apply jump_resumed_notes|].
  intros fuel rounds me w w' Hc. unfold yield. rewrite Hc.
  apply yield_loop_notes.
Qed.

(** ** The normal range of the counters is kept

    The hypothesis of [notify_wait_notes] holds in every state the
    primitives reach from a state in the normal range. *)

Lemma note_current (t : nat) (w : world) :
  current (snd (note t w)) = current w.
Proof. unfold note, ctx_note. now destruct (0 <? notes (ctxs w t)). Qed.

Lemma notes_of_upd (w : world) (i u : nat) (c : ctx) :
  notes_of (upd w i c) u = if Nat.eqb u i then notes c else notes_of w u.
Proof. unfold notes_of. simpl. now destruct (Nat.eqb u i). Qed.

Lemma notes_ok_notify (t : nat) (w : world) :
  notes_ok w -> notes_of w t < INT64_MAX -> notes_ok (snd (notify t w)).
Proof.
  intros [Hall Hcur] Hlt. unfold notify.
  assert (Ht : notes_of (snd (note t w)) t = notes_of w t + 1).
  { rewrite note_notes. apply wrap64_small.
    specialize (Hall t). unfold INT64_MIN, INT64_MAX in *. lia. }
  split.
  - intros u. destruct (Nat.eq_dec u t) as [->|Hne].
    + rewrite Ht. specialize (Hall t). lia.
    + unfold notes_of. rewrite note_other by assumption. apply Hall.
  - intros c Hc. rewrite note_current in Hc. specialize (Hcur c Hc).
    destruct (Nat.eq_dec c t) as [->|Hne].
    + rewrite Ht. lia.
    + unfold notes_of in *. now rewrite note_other by assumption.
Qed.

Lemma notes_ok_interrupt (t : nat) (w : world) :
  notes_ok w -> notes_ok (interrupt INTERRUPTED t w).
Proof.
  intros [Hall Hcur]. split.
  - intros u. rewrite interrupt_notes. apply Hall.
  - intros c Hc. rewrite interrupt_notes. now apply Hcur.
Qed.

Lemma notes_ok_wait_enter (t : nat) (w w' : world) (b : bool) :
  notes_ok w ->
  wait_enter t w = Returned b w' \/ wait_enter t w = Yielded w' ->
  notes_ok w'.
Proof.
  intros [Hall Hcur] H.
  assert (Hc : current w = Some t).
  { apply is_current_iff. unfold wait_enter in H.
    destruct (is_current w t); [reflexivity|]. destruct H; discriminate. }
  pose proof (Hcur t Hc) as H1. pose proof (Hall t) as H2.
  assert (Hw : wrap64 (notes_of w t - 1) = notes_of w t - 1).
  { apply wrap64_small. unfold INT64_MIN, INT64_MAX in *. lia. }
  pose proof (wait_enter_cases t w Hc) as Hcases. cbv zeta in Hcases.
  rewrite Hw in Hcases.
  destruct Hcases as [[Hn He]|[[Hn [_ He]]|[_ [_ He]]]]; rewrite He in H;
    destruct H as [H|H]; try discriminate.
  - injection H as _ <-. split.
    + intros u. rewrite notes_of_upd. simpl.
      destruct (Nat.eqb u t); [lia|apply Hall].
    + intros c Hc'. simpl in Hc'. rewrite Hc in Hc'. injection Hc' as <-.
      rewrite notes_of_upd, Nat.eqb_refl. simpl. lia.
  - injection H as <-. split.
    + intros u. unfold notes_of in *. simpl.
      destruct (Nat.eqb u t); simpl; [lia|apply Hall].
    + intros c Hc'. discriminate.
Qed.

Lemma notes_ok_continuation_dtor (self : nat) (w : world) :
  notes_ok w -> notes_ok (continuation_dtor self w).
Proof.
  intros [Hall Hcur]. unfold continuation_dtor. split.
  - intros u. rewrite notes_of_upd. simpl.
    destruct (Nat.eqb u self); [unfold INT64_MAX; lia|apply Hall].
  - intros c Hc. simpl in Hc. injection Hc as <-.
    rewrite notes_of_upd, Nat.eqb_refl. simpl. lia.
Qed.

Lemma notes_ok_jump_enter (this : nat) (w w' : world) :
  notes_ok w -> jump_enter this w = Yielded w' -> notes_ok w'.
Proof.
  intros [Hall Hcur]. unfold jump_enter.
  destruct (current w) as [cur|]; [|discriminate].
  destruct (Nat.eqb cur this); [discriminate|].
  destruct (continuation_ctor cur _) as [w2|] eqn:Ec; [|discriminate].
  intros H. injection H as <-. unfold continuation_ctor in Ec.
  destruct (critical_asserted _); [discriminate|].
  destruct (_ <=? 1); [|discriminate]. injection Ec as <-. split.
  - intros u. unfold notes_of in *. simpl.
    destruct (Nat.eqb u cur); simpl; [unfold INT64_MAX; lia|apply Hall].
  - intros c Hc. discriminate.
Qed.

(** ** The timed wait *)

Lemma wait_enter_frame (t : nat) (w : world) :
  match wait_enter t w with
  | Returned _ w1 | Yielded w1 =>
      expiry_of w1 t = expiry_of w t /\ clock w1 = clock w
      /\ cancels_of w1 t = cancels_of w t
      /\ flags (ctxs w1 t) = flags (ctxs w t)
  | Aborted => True
  end.
Proof.
  unfold wait_enter. destruct (is_current w t); [|exact I].
  destruct (0 <? wrap64 (notes (ctxs w t) - 1)).
  - unfold expiry_of, cancels_of. simpl. now rewrite Nat.eqb_refl.
  - unfold continuation_ctor. simpl.
    destruct (critical_asserted w); [exact I|].
    rewrite Nat.eqb_refl. simpl.
    destruct (wrap64 (notes (ctxs w t) - 1) <=? 1); [|exact I].
    unfold expiry_of, cancels_of. simpl. now rewrite Nat.eqb_refl.
Qed.

Lemma wait_ok_frame (t : nat) (es : list ext) (w w' : world) (b : bool) :
  wait INTERRUPTED t es w = Ok b w' ->
  expiry_of w' t = expiry_of w t /\ clock w <= clock w'
  /\ (b = false -> clock w' = clock w).
Proof.
  unfold wait. pose proof (wait_enter_frame t w) as Hf.
  destruct (wait_enter t w) as [b1 w1|w1|]; [| |discriminate].
  - intros H. injection H as <- <-. destruct Hf as [He [Hk _]].
    repeat split; auto. lia.
  - destruct Hf as [He [Hk _]].
    destruct (alarm_fired t w1 (run_ext INTERRUPTED es w1)); [|discriminate].
    destruct (wait_resume_cases t (run_ext INTERRUPTED es w1))
      as [w2 [[Hr|Hr] [_ [Hk2 [He2 _]]]]]; rewrite Hr; [|discriminate].
    intros H. injection H as <- <-.
    rewrite He2, run_ext_expiry, He, Hk2.
    pose proof (run_ext_clock es w1). repeat split; [lia|discriminate].
Qed.

Lemma expires_at_frame (c : nat) (tp : Z) (w : world) :
  expiry_of (expires_at c tp w) c = tp
  /\ clock (expires_at c tp w) = clock w
  /\ current (expires_at c tp w) = current w
  /\ notes_of (expires_at c tp w) c = notes_of w c
  /\ critical_asserted (expires_at c tp w) = critical_asserted w.
Proof.
  unfold expires_at, expiry_of, notes_of. simpl. now rewrite Nat.eqb_refl.
Qed.

(** The two conversions of [this_ctx::wait]. *)
Lemma cast_to_ns (d : Z) :
  duration_cast microseconds nanoseconds d = wrap64 (d * 1000).
Proof. reflexivity. Qed.

Lemma cast_to_us (n : Z) :
  duration_cast nanoseconds microseconds n = Z.quot n 1000.
Proof. reflexivity. Qed.

Lemma cast_round_trip (d : Z) :
  INT64_MIN <= d * 1000 <= INT64_MAX ->
  duration_cast nanoseconds microseconds
                (duration_cast microseconds nanoseconds d) = d.
Proof.
  intros H. rewrite cast_to_ns, cast_to_us, wrap64_small by exact H.
  apply Z.quot_mul. lia.
Qed.

(** Truncation toward zero of a count of nanoseconds. *)
Lemma quot_1000_sign (x : Z) :
  (x <= 0 -> Z.quot x 1000 <= 0)
  /\ (Z.quot x 1000 < 0 -> x <= -1000)
  /\ (Z.quot x 1000 <= 0 <-> x < 1000)
  /\ (0 < Z.quot x 1000 -> 1000 * Z.quot x 1000 <= x).
Proof.
  pose proof (Z.quot_rem' x 1000) as Hq.
  destruct (Z.le_gt_cases 0 x) as [Hx|Hx].
  - pose proof (Z.rem_bound_pos x 1000 Hx ltac:(lia)) as Hr. lia.
  - pose proof (Z.rem_bound_pos_neg x 1000 ltac:(lia) ltac:(lia)) as Hr. lia.
Qed.

(** The value [wait_for] returns: the time left to the deadline, in whole
    microseconds. *)
Lemma wait_for_value (d : Z) (lag : N) (es : list ext) (w w' : world)
      (r : Z) :
  wait_for INTERRUPTED d lag es w = Ok r w' ->
  r = Z.quot (deadline d w - clock w') 1000.
Proof.
  unfold wait_for. destruct (current w) as [c|]; [|discriminate].
  destruct (expires_at_frame c (deadline d w) w) as [Hx _].
  destruct (wait INTERRUPTED c es (expires_at c (deadline d w) w))
    as [b w1|e w1| |w1] eqn:Ew; try discriminate.
  intros H. injection H as <- <-.
  apply wait_ok_frame in Ew. destruct Ew as [He _].
  rewrite cast_to_us. unfold expires_from_now. simpl.
  fold (expiry_of w1 c). now rewrite He, Hx.
Qed.

(** C8, as the code has it.  [wait_for(d)] arms the alarm for [d] from now
    and calls [wait()] once; the clock and the deadline are time points of
    the steady clock, from the epoch on.  With a note pending it does not
    suspend, and returns the duration, as converted to nanoseconds, less the
    time that has passed since the alarm was armed, in whole microseconds:
    the duration unchanged only if no time has passed and [d * 1000] fits
    the register.  Otherwise it suspends.  Whenever it returns, the value is
    the time left to the deadline in whole microseconds, truncated toward
    zero: it is at most zero when the deadline has been reached, and also
    during the last microsecond before it; a negative value means the
    deadline has passed.  A wait that timed out returns a value that is at
    most zero, unless the interruption flag makes it throw. *)
Theorem wait_for_remaining (d : Z) (lag : N) (es : list ext) (w : world)
        (c : nat)
        (Hc : current w = Some c)
        (Hnow : 0 <= clock w)
        (Hdl : 0 <= deadline d w <= INT64_MAX) :
  (1 < notes_of w c <= INT64_MAX ->
   wait_for_suspends d w = false
   /\ exists r w', wait_for INTERRUPTED d lag es w = Ok r w'
                   /\ r = Z.quot (wrap64 (d * 1000) - Z.of_N lag) 1000
                   /\ (lag = 0%N -> INT64_MIN <= d * 1000 <= INT64_MAX ->
                       r = d)
                   /\ notes_of w' c = notes_of w c - 1)
  /\ (INT64_MIN < notes_of w c <= 1 -> critical_asserted w = false ->
      wait_for_suspends d w = true)
  /\ (forall r w', wait_for INTERRUPTED d lag es w = Ok r w' ->
      r = Z.quot (deadline d w - clock w') 1000
      /\ (deadline d w <= clock w' -> r <= 0)
      /\ (r < 0 -> deadline d w < clock w')
      /\ (r <= 0 <-> deadline d w - clock w' < 1000))
  /\ (wait_for_timed_out INTERRUPTED d es w = true ->
      (exists w', wait_for INTERRUPTED d lag es w = Throw interrupted w')
      \/ (exists r w', wait_for INTERRUPTED d lag es w = Ok r w' /\ r <= 0)).
Proof.
  destruct (expires_at_frame c (deadline d w) w) as [Hx [Hk [Hcur [Hn Hcr]]]].
  rewrite Hc in Hcur.
  pose proof (wait_enter_cases c _ Hcur) as Hcases. cbv zeta in Hcases.
  rewrite Hn, Hcr in Hcases.
  pose proof (wait_enter_frame c (expires_at c (deadline d w) w)) as Hf.
  split.
  { intros Hpend.
    assert (Hw : wrap64 (notes_of w c - 1) = notes_of w c - 1).
    { apply wrap64_small. unfold INT64_MIN, INT64_MAX in *. lia. }
    rewrite Hw in Hcases.
    destruct Hcases as [[_ H]|[[Hle _]|[Hle _]]]; try lia.
    split.
    - unfold wait_for_suspends. rewrite Hc, H. reflexivity.
    - assert (Hv : exists w',
                 wait_for INTERRUPTED d lag es w
                 = Ok (Z.quot (wrap64 (d * 1000) - Z.of_N lag) 1000) w'
                 /\ notes_of w' c = notes_of w c - 1).
      { unfold wait_for, wait. rewrite Hc, H. eexists. split.
        - f_equal. rewrite cast_to_us. f_equal.
          unfold expires_from_now. simpl. rewrite Nat.eqb_refl. simpl.
          unfold deadline. rewrite cast_to_ns. lia.
        - unfold notes_of. simpl. now rewrite Nat.eqb_refl. }
      destruct Hv as [w' [Hv Hnotes]].
      eexists. exists w'. split; [exact Hv|]. split; [reflexivity|].
      split; [|exact Hnotes].
      intros -> Hr. rewrite wrap64_small by exact Hr.
      rewrite Z.sub_0_r. apply Z.quot_mul. lia. }
  split.
  { intros Hlow Hcrit.
    assert (Hw : wrap64 (notes_of w c - 1) = notes_of w c - 1).
    { apply wrap64_small. unfold INT64_MIN, INT64_MAX in *. lia. }
    rewrite Hw in Hcases.
    destruct Hcases as [[Hpos _]|[[_ [_ H]]|[_ [Hcr' _]]]];
      [lia| |congruence].
    unfold wait_for_suspends. rewrite Hc, H. reflexivity. }
  split.
  { intros r w' H. pose proof (wait_for_value d lag es w w' r H) as Hv.
    destruct (quot_1000_sign (deadline d w - clock w'))
      as [H1 [H2 [H3 _]]].
    rewrite <- Hv in H1, H2, H3.
    split; [exact Hv|]. split; [lia|]. split; [lia|exact H3]. }
  intros Hto. unfold wait_for_timed_out in Hto. rewrite Hc in Hto.
  unfold wait_for, wait. rewrite Hc.
  destruct (wait_enter c (expires_at c (deadline d w) w)) as [b w1|w1|];
    try discriminate.
  unfold timed_out in Hto. apply andb_true_iff in Hto. destruct Hto as [_ Hexp].
  unfold alarm_fired. fold (expiry_of (run_ext INTERRUPTED es w1) c).
  rewrite Hexp, orb_true_r.
  destruct (wait_resume_cases c (run_ext INTERRUPTED es w1))
    as [w2 [[Hr|Hr] [_ [Hk2 [He2 _]]]]]; rewrite Hr.
  - right. eexists. eexists. split; [reflexivity|].
    rewrite cast_to_us.
    unfold expires_from_now. simpl. fold (expiry_of w2 c). rewrite He2, Hk2.
    apply Z.leb_le in Hexp.
    apply (proj1 (quot_1000_sign _)). lia.
  - left. eexists. reflexivity.
Qed.

End Facts.

End CtxFacts.

(** ** The scheduler on the concrete machine *)

Module CtxExamples.

Import Ctx CtxFacts.

(** A context asleep in [wait] is resumed by a notification and finds its
    counter at 1. *)
Example wait_notified_run :
  option_map (fun w => notes_of w 0)
             (world_of (wait INTERRUPTED_0x10 0 [ext_notify 0%nat]
                             (world_running 1)))
  = Some 1
  /\ returned (wait INTERRUPTED_0x10 0 [ext_notify 0%nat] (world_running 1))
     = Some true.
Proof. split; reflexivity. Qed.

(** Two notifications during one suspension: the first cancels the alarm,
    the resumption leaves the counter at 1. *)
Example wait_notified_twice_run :
  option_map (fun w => (notes_of w 0, cancels_of w 0))
             (world_of (wait INTERRUPTED_0x10 0
                             [ext_notify 0%nat; ext_notify 0%nat]
                             (world_running 1)))
  = Some (1, 1%nat).
Proof. reflexivity. Qed.

(** With neither a note nor an expiry the context stays suspended. *)
Example wait_blocked_run :
  match wait_for INTERRUPTED_0x10 10 0 [ext_elapse 5000] (world_running 1)
  with
  | Blocked _ => True
  | _ => False
  end.
Proof. exact I. Qed.

(** An interrupt during the suspension makes [wait] throw. *)
Example wait_interrupted_run :
  match wait INTERRUPTED_0x10 0 [ext_interrupt 0%nat] (world_running 1) with
  | Throw interrupted w => notes_of w 0 = 1
  | _ => False
  end.
Proof. reflexivity. Qed.

(** [yield] with three notes pending: two waits return at once, the third
    suspends and is woken by a stray note, the fourth ends the loop in the
    round that runs [restore]. *)
Example yield_run :
  option_map (fun w => notes_of w 0)
             (world_of (yield INTERRUPTED_0x10 5
                              [ [ext_notify 0%nat]; [ext_restore 0%nat] ]
                              (world_running 3)))
  = Some 1
  /\ returned (yield INTERRUPTED_0x10 5
                     [ [ext_notify 0%nat]; [ext_restore 0%nat] ]
                     (world_running 3))
     = Some tt.
Proof. split; reflexivity. Qed.

(** Before [restore] has run the loop does not end. *)
Example yield_waits_for_restore :
  match yield INTERRUPTED_0x10 5 [ [ext_notify 0%nat] ] (world_running 1) with
  | Blocked _ => True
  | _ => False
  end.
Proof. exact I. Qed.

(** A timed wait of 10us that is resumed after 15us. *)
Example wait_for_expired_run :
  returned (wait_for INTERRUPTED_0x10 10 0 [ext_elapse 15000]
                     (world_running 1))
  = Some (-5).
Proof. reflexivity. Qed.

(** A timed wait of 10us that is notified after 5us. *)
Example wait_for_notified_run :
  returned (wait_for INTERRUPTED_0x10 10 0
                     [ext_elapse 5000; ext_notify 0%nat] (world_running 1))
  = Some 5.
Proof. reflexivity. Qed.

(** A timed wait of 10us that is notified after 9.5us returns 0 with half a
    microsecond to go: the alarm has not run out. *)
Example wait_for_last_microsecond :
  returned (wait_for INTERRUPTED_0x10 10 0
                     [ext_elapse 9500; ext_notify 0%nat] (world_running 1))
  = Some 0
  /\ wait_for_timed_out INTERRUPTED_0x10 10
                        [ext_elapse 9500; ext_notify 0%nat] (world_running 1)
     = false.
Proof. split; reflexivity. Qed.

(** A duration whose count of nanoseconds does not fit the register. *)
Example wait_for_overflow :
  returned (wait_for INTERRUPTED_0x10 9223372036854776 0 []
                     (world_running 2))
  = Some (-9223372036854775).
Proof. reflexivity. Qed.

(** With a note pending and 80ns gone by the second reading of the clock, a
    wait of 10us returns 9. *)
Example wait_for_pending_lag :
  returned (wait_for INTERRUPTED_0x10 10 80 [] (world_running 2)) = Some 9.
Proof. reflexivity. Qed.

Lemma notify_wait_notes_witness :
  0 <= notes_of world_asleep 0 < INT64_MAX
  /\ notes_of (snd (notify 0 world_asleep)) 0 = notes_of world_asleep 0 + 1.
Proof.
  assert (H : 0 <= notes_of world_asleep 0 < INT64_MAX)
    by (vm_compute; split; [discriminate|reflexivity]).
  split; [exact H|].
  exact (proj1 (notify_wait_notes INTERRUPTED_0x10 world_asleep 0 H)).
Defined.

Lemma interrupt_interruption_point_witness :
  INTERRUPTED_0x10 <> 0
  /\ interruption INTERRUPTED_0x10
                  (interrupt INTERRUPTED_0x10 0 (world_running 1)) 0 = true.
Proof.
  assert (H : INTERRUPTED_0x10 <> 0) by (vm_compute; discriminate).
  split; [exact H|].
  exact (proj1 (interrupt_interruption_point INTERRUPTED_0x10
                  (world_running 1) 0 H)).
Defined.

Lemma wait_for_remaining_witness :
  current (world_running 1) = Some 0%nat
  /\ 0 <= clock (world_running 1)
  /\ 0 <= deadline 10 (world_running 1) <= INT64_MAX
  /\ (INT64_MIN < notes_of (world_running 1) 0 <= 1 ->
      critical_asserted (world_running 1) = false ->
      wait_for_suspends 10 (world_running 1) = true).
Proof.
  assert (H : current (world_running 1) = Some 0%nat) by reflexivity.
  assert (H1 : 0 <= clock (world_running 1)) by (vm_compute; discriminate).
  assert (H2 : 0 <= deadline 10 (world_running 1) <= INT64_MAX)
    by (vm_compute; split; discriminate).
  split; [exact H|]. split; [exact H1|]. split; [exact H2|].
  exact (proj1 (proj2 (wait_for_remaining INTERRUPTED_0x10 10 0
                         [ext_elapse 15000] (world_running 1) 0 H H1 H2))).
Defined.

(** C8 as worded fails with a note pending: [wait_for(0)] on a context with
    two notes does not suspend, and returns 0 although nothing timed out. *)
Lemma wait_for_pending_note :
  wait_for_suspends 0 (world_running 2) = false
  /\ returned (wait_for INTERRUPTED_0x10 0 0 [] (world_running 2)) = Some 0
  /\ wait_for_timed_out INTERRUPTED_0x10 0 [] (world_running 2) = false
  /\ ~ wait_for_claim INTERRUPTED_0x10 0 0 [] (world_running 2).
Proof.
  repeat split; try reflexivity.
  intros [H _]. vm_compute in H. discriminate.
Qed.

End CtxExamples.

(* ------------------------------------------------------------------------- *)
(** * Properties of the event model *)
(* ------------------------------------------------------------------------- *)

Module EventFacts.

Import Event.

Open Scope string_scope.

(** ** The report as a set of codes *)

Lemma code_value_range (c : code) : (0 <= code_value c < 24)%Z.
Proof. destruct c; simpl; lia. Qed.

Lemma code_eqb_eq (a b : code) : code_eqb a b = true <-> a = b.
Proof.
  unfold code_eqb. split.
  - destruct a, b; simpl; intros H; try reflexivity; discriminate.
  - intros ->. apply Z.eqb_refl.
Qed.

Lemma code_eqb_refl (a : code) : code_eqb a a = true.
Proof. now apply code_eqb_eq. Qed.

Lemma land_pow2 (r k : Z) :
  (0 <= k)%Z ->
  Z.land r (2 ^ k) = if Z.testbit r k then (2 ^ k)%Z else 0%Z.
Proof.
  intros Hk. apply Z.bits_inj'. intros n Hn.
  rewrite Z.land_spec, Z.pow2_bits_eqb by assumption.
  destruct (Z.eqb_spec k n) as [->|Hne].
  - destruct (Z.testbit r n); simpl.
    + now rewrite Z.pow2_bits_eqb, Z.eqb_refl.
    + now rewrite Z.bits_0.
  - rewrite andb_false_r. destruct (Z.testbit r k).
    + rewrite Z.pow2_bits_eqb by assumption. symmetry. now apply Z.eqb_neq.
    + now rewrite Z.bits_0.
Qed.

Lemma has_testbit (r : report) (c : code) :
  has r c = Z.testbit r (code_value c).
Proof.
  unfold has. pose proof (code_value_range c) as Hc.
  rewrite Z.shiftl_1_l, land_pow2 by lia.
  destruct (Z.testbit r (code_value c)); simpl.
  - apply negb_true_iff, Z.eqb_neq.
    pose proof (Z.pow_pos_nonneg 2 (code_value c)). lia.
  - reflexivity.
Qed.

Lemma has_zero (c : code) : has 0%Z c = false.
Proof. rewrite has_testbit. apply Z.bits_0. Qed.

Lemma has_set (r : report) (a b : code) :
  has (set r a) b = has r b || code_eqb a b.
Proof.
  rewrite !has_testbit. unfold set, code_eqb.
  pose proof (code_value_range a).
  rewrite Z.lor_spec, Z.shiftl_1_l, Z.pow2_bits_eqb by lia. reflexivity.
Qed.

Lemma has_set_if (x : bool) (r : report) (a b : code) :
  has (set_if x a r) b = has r b || (x && code_eqb a b).
Proof.
  unfold set_if. destruct x; simpl.
  - apply has_set.
  - now rewrite orb_false_r.
Qed.

Lemma has_not_clean (r : report) (c : code) :
  has r c = true -> clean r = false.
Proof.
  unfold clean. intros H. destruct (Z.eqb_spec r 0) as [->|]; [|reflexivity].
  now rewrite has_zero in H.
Qed.

(** ** The two loops *)

#[local] Arguments array_at : simpl never.

Section Loops.

Variable unquote : string -> string.

Lemma scan_dup_has (dup : code) (x : string) (i : nat) (refs : list array) :
  forall (j : nat) (r r' : report),
    scan_dup dup x i refs j r = Some r' ->
    forall c, has r' c = has r c || (code_eqb dup c && dup_at x i refs j).
Proof.
  induction refs as [|pe_ refs IH]; intros j r r' H c; simpl in *.
  - injection H as <-. now rewrite andb_false_r, orb_false_r.
  - destruct (Nat.eqb i j); simpl.
    + now apply IH.
    + destruct (array_at pe_ 0) as [y|]; [|discriminate].
      rewrite (IH _ _ _ H c), has_set_if.
      destruct (has r c), (String.eqb y x), (code_eqb dup c),
        (dup_at x i refs (S j)); reflexivity.
Qed.

Lemma scan_dup_total (dup : code) (x : string) (i : nat) (refs : list array) :
  entries_ok refs = true ->
  forall (j : nat) (r : report), exists r', scan_dup dup x i refs j r = Some r'.
Proof.
  induction refs as [|pe_ refs IH]; intros Hok j r; simpl in *.
  - eexists; reflexivity.
  - apply andb_true_iff in Hok. destruct Hok as [Hpe Hok].
    destruct (Nat.eqb i j); [now apply IH|].
    destruct pe_ as [|y pe_]; [discriminate|]. simpl. now apply IH.
Qed.

Lemma scan_refs_has (self dup : code) (eid : string) (refs : list array) :
  forall (rest : list array) (i : nat) (r r' : report),
    scan_refs unquote self dup eid refs rest i r = Some r' ->
    forall c,
      has r' c
      = has r c
        || (code_eqb self c && any_self unquote eid rest)
        || (code_eqb dup c && any_dup refs rest i).
Proof.
  induction rest as [|pe rest IH]; intros i r r' H c; simpl in *.
  - injection H as <-. now rewrite !andb_false_r, !orb_false_r.
  - destruct (array_at pe 0) as [x|]; [|discriminate].
    destruct (scan_dup dup x i refs 0 _) as [r2|] eqn:Ed; [|discriminate].
    rewrite (IH _ _ _ H c), (scan_dup_has _ _ _ _ _ _ _ Ed c), has_set_if.
    destruct (has r c), (String.eqb (unquote x) eid), (code_eqb self c),
      (code_eqb dup c), (dup_at x i refs 0), (any_self unquote eid rest),
      (any_dup refs rest (S i)); reflexivity.
Qed.

Lemma scan_refs_total (self dup : code) (eid : string) (refs : list array) :
  entries_ok refs = true ->
  forall (rest : list array) (i : nat) (r : report),
    entries_ok rest = true ->
    exists r', scan_refs unquote self dup eid refs rest i r = Some r'.
Proof.
  intros Hrefs. induction rest as [|pe rest IH]; intros i r Hok; simpl in *.
  - eexists; reflexivity.
  - apply andb_true_iff in Hok. destruct Hok as [Hpe Hok].
    destruct pe as [|x pe]; [discriminate|]. simpl.
    destruct (scan_dup_total dup x i refs Hrefs 0
                (set_if (String.eqb (unquote x) eid) self r)) as [r2 ->].
    now apply IH.
Qed.

(** A clean list leaves the report as it is. *)
Lemma scan_dup_noop (dup : code) (x : string) (i : nat) (refs : list array) :
  entries_ok refs = true ->
  forall (j : nat) (r : report),
    dup_at x i refs j = false -> scan_dup dup x i refs j r = Some r.
Proof.
  induction refs as [|pe_ refs IH]; intros Hok j r Hd; simpl in *.
  - reflexivity.
  - apply andb_true_iff in Hok. destruct Hok as [Hpe Hok].
    apply orb_false_iff in Hd. destruct Hd as [Hd1 Hd2].
    destruct (Nat.eqb i j); [now apply IH|].
    destruct pe_ as [|y pe_]; [discriminate|]. simpl in *.
    rewrite Hd1. simpl. now apply IH.
Qed.

Lemma scan_refs_noop (self dup : code) (eid : string) (refs : list array) :
  entries_ok refs = true ->
  forall (rest : list array) (i : nat) (r : report),
    entries_ok rest = true ->
    any_self unquote eid rest = false ->
    any_dup refs rest i = false ->
    scan_refs unquote self dup eid refs rest i r = Some r.
Proof.
  intros Hrefs. induction rest as [|pe rest IH]; intros i r Hok Hs Hd;
    simpl in *.
  - reflexivity.
  - apply andb_true_iff in Hok. destruct Hok as [Hpe Hok].
    apply orb_false_iff in Hs. destruct Hs as [Hs1 Hs2].
    apply orb_false_iff in Hd. destruct Hd as [Hd1 Hd2].
    destruct pe as [|x pe]; [discriminate|]. simpl in *.
    rewrite Hs1. simpl.
    rewrite (scan_dup_noop dup x i refs Hrefs 0 r Hd1). now apply IH.
Qed.

(** A repetition in the sense of positions is one the loops find. *)
Lemma dup_at_nth (x : string) (i : nat) (refs : list array) :
  forall (j k : nat) (a : array),
    nth_error refs k = Some a -> array_at a 0 = Some x -> (j + k)%nat <> i ->
    dup_at x i refs j = true.
Proof.
  induction refs as [|pe_ refs IH]; intros j k a Hn Ha Hne.
  - destruct k; discriminate.
  - simpl. destruct k as [|k]; simpl in Hn.
    + injection Hn as ->. rewrite Ha, String.eqb_refl.
      replace (Nat.eqb i j) with false
        by (symmetry; apply Nat.eqb_neq; lia).
      reflexivity.
    + rewrite (IH (S j) k a Hn Ha) by lia. apply orb_true_r.
Qed.

Lemma any_dup_nth (refs : list array) (x : string) :
  forall (rest : list array) (i k : nat) (a : array),
    nth_error rest k = Some a -> array_at a 0 = Some x ->
    dup_at x (i + k) refs 0 = true ->
    any_dup refs rest i = true.
Proof.
  induction rest as [|pe rest IH]; intros i k a Hn Ha Hd.
  - destruct k; discriminate.
  - simpl. destruct k as [|k]; simpl in Hn.
    + injection Hn as ->. rewrite Ha.
      replace (i + 0)%nat with i in Hd by lia. now rewrite Hd.
    + rewrite (IH (S i) k a Hn Ha); [apply orb_true_r|].
      now replace (S i + k)%nat with (i + S k)%nat by lia.
Qed.

Lemma repeated_any_dup (refs : list array) :
  repeated refs -> any_dup refs refs 0 = true.
Proof.
  intros [i [j [x [Hne [Hi Hj]]]]].
  destruct (nth_error refs i) as [a|] eqn:Ea; [|discriminate].
  destruct (nth_error refs j) as [b|] eqn:Eb; [|discriminate].
  simpl in Hi, Hj. injection Hi as Hi. injection Hj as Hj.
  apply (any_dup_nth refs x refs 0 i a Ea Hi).
  apply (dup_at_nth x (0 + i) refs 0 j b Eb Hj). simpl. lia.
Qed.

End Loops.

(** ** The conformance report *)

Ltac fields_has :=
  unfold conforms_fields; cbv zeta;
  rewrite ?has_set_if, ?has_zero;
  cbn [code_eqb code_value Z.eqb Pos.eqb];
  rewrite ?andb_false_r, ?orb_false_r, ?andb_true_r; simpl.

Section Report.

Variable valid : sigil -> string -> bool.
Variable id_host : string -> string.
Variable unquote : string -> string.

Abbreviation conforms := (conforms valid id_host unquote).
Abbreviation conforms_fields := (conforms_fields valid id_host unquote).

Lemma conforms_total (e : event) :
  entries_ok (prev_events e) = true -> entries_ok (prev_state e) = true ->
  exists r, conforms e = Some r.
Proof.
  intros Hp Hs. unfold Event.conforms.
  destruct (scan_refs_total unquote SELF_PREV_EVENT DUP_PREV_EVENT
              (event_id_ e) (prev_events e) Hp (prev_events e) 0
              (conforms_fields e) Hp) as [r ->].
  apply scan_refs_total; assumption.
Qed.

Lemma conforms_has (e : event) (r : report) :
  conforms e = Some r ->
  forall c,
    has r c
    = has (conforms_fields e) c
      || (code_eqb SELF_PREV_EVENT c
          && any_self unquote (event_id_ e) (prev_events e))
      || (code_eqb DUP_PREV_EVENT c
          && any_dup (prev_events e) (prev_events e) 0)
      || (code_eqb SELF_PREV_STATE c
          && any_self unquote (event_id_ e) (prev_state e))
      || (code_eqb DUP_PREV_STATE c
          && any_dup (prev_state e) (prev_state e) 0).
Proof.
  unfold Event.conforms.
  destruct (scan_refs unquote SELF_PREV_EVENT _ _ _ _ _ _) as [r1|] eqn:E1;
    [|discriminate].
  intros E2 c.
  rewrite (scan_refs_has _ _ _ _ _ _ _ _ _ E2 c),
          (scan_refs_has _ _ _ _ _ _ _ _ _ E1 c).
  now rewrite <- !orb_assoc.
Qed.

(** The report does not read [auth_events]. *)
Lemma conforms_auth_events (e : event) (l : list array) :
  conforms (with_auth_events e l) = conforms e.
Proof. reflexivity. Qed.

(** C3, as the code has it.  An event whose [prev_events] list repeats an
    event id has [DUP_PREV_EVENT] in its report, one whose [prev_state] list
    repeats an event id has [DUP_PREV_STATE], and either report is not clean;
    the report exists when every entry of the two lists has an element 0.
    The [auth_events] list is not examined: the report is the same whatever
    that list is. *)
Theorem dup_prev_rejected (e : event)
        (Hrep : repeated (prev_events e) \/ repeated (prev_state e)) :
  (forall r, conforms e = Some r ->
     clean r = false
     /\ (repeated (prev_events e) -> has r DUP_PREV_EVENT = true)
     /\ (repeated (prev_state e) -> has r DUP_PREV_STATE = true))
  /\ (entries_ok (prev_events e) = true -> entries_ok (prev_state e) = true ->
      exists r, conforms e = Some r)
  /\ (forall l, conforms (with_auth_events e l) = conforms e).
Proof.
  split; [|split; [apply conforms_total|apply conforms_auth_events]].
  intros r Hr.
  assert (Hpe : repeated (prev_events e) -> has r DUP_PREV_EVENT = true).
  { intros H. rewrite (conforms_has e r Hr).
    rewrite (repeated_any_dup _ H). simpl. now rewrite orb_true_r. }
  assert (Hps : repeated (prev_state e) -> has r DUP_PREV_STATE = true).
  { intros H. rewrite (conforms_has e r Hr).
    rewrite (repeated_any_dup _ H). simpl. now rewrite orb_true_r. }
  split; [|split; assumption].
  destruct Hrep as [H|H].
  - apply (has_not_clean r DUP_PREV_EVENT). auto.
  - apply (has_not_clean r DUP_PREV_STATE). auto.
Qed.

(** C5. For an event with a valid sender and a valid event id, the report
    has [MISMATCH_ORIGIN_SENDER] if and only if the origin differs from the
    host of the sender, and [MISMATCH_ORIGIN_EVENT_ID] if and only if the
    origin differs from the host of the event id; the report exists when
    every entry of the reference lists has an element 0. *)
Theorem mismatch_origin (e : event)
        (Hsender : valid USER (sender e) = true)
        (Hid : valid EVENT (event_id_ e) = true) :
  (forall r, conforms e = Some r ->
     (has r MISMATCH_ORIGIN_SENDER = true
      <-> origin e <> id_host (sender e))
     /\ (has r MISMATCH_ORIGIN_EVENT_ID = true
         <-> origin e <> id_host (event_id_ e)))
  /\ (entries_ok (prev_events e) = true -> entries_ok (prev_state e) = true ->
      exists r, conforms e = Some r).
Proof.
  split; [|apply conforms_total].
  intros r Hr. split.
  - rewrite (conforms_has e r Hr). simpl. rewrite !orb_false_r.
    fields_has. rewrite Hsender. simpl.
    rewrite negb_true_iff. apply String.eqb_neq.
  - rewrite (conforms_has e r Hr). simpl. rewrite !orb_false_r.
    fields_has. rewrite Hid. simpl.
    rewrite negb_true_iff. apply String.eqb_neq.
Qed.

Lemma signatures_get_nonempty (s : list (string * object)) (k : string) :
  empty_list (signatures_get s k) = false -> empty_list s = false.
Proof. destruct s; [discriminate|reflexivity]. Qed.

(** C4. An event of depth -1 without a type, its other members well
    formed, has exactly [MISSING_TYPE] and [DEPTH_NEGATIVE] in its report.
    The report is a function of the event alone: [conforms] takes no
    database and reads none. *)
Theorem conforms_untyped_negative_depth (e : event)
        (Htype : type e = EmptyString)
        (Hdepth : depth e = (-1)%Z)
        (Hrest : rest_well_formed valid id_host unquote e = true) :
  conforms e = Some (set (set 0%Z MISSING_TYPE) DEPTH_NEGATIVE)
  /\ (forall r, conforms e = Some r ->
      forall c, has r c = true <-> c = MISSING_TYPE \/ c = DEPTH_NEGATIVE).
Proof.
  unfold rest_well_formed, refs_clean in Hrest.
  repeat rewrite andb_true_iff in Hrest.
  destruct Hrest as [[[[[[[[[[[Hev Hroom] Hsend] Horig] Hsigo] Hhs] Hhe]
                        Hred] Hprev] Hkey] [[Hok1 Hs1] Hd1]] [[Hok2 Hs2] Hd2]].
  apply negb_true_iff in Hd1, Hd2, Hs1, Hs2, Horig, Hsigo, Hprev.
  assert (Hf : conforms_fields e = set (set 0%Z MISSING_TYPE) DEPTH_NEGATIVE).
  { unfold Event.conforms_fields.
    pose proof (signatures_get_nonempty _ _ Hsigo) as Hsig.
    rewrite Htype, Hdepth, Hev, Hroom, Hsend, Horig, Hsigo, Hsig, Hhs, Hhe,
            Hprev.
    simpl. unfold has. simpl.
    assert (Hr' : negb (empty_str (redacts e))
                  && String.eqb (redacts e) (event_id_ e) = false).
    { destruct (empty_str (redacts e)); [reflexivity|].
      simpl in *. now apply negb_true_iff in Hred. }
    assert (Hk' : negb (empty_str (state_key e))
                  && empty_list (prev_state e) = false).
    { destruct (empty_str (state_key e)); [reflexivity|].
      simpl in *. now apply negb_true_iff in Hkey. }
    rewrite Hr', Hk'. reflexivity. }
  assert (Hc : conforms e = Some (set (set 0%Z MISSING_TYPE) DEPTH_NEGATIVE)).
  { unfold Event.conforms.
    rewrite (scan_refs_noop unquote _ _ _ _ Hok1 _ 0 _ Hok1 Hs1 Hd1).
    rewrite (scan_refs_noop unquote _ _ _ _ Hok2 _ 0 _ Hok2 Hs2 Hd2).
    now rewrite Hf. }
  split; [exact Hc|].
  intros r Hr. rewrite Hc in Hr. injection Hr as <-.
  intros c. split.
  - destruct c; vm_compute; intros Hh; try discriminate; auto.
  - intros [-> | ->]; reflexivity.
Qed.

End Report.

(** ** The event identifier *)

Lemma append_last_inj (s1 s2 : string) (c1 c2 : ascii) :
  s1 ++ String c1 EmptyString = s2 ++ String c2 EmptyString -> c1 = c2.
Proof.
  revert s2. induction s1 as [|a s1 IH]; intros [|b s2] H; simpl in H.
  - now injection H.
  - injection H as _ H. destruct s2; discriminate.
  - injection H as _ H. destruct s1; discriminate.
  - injection H as _ H. now apply IH in H.
Qed.

Lemma append_assoc' (a b c : string) : (a ++ b) ++ c = a ++ (b ++ c).
Proof. induction a as [|x a IH]; simpl; [reflexivity|now rewrite IH]. Qed.

Lemma id_event_host_differs (l1 l2 : string) (c1 c2 : ascii) :
  c1 <> c2 ->
  id_event l1 (String c1 EmptyString)
  <> "$" ++ l2 ++ ":" ++ String c2 EmptyString.
Proof.
  intros Hne H. unfold id_event in H. simpl in H. injection H as H.
  change (l1 ++ String ":" (String c1 EmptyString))
    with (l1 ++ (":" ++ String c1 EmptyString)) in H.
  change (l2 ++ String ":" (String c2 EmptyString))
    with (l2 ++ (":" ++ String c2 EmptyString)) in H.
  rewrite <- !append_assoc' in H.
  apply append_last_inj in H. contradiction.
Qed.

Lemma length_append' (a b : string) :
  String.length (a ++ b) = (String.length a + String.length b)%nat.
Proof. induction a as [|x a IH]; simpl; [reflexivity|now rewrite IH]. Qed.

Lemma append_cancel_r (a b s : string) : a ++ s = b ++ s -> a = b.
Proof.
  revert b. induction a as [|x a IH]; intros [|y b] H; simpl in H.
  - reflexivity.
  - apply (f_equal String.length) in H. simpl in H.
    rewrite length_append' in H. lia.
  - apply (f_equal String.length) in H. simpl in H.
    rewrite length_append' in H. lia.
  - injection H as -> H. now rewrite (IH b H).
Qed.

(** The hash is taken over the event as passed: with serialisation and
    hashes free of collisions, an event that its redaction changes gets an
    identifier other than the one of the data model, even on its own
    server. *)
Lemma event_id_unredacted
      (stringify : event -> string) (sha256 b58encode : string -> string)
      (my_host : string) (redact : event -> event) (e : event) :
  (forall x y, stringify x = stringify y -> x = y) ->
  (forall x y, sha256 x = sha256 y -> x = y) ->
  (forall x y, b58encode x = b58encode y -> x = y) ->
  origin e = my_host -> redact e <> e ->
  event_id stringify sha256 b58encode my_host e
  <> event_id_spec sha256 b58encode stringify redact e.
Proof.
  intros Hstr Hsha Hb58 Ho Hred H.
  unfold event_id, event_id_hash, id_event, hash, event_id_spec in H.
  rewrite Ho in H. simpl in H. injection H as H.
  apply append_cancel_r in H.
  apply Hb58, Hsha, Hstr in H. congruence.
Qed.

(** C1, as the code has it.  The identifier minted by [event_id(e, buf)] is
    the sigil, the base 58 text of the sha256 of the serialisation of the
    event as it was passed, a colon and the host name of this server.  No
    redaction is applied and the origin of the event is not read; the
    identifier is the one of the data model when the origin of the event is
    this server and the event serialises as its canonical redaction does. *)
Theorem event_id_minted :
  forall (stringify : event -> string) (sha256 b58encode : string -> string)
         (my_host : string) (e : event),
    event_id stringify sha256 b58encode my_host e
    = "$" ++ b58encode (sha256 (stringify e)) ++ ":" ++ my_host
    /\ (forall canonical redact,
           origin e = my_host ->
           canonical (redact e) = stringify e ->
           event_id stringify sha256 b58encode my_host e
           = event_id_spec sha256 b58encode canonical redact e).
Proof.
  intros stringify sha256 b58encode my_host e. split; [reflexivity|].
  intros canonical redact Ho Hc.
  unfold event_id, event_id_hash, id_event, hash, event_id_spec.
  now rewrite Ho, Hc.
Qed.

(** C1 as worded fails: on server [x], the identifier minted for an event of
    origin [y] ends in [x], the one of the data model in [y]. *)
Lemma event_id_foreign_origin : event_id_differs "x" ev_foreign.
Proof.
  intros stringify sha256 b58encode canonical redact.
  unfold event_id, event_id_hash, id_event, hash, event_id_spec.
  simpl origin. apply id_event_host_differs. discriminate.
Qed.

(** ** The size check *)

(** C9. [check_size(e)] throws [BAD_JSON] exactly when the serialised size of
    [e] exceeds the value of the configuration item [m.event.max_size], whose
    default is 65507; the [nothrow] overload returns true exactly when the
    size is within that value.  Both take the event by constant reference:
    they are functions of the event and give no event back. *)
Theorem check_size_limit :
  forall (serialized : event -> N) (cfg : conf) (e : event),
    ((exists x, check_size serialized cfg e = Some x)
     <-> (conf_value event_max_size cfg < serialized e)%N)
    /\ (forall x, check_size serialized cfg e = Some x ->
        x = BAD_JSON (serialized e) (conf_value event_max_size cfg))
    /\ (check_size_nothrow serialized cfg e = true
        <-> (serialized e <= conf_value event_max_size cfg)%N)
    /\ conf_name event_max_size = "m.event.max_size"
    /\ conf_default event_max_size = 65507%N
    /\ conf_value event_max_size [] = 65507%N.
Proof.
  intros serialized cfg e. unfold check_size, check_size_nothrow.
  split; [|split; [|split; [|repeat split]]].
  - destruct (N.ltb_spec (conf_value event_max_size cfg) (serialized e)).
    + split; [auto|intros _; eexists; reflexivity].
    + split; [intros [x Hx]; discriminate|lia].
  - intros x. destruct (_ <? _)%N; [|discriminate]. now intros [= <-].
  - apply N.leb_le.
Qed.

(** ** Signing *)

Lemma members_at_reduce (contents : iov) (keys : list string) :
  has_keys contents keys ->
  members_at contents keys = Some (reduce contents keys).
Proof.
  unfold has_keys. induction keys as [|k keys IH]; intros H; simpl.
  - reflexivity.
  - destruct (iov_at contents k) as [x|] eqn:E.
    + rewrite IH by (intros k' Hk'; apply H; now right). reflexivity.
    + exfalso. apply (H k); [now left|exact E].
Qed.

Lemma reduce_in (contents : iov) (keys : list string) (k : string)
      (x : value) :
  In (k, x) (reduce contents keys)
  <-> In k keys /\ iov_at contents k = Some x.
Proof.
  unfold reduce. rewrite in_flat_map. split.
  - intros [k' [Hk' Hin]]. destruct (iov_at contents k') as [y|] eqn:E.
    + destruct Hin as [[= <- <-]|[]]. now split.
    + destruct Hin.
  - intros [Hk Hx]. exists k. split; [assumption|]. rewrite Hx. now left.
Qed.

Ltac sign_branch Hkeys :=
  let Hm := fresh "Hm" in
  pose proof (members_at_reduce _ _ Hkeys) as Hm;
  unfold sign_keeping, redacted_content;
  vm_compute allowlist in Hm; vm_compute allowlist;
  now rewrite Hm.

Section Signing.

Variable stringify_iov : iov -> string.
Variable ed25519_sign : string -> string.
Variable b64encode_unpadded : string -> string.
Variable stringify_members : list (string * value) -> string.
Variable my_host : string.
Variable public_key_id : string.

(** C2. For an event of type [ty] whose content has the keys allowed for
    [ty], the signature is [ed25519_sign] of the serialisation of the event
    with its content reduced to those keys: membership for m.room.member,
    creator for m.room.create, the eight power tables for
    m.room.power_levels, join_rule for m.room.join_rules, history_visibility
    for m.room.history_visibility, aliases for m.room.aliases, and the empty
    object for any other type.  [signatures] records it, in unpadded base
    64, under the key id under the name of this server. *)
Theorem sign_redacted_content (ev contents : iov) (ty : string)
        (Htype : iov_at ev "type" = Some (jtext ty))
        (Hkeys : has_keys contents (allowlist ty)) :
  let sig := ed25519_sign
               (stringify_iov
                  (push ev ("content", redacted_content ty contents))) in
  sign stringify_iov ed25519_sign ev contents = Some sig
  /\ signatures stringify_iov ed25519_sign b64encode_unpadded
                stringify_members my_host public_key_id ev contents
     = Some (stringify_members
               [ (my_host,
                  jmembers [ (public_key_id,
                              jtext (b64encode_unpadded sig)) ]) ])
  /\ (forall k x, In (k, x) (reduce contents (allowlist ty))
                  <-> In k (allowlist ty) /\ iov_at contents k = Some x)
  /\ allowlist "m.room.member" = ["membership"]
  /\ allowlist "m.room.create" = ["creator"]
  /\ allowlist "m.room.power_levels"
     = [ "ban"; "events"; "events_default"; "kick"; "redact"
       ; "state_default"; "users"; "users_default" ]
  /\ allowlist "m.room.join_rules" = ["join_rule"]
  /\ allowlist "m.room.history_visibility" = ["history_visibility"]
  /\ allowlist "m.room.aliases" = ["aliases"]
  /\ (allowlist ty = [] -> redacted_content ty contents = jtext "{}").
Proof.
  intros sig.
  assert (Hsign : sign stringify_iov ed25519_sign ev contents = Some sig).
  { unfold sign. rewrite Htype. unfold type_is, sig.
    destruct (String.eqb_spec ty "m.room.aliases") as [->|N1].
    { sign_branch Hkeys. }
    destruct (String.eqb_spec ty "m.room.create") as [->|N2].
    { sign_branch Hkeys. }
    destruct (String.eqb_spec ty "m.room.history_visibility") as [->|N3].
    { sign_branch Hkeys. }
    destruct (String.eqb_spec ty "m.room.join_rules") as [->|N4].
    { sign_branch Hkeys. }
    destruct (String.eqb_spec ty "m.room.member") as [->|N5].
    { sign_branch Hkeys. }
    destruct (String.eqb_spec ty "m.room.power_levels") as [->|N6].
    { sign_branch Hkeys. }
    unfold sign_event, redacted_content, allowlist.
    apply String.eqb_neq in N1, N2, N3, N4, N5, N6.
    now rewrite N1, N2, N3, N4, N5, N6. }
  split; [exact Hsign|].
  split; [unfold signatures; now rewrite Hsign|].
  split; [intros k x; apply reduce_in|].
  repeat (split; [reflexivity|]).
  intros H. unfold redacted_content. now rewrite H.
Qed.

End Signing.

End EventFacts.

(** ** The event model on the sample events *)

Module EventExamples.

Import Event EventFacts.

Open Scope string_scope.

Abbreviation conforms_std := (conforms valid_std host_std unquote_std).

(** The sample message event conforms. *)
Example conforms_message : conforms_std ev_message = Some 0%Z.
Proof. reflexivity. Qed.

(** A repeated predecessor is reported. *)
Example conforms_dup_prev :
  conforms_std ev_dup_prev = Some (set 0%Z DUP_PREV_EVENT).
Proof. reflexivity. Qed.

(** An entry without an element 0 makes the constructor throw. *)
Example conforms_empty_entry :
  conforms_std (with_prev_events ev_message [[]]) = None.
Proof. reflexivity. Qed.

(** An origin that is neither the host of the sender nor of the event id. *)
Example conforms_foreign :
  conforms_std ev_foreign
  = Some (set (set (set 0%Z MISSING_ORIGIN_SIGNATURE) MISMATCH_ORIGIN_SENDER)
              MISMATCH_ORIGIN_EVENT_ID).
Proof. reflexivity. Qed.

(** C3 as worded fails for [auth_events]: the sample event that names the
    same authorisation event twice has a clean report. *)
Lemma dup_auth_clean :
  repeated (auth_events ev_dup_auth)
  /\ option_map clean (conforms_std ev_dup_auth) = Some true.
Proof.
  split; [|reflexivity].
  exists 0%nat, 1%nat, (quote "$c:h"). repeat split. discriminate.
Qed.

Lemma dup_prev_rejected_witness :
  (repeated (prev_events ev_dup_prev) \/ repeated (prev_state ev_dup_prev))
  /\ (forall r, conforms_std ev_dup_prev = Some r ->
      clean r = false
      /\ (repeated (prev_events ev_dup_prev) -> has r DUP_PREV_EVENT = true)
      /\ (repeated (prev_state ev_dup_prev) -> has r DUP_PREV_STATE = true)).
Proof.
  assert (H : repeated (prev_events ev_dup_prev)
              \/ repeated (prev_state ev_dup_prev)).
  { left. exists 0%nat, 1%nat, (quote "$p:h").
    split; [discriminate|split; reflexivity]. }
  split; [exact H|].
  exact (proj1 (dup_prev_rejected valid_std host_std unquote_std
                  ev_dup_prev H)).
Defined.

Lemma mismatch_origin_witness :
  valid_std USER (sender ev_foreign) = true
  /\ valid_std EVENT (event_id_ ev_foreign) = true
  /\ (forall r, conforms_std ev_foreign = Some r ->
      (has r MISMATCH_ORIGIN_SENDER = true
       <-> origin ev_foreign <> host_std (sender ev_foreign))
      /\ (has r MISMATCH_ORIGIN_EVENT_ID = true
          <-> origin ev_foreign <> host_std (event_id_ ev_foreign))).
Proof.
  assert (H1 : valid_std USER (sender ev_foreign) = true) by reflexivity.
  assert (H2 : valid_std EVENT (event_id_ ev_foreign) = true) by reflexivity.
  split; [exact H1|]. split; [exact H2|].
  exact (proj1 (mismatch_origin valid_std host_std unquote_std
                  ev_foreign H1 H2)).
Defined.

Lemma conforms_untyped_negative_depth_witness :
  type ev_untyped = EmptyString
  /\ depth ev_untyped = (-1)%Z
  /\ rest_well_formed valid_std host_std unquote_std ev_untyped = true
  /\ conforms_std ev_untyped
     = Some (set (set 0%Z MISSING_TYPE) DEPTH_NEGATIVE).
Proof.
  assert (H1 : type ev_untyped = EmptyString) by reflexivity.
  assert (H2 : depth ev_untyped = (-1)%Z) by reflexivity.
  assert (H3 : rest_well_formed valid_std host_std unquote_std ev_untyped
               = true) by reflexivity.
  split; [exact H1|]. split; [exact H2|]. split; [exact H3|].
  exact (proj1 (conforms_untyped_negative_depth valid_std host_std
                  unquote_std ev_untyped H1 H2 H3)).
Defined.

(** The serialisation in this example lists the keys of the iov. *)
Lemma sign_redacted_content_witness :
  iov_at iov_member "type" = Some (jtext "m.room.member")
  /\ has_keys content_member (allowlist "m.room.member")
  /\ sign (fun v => String.concat "," (map fst v)) (fun s => s)
          iov_member content_member
     = Some (String.concat ","
               (map fst (push iov_member
                              ("content",
                               redacted_content "m.room.member"
                                                content_member)))).
Proof.
  assert (H1 : iov_at iov_member "type" = Some (jtext "m.room.member"))
    by reflexivity.
  assert (H2 : has_keys content_member (allowlist "m.room.member")).
  { intros k [<-|[]]. simpl. discriminate. }
  split; [exact H1|]. split; [exact H2|].
  exact (proj1 (sign_redacted_content
                  (fun v => String.concat "," (map fst v)) (fun s => s)
                  (fun s => s) (fun _ => EmptyString) "h" "ed25519:a"
                  iov_member content_member "m.room.member" H1 H2)).
Defined.

(** The content signed for the sample member event keeps the membership and
    drops the display name. *)
Example redacted_member :
  redacted_content "m.room.member" content_member
  = jmembers [("membership", jtext "join")].
Proof. reflexivity. Qed.

End EventExamples.

(* ------------------------------------------------------------------------- *)
(** * Properties of the this_ctx overloads, of profiling and of the pools *)
(* ------------------------------------------------------------------------- *)

Module CtxMoreFacts.

Import Ctx CtxFacts CtxMore.

Section Overloads.

Variable INTERRUPTED : Z.

(** ** The timed waits *)

Lemma wait_until_true (tp : Z) (es : list ext) (w w' : world) :
  wait_until INTERRUPTED tp es w = Ok true w' -> tp <= clock w'.
Proof.
  unfold wait_until. destruct (current w) as [c|]; [|discriminate].
  destruct (wait INTERRUPTED c es (expires_at c tp w))
    as [b w1|e w1| |w1]; try discriminate.
  intros H. injection H as H <-. now apply Z.leb_le.
Qed.

(** The two timed waits run the same [wait] on the same alarm; [wait_for]
    then reads the clock [lag] later. *)
Lemma wait_for_as_wait_until (d : Z) (lag : N) (es : list ext) (w : world) :
  wait_for INTERRUPTED d lag es w
  = match wait_until INTERRUPTED (deadline d w) es w with
    | Ok _ w1 =>
        Ok (Z.quot (deadline d w - (clock w1 + Z.of_N lag)) 1000)
           (set_clock w1 (clock w1 + Z.of_N lag))
    | Throw e w1 => Throw e w1
    | Abort => Abort
    | Blocked w1 => Blocked w1
    end.
Proof.
  unfold wait_for, wait_until.
  destruct (current w) as [c|]; [|reflexivity].
  destruct (expires_at_frame c (deadline d w) w) as [Hx _].
  destruct (wait INTERRUPTED c es (expires_at c (deadline d w) w))
    as [b w1|e w1| |w1] eqn:Ew; try reflexivity.
  apply wait_ok_frame in Ew. destruct Ew as [He _].
  f_equal. rewrite cast_to_us. unfold expires_from_now. simpl.
  fold (expiry_of w1 c). now rewrite He, Hx.
Qed.

(** X1.  On the same run of the others, [wait_until(now + d)] and
    [wait_for(d)] throw, fail and stay suspended together, and return in
    the same state but for the clock, which [wait_for] reads later; the
    clock and the deadline are time points of the steady clock, from the
    epoch on.  Where [wait_until] gives true, the deadline has been
    reached and [wait_for] gives a value that is at most zero; a positive
    value goes with false.  Read at the same instant, a negative value goes
    with true, and the two part in the last microsecond before the deadline
    only: there [wait_for] gives 0 and [wait_until] false. *)
Theorem wait_until_agrees_wait_for (d : Z) (lag : N) (es : list ext)
        (w : world)
        (Hnow : 0 <= clock w)
        (Hdl : 0 <= deadline d w <= INT64_MAX) :
  wait_for INTERRUPTED d lag es w
  = match wait_until INTERRUPTED (deadline d w) es w with
    | Ok _ w1 =>
        Ok (Z.quot (deadline d w - (clock w1 + Z.of_N lag)) 1000)
           (set_clock w1 (clock w1 + Z.of_N lag))
    | Throw e w1 => Throw e w1
    | Abort => Abort
    | Blocked w1 => Blocked w1
    end
  /\ (forall b w1 r w',
      wait_until INTERRUPTED (deadline d w) es w = Ok b w1 ->
      wait_for INTERRUPTED d lag es w = Ok r w' ->
      (b = true <-> deadline d w <= clock w1)
      /\ (b = true -> r <= 0)
      /\ (0 < r -> b = false)
      /\ (lag = 0%N ->
          (r < 0 -> b = true)
          /\ (r = 0 /\ b = false <-> 0 < deadline d w - clock w1 < 1000))).
Proof.
  split; [apply wait_for_as_wait_until|].
  intros b w1 r w' Hu Hf. rewrite wait_for_as_wait_until, Hu in Hf.
  injection Hf as Hr _.
  assert (Hb : b = (deadline d w <=? clock w1)).
  { unfold wait_until in Hu. destruct (current w) as [c|]; [|discriminate].
    destruct (wait INTERRUPTED c es (expires_at c (deadline d w) w));
      try discriminate.
    now injection Hu as <- <-. }
  destruct (quot_1000_sign (deadline d w - (clock w1 + Z.of_N lag)))
    as [H1 [H2 [H3 H4]]].
  rewrite Hr in H1, H2, H3, H4.
  destruct (Z.leb_spec (deadline d w) (clock w1)) as [Hle|Hgt]; subst b.
  - split; [split; [intros _; exact Hle|reflexivity]|].
    split; [intros _; lia|]. split; [lia|].
    intros ->. split; [reflexivity|].
    split; [intros [_ Hf]; discriminate|lia].
  - split; [split; [discriminate|lia]|].
    split; [discriminate|]. split; [reflexivity|].
    intros ->. rewrite Z.add_0_r in *.
    split; [lia|].
    split; [intros [Hr0 _]; lia|].
    intros Hlast. split; [|reflexivity].
    assert (r <= 0) by (apply H3; lia). lia.
Qed.

Lemma wait_for_pending (d : Z) (lag : N) (es : list ext) (w : world)
      (c : nat) :
  current w = Some c -> 1 < notes_of w c <= INT64_MAX ->
  wait_for_suspends d w = false
  /\ exists w', wait_for INTERRUPTED d lag es w
                = Ok (Z.quot (wrap64 (d * 1000) - Z.of_N lag) 1000) w'.
Proof.
  intros Hc Hpend.
  destruct (expires_at_frame c (deadline d w) w) as [Hx [Hk [Hcur [Hn Hcr]]]].
  rewrite Hc in Hcur.
  pose proof (wait_enter_cases c _ Hcur) as Hcases. cbv zeta in Hcases.
  rewrite Hn, Hcr in Hcases.
  assert (Hw : wrap64 (notes_of w c - 1) = notes_of w c - 1).
  { apply wrap64_small. unfold INT64_MIN, INT64_MAX in *. lia. }
  rewrite Hw in Hcases.
  destruct Hcases as [[_ H]|[[Hle _]|[Hle _]]]; try lia.
  split.
  - unfold wait_for_suspends. rewrite Hc, H. reflexivity.
  - unfold wait_for, wait. rewrite Hc, H. eexists. f_equal.
    rewrite cast_to_us. f_equal.
    unfold expires_from_now. simpl. rewrite Nat.eqb_refl. simpl.
    unfold deadline. rewrite cast_to_ns. lia.
Qed.

(** ** The templates of this_ctx.h *)

(** Microseconds per tick of a period that is not finer than they are. *)
Lemma period_us (u : period) :
  1000 <= period_ns u ->
  1 <= period_ns u / 1000 /\ period_ns u = 1000 * (period_ns u / 1000).
Proof.
  destruct u; intros H;
    [exfalso; vm_compute in H; now apply H|..];
    (split; [vm_compute; discriminate|reflexivity]).
Qed.

Lemma cast_from_us (u : period) (x : Z) :
  1000 <= period_ns u ->
  duration_cast microseconds u x = Z.quot x (period_ns u / 1000).
Proof.
  destruct u; intros H;
    [exfalso; vm_compute in H; now apply H|..]; try reflexivity.
  change (x = Z.quot x 1). symmetry. apply Z.quot_1_r.
Qed.

Lemma cast_into_us (u : period) (d : Z) :
  1000 <= period_ns u -> INT64_MIN <= d * period_ns u -> d <= 0 ->
  duration_cast u microseconds d = d * (period_ns u / 1000)
  /\ wrap64 (d * (period_ns u / 1000) * 1000) = d * period_ns u.
Proof.
  intros Hu Hd Hneg. destruct (period_us u Hu) as [Hk Hp].
  assert (Hr : INT64_MIN <= d * (period_ns u / 1000) <= INT64_MAX).
  { unfold INT64_MIN, INT64_MAX in *. nia. }
  split.
  - destruct u;
      [exfalso; vm_compute in Hu; now apply Hu
      |change (d = d * 1); lia
      |exact (wrap64_small _ Hr)..].
  - rewrite wrap64_small; [lia|].
    unfold INT64_MIN, INT64_MAX in *. nia.
Qed.

(** Truncation twice: to whole microseconds, then to whole ticks. *)
Lemma quot_quot_sign (x k : Z) :
  1 <= k ->
  (0 < Z.quot (Z.quot x 1000) k ->
   1000 * k * Z.quot (Z.quot x 1000) k <= x)
  /\ (Z.quot (Z.quot x 1000) k <= 0 -> x < 1000 * k)
  /\ (x <= 0 -> Z.quot (Z.quot x 1000) k <= 0).
Proof.
  intros Hk.
  pose proof (Z.quot_rem' x 1000) as Hq.
  pose proof (Z.quot_rem' (Z.quot x 1000) k) as Hq2.
  destruct (Z.le_gt_cases 0 x) as [Hx|Hx].
  - pose proof (Z.rem_bound_pos x 1000 Hx ltac:(lia)) as Hr.
    assert (Hy : 0 <= Z.quot x 1000) by (apply Z.quot_pos; lia).
    pose proof (Z.rem_bound_pos (Z.quot x 1000) k Hy ltac:(lia)) as Hr2.
    assert (Hz : 0 <= Z.quot (Z.quot x 1000) k) by (apply Z.quot_pos; lia).
    split; [nia|]. split; [nia|]. nia.
  - pose proof (Z.rem_bound_pos_neg x 1000 ltac:(lia) ltac:(lia)) as Hr.
    assert (Hy : Z.quot x 1000 <= 0) by lia.
    pose proof (Z.rem_bound_pos_neg (Z.quot x 1000) k ltac:(lia) Hy) as Hr2.
    assert (Hz : Z.quot (Z.quot x 1000) k <= 0) by nia.
    split; [lia|]. split; [nia|]. intros _. exact Hz.
Qed.

(** X2.  The throwing overload of [wait], for a caller's duration that is
    not finer than microseconds ([microseconds], [milliseconds], [seconds],
    [minutes] or [hours]); the clock and the deadline are time points of the
    steady clock, from the epoch on.  [wait<timeout>(d)] returns only
    a positive count [r] of the caller's ticks, with at least [r] whole
    ticks left to the deadline.  It throws [timeout] whenever less than one
    whole tick is left, so also before the deadline; it does on every run on
    which [wait_until<timeout>] of the same deadline throws.  With a note
    pending and [d <= 0] the timeout is thrown without any suspension. *)
Theorem wait_throw_overloads (u : period) (d : Z) (lag : N) (es : list ext)
        (w : world)
        (Hunit : 1000 <= period_ns u)
        (Hnow : 0 <= clock w)
        (Hdl : 0 <= deadline (duration_cast u microseconds d) w <= INT64_MAX) :
  let tp := deadline (duration_cast u microseconds d) w in
  (forall r w', wait_for_throw INTERRUPTED u d lag es w = Done r w' ->
     0 < r /\ clock w' + r * period_ns u <= tp)
  /\ (forall w',
      wait_for_throw INTERRUPTED u d lag es w = Raised ex_timeout w' ->
      tp - clock w' < period_ns u)
  /\ (forall r w', wait_for_nothrow INTERRUPTED u d lag es w = Ok r w' ->
      tp - clock w' < period_ns u ->
      wait_for_throw INTERRUPTED u d lag es w = Raised ex_timeout w')
  /\ (forall w', wait_until_throw INTERRUPTED tp es w = Raised ex_timeout w' ->
      wait_for_throw INTERRUPTED u d lag es w
      = Raised ex_timeout (set_clock w' (clock w' + Z.of_N lag)))
  /\ (forall c, current w = Some c -> 1 < notes_of w c <= INT64_MAX ->
      d <= 0 -> INT64_MIN <= d * period_ns u ->
      wait_for_suspends (duration_cast u microseconds d) w = false
      /\ exists w', wait_for_throw INTERRUPTED u d lag es w
                    = Raised ex_timeout w').
Proof.
  intros tp. destruct (period_us u Hunit) as [Hk Hp].
  unfold wait_for_throw, wait_until_throw, wait_for_nothrow, lift.
  unfold tp.
  split; [|split; [|split; [|split]]].
  - intros r w'.
    destruct (wait_for INTERRUPTED (duration_cast u microseconds d) lag es w)
      as [r1 w1|[] w1| |w1] eqn:Ef; try discriminate.
    apply wait_for_value in Ef.
    rewrite (cast_from_us u r1 Hunit).
    destruct (Z.leb_spec (Z.quot r1 (period_ns u / 1000)) 0) as [Hle|Hgt];
      [discriminate|].
    intros H. injection H as <- <-. split; [assumption|].
    rewrite Ef in Hgt |- *.
    destruct (quot_quot_sign
                (deadline (duration_cast u microseconds d) w - clock w1)
                (period_ns u / 1000) Hk) as [H1 _].
    specialize (H1 Hgt). nia.
  - intros w'.
    destruct (wait_for INTERRUPTED (duration_cast u microseconds d) lag es w)
      as [r1 w1|[] w1| |w1] eqn:Ef; try discriminate.
    apply wait_for_value in Ef.
    rewrite (cast_from_us u r1 Hunit).
    destruct (Z.leb_spec (Z.quot r1 (period_ns u / 1000)) 0) as [Hle|Hgt];
      [|discriminate].
    intros H. injection H as <-. rewrite Ef in Hle.
    destruct (quot_quot_sign
                (deadline (duration_cast u microseconds d) w - clock w1)
                (period_ns u / 1000) Hk) as [_ [H2 _]].
    specialize (H2 Hle). lia.
  - intros r w'.
    destruct (wait_for INTERRUPTED (duration_cast u microseconds d) lag es w)
      as [r1 w1|[] w1| |w1] eqn:Ef; try discriminate.
    apply wait_for_value in Ef.
    rewrite (cast_from_us u r1 Hunit).
    intros H. injection H as <- <-. intros Hlt.
    destruct (quot_quot_sign
                (deadline (duration_cast u microseconds d) w - clock w1)
                (period_ns u / 1000) Hk) as [H1 _].
    rewrite <- Ef in H1.
    destruct (Z.leb_spec (Z.quot r1 (period_ns u / 1000)) 0) as [Hq|Hq];
      [reflexivity|].
    specialize (H1 Hq). nia.
  - intros w'. rewrite wait_for_as_wait_until.
    destruct (wait_until INTERRUPTED
                (deadline (duration_cast u microseconds d) w) es w)
      as [b w1|[] w1| |w1] eqn:Eu; try discriminate.
    destruct b; [|discriminate].
    intros H. injection H as <-.
    apply wait_until_true in Eu.
    rewrite (cast_from_us u _ Hunit).
    destruct (quot_quot_sign
                (deadline (duration_cast u microseconds d) w
                 - (clock w1 + Z.of_N lag))
                (period_ns u / 1000) Hk) as [_ [_ H3]].
    destruct (Z.leb_spec
                (Z.quot (Z.quot (deadline (duration_cast u microseconds d) w
                                 - (clock w1 + Z.of_N lag)) 1000)
                        (period_ns u / 1000)) 0) as [Hq|Hq];
      [reflexivity|lia].
  - intros c Hc Hpend Hd Hmin.
    destruct (wait_for_pending (duration_cast u microseconds d) lag es w c
                Hc Hpend) as [Hs [w' Hw]].
    split; [exact Hs|]. exists w'. rewrite Hw.
    destruct (cast_into_us u d Hunit Hmin Hd) as [Hc1 Hc2].
    rewrite (cast_from_us u _ Hunit), Hc1, Hc2.
    set (k := period_ns u / 1000) in *.
    destruct (quot_quot_sign (d * period_ns u - Z.of_N lag) k Hk)
      as [_ [_ H3]].
    destruct (Z.leb_spec
                (Z.quot (Z.quot (d * period_ns u - Z.of_N lag) 1000) k) 0)
      as [Hq|Hq]; [reflexivity|nia].
Qed.

(** ** sleep_until *)


(** ** Interruption and the waits *)

Lemma interruption_note (t u : nat) (w : world) :
  interruption INTERRUPTED (snd (note t w)) u = interruption INTERRUPTED w u.
Proof.
  unfold interruption. destruct (Nat.eq_dec u t) as [->|Hne].
  - unfold note, ctx_note.
    destruct (0 <? notes (ctxs w t)); simpl; now rewrite Nat.eqb_refl.
  - now rewrite note_other.
Qed.

Lemma interruption_interrupt_same (t : nat) (w : world) :
  INTERRUPTED <> 0 ->
  interruption INTERRUPTED (interrupt INTERRUPTED t w) t = true.
Proof.
  intros Hmask. unfold interruption, interrupt, wake. simpl.
  rewrite !Nat.eqb_refl. simpl. rewrite land_lor_same.
  apply negb_true_iff. now apply Z.eqb_neq.
Qed.

Lemma interruption_interrupt_other (t u : nat) (w : world) :
  u <> t ->
  interruption INTERRUPTED (interrupt INTERRUPTED t w) u
  = interruption INTERRUPTED w u.
Proof. intros H. unfold interruption. now rewrite interrupt_other. Qed.

Lemma interruption_mask (w : world) (t : nat) :
  interruption INTERRUPTED w t = true -> INTERRUPTED <> 0.
Proof.
  unfold interruption. intros H ->. now rewrite Z.land_0_r in H.
Qed.

Lemma run_ext1_interruption (e : ext) (w : world) (t : nat) :
  interruption INTERRUPTED w t = true ->
  interruption INTERRUPTED (run_ext1 INTERRUPTED e w) t = true.
Proof.
  intros H. pose proof (interruption_mask w t H) as Hmask.
  destruct e as [u|u|us|u]; simpl.
  - unfold notify. now rewrite interruption_note.
  - destruct (Nat.eq_dec t u) as [->|Hne].
    + now apply interruption_interrupt_same.
    + now rewrite interruption_interrupt_other.
  - exact H.
  - unfold notify. now rewrite interruption_note.
Qed.

Lemma run_ext_interruption (es : list ext) (w : world) (t : nat) :
  interruption INTERRUPTED w t = true ->
  interruption INTERRUPTED (run_ext INTERRUPTED es w) t = true.
Proof.
  revert w. induction es as [|e es IH]; intros w H; [exact H|].
  rewrite run_ext_cons. apply IH. now apply run_ext1_interruption.
Qed.

Lemma run_ext_interrupted (es : list ext) (w : world) (t : nat) :
  INTERRUPTED <> 0 -> In (ext_interrupt t) es ->
  interruption INTERRUPTED (run_ext INTERRUPTED es w) t = true
  /\ (cancels_of w t < cancels_of (run_ext INTERRUPTED es w) t)%nat.
Proof.
  intros Hmask. revert w.
  induction es as [|e es IH]; intros w Hin; [destruct Hin|].
  rewrite run_ext_cons. destruct Hin as [->|Hin].
  - split.
    + apply run_ext_interruption. simpl.
      now apply interruption_interrupt_same.
    + pose proof (run_ext_cancels_mono INTERRUPTED es
                    (run_ext1 INTERRUPTED (ext_interrupt t) w) t) as Hm.
      change (run_ext1 INTERRUPTED (ext_interrupt t) w)
        with (interrupt INTERRUPTED t w) in *.
      rewrite interrupt_cancels in Hm. lia.
  - destruct (IH (run_ext1 INTERRUPTED e w) Hin) as [Hf Hlt].
    split; [exact Hf|].
    pose proof (run_ext1_cancels_mono INTERRUPTED e w t). lia.
Qed.

Lemma wait_resume_flagged (t : nat) (w : world) :
  interruption INTERRUPTED w t = true ->
  exists w2, wait_resume INTERRUPTED t w = Throw interrupted w2
             /\ interruption INTERRUPTED w2 t = false
             /\ notes_of w2 t = 1.
Proof.
  intros Hf. unfold wait_resume.
  destruct (continuation_dtor_notes t w) as [Hn Hc].
  apply is_current_iff in Hc. rewrite Hc.
  unfold notes_of in Hn. rewrite Hn. simpl andb.
  assert (Hi : interruption INTERRUPTED (continuation_dtor t w) t = true).
  { rewrite <- Hf. unfold interruption, continuation_dtor. simpl.
    now rewrite Nat.eqb_refl. }
  destruct (interruption_point_cases INTERRUPTED t (continuation_dtor t w))
    as [[Hf' _]|[_ ->]]; [congruence|].
  eexists. split; [reflexivity|]. split.
  - unfold interruption. simpl. rewrite Nat.eqb_refl. simpl.
    now rewrite land_lnot_same.
  - unfold notes_of, continuation_dtor. simpl. now rewrite !Nat.eqb_refl.
Qed.

(** X4. An interrupt that arrives while a context is suspended in [wait]
    resumes it, and [wait] then throws [interrupted]: the flag is cleared and
    the note counter is 1, whatever else arrived during the suspension. *)
Theorem wait_interrupted (t : nat) (es : list ext) (w w1 : world)
        (Hmask : INTERRUPTED <> 0)
        (Hyield : wait_enter t w = Yielded w1)
        (Hin : In (ext_interrupt t) es) :
  exists w2, wait INTERRUPTED t es w = Throw interrupted w2
             /\ interruption INTERRUPTED w2 t = false
             /\ notes_of w2 t = 1.
Proof.
  unfold wait. rewrite Hyield.
  destruct (run_ext_interrupted es w1 t Hmask Hin) as [Hf Hlt].
  unfold alarm_fired. fold (cancels_of w1 t).
  fold (cancels_of (run_ext INTERRUPTED es w1) t).
  apply Nat.ltb_lt in Hlt. rewrite Hlt. simpl orb. cbv iota.
  now apply wait_resume_flagged.
Qed.

(** X5. [wait] looks at the interruption flag only when it is resumed.  With
    the flag already set, a [wait] that finds a note pending returns false
    and leaves the flag set; one that finds none suspends all the same, and
    never returns normally: it stays suspended or throws. *)
Theorem wait_flag_pending (t : nat) (es : list ext) (w : world)
        (Hc : current w = Some t)
        (Hflag : interruption INTERRUPTED w t = true) :
  (1 < notes_of w t <= INT64_MAX ->
   exists w', wait INTERRUPTED t es w = Ok false w'
              /\ interruption INTERRUPTED w' t = true)
  /\ (INT64_MIN < notes_of w t <= 1 -> critical_asserted w = false ->
      suspends (wait_enter t w) = true
      /\ forall b w', wait INTERRUPTED t es w <> Ok b w').
Proof.
  pose proof (wait_enter_cases t w Hc) as Hcases. cbv zeta in Hcases.
  split.
  - intros Hn.
    assert (Hw : wrap64 (notes_of w t - 1) = notes_of w t - 1).
    { apply wrap64_small. unfold INT64_MIN, INT64_MAX in *. lia. }
    rewrite Hw in Hcases.
    destruct Hcases as [[_ H]|[[Hle _]|[Hle _]]]; try lia.
    unfold wait. rewrite H. eexists. split; [reflexivity|].
    rewrite <- Hflag. unfold interruption. simpl. now rewrite Nat.eqb_refl.
  - intros Hn Hcr.
    assert (Hw : wrap64 (notes_of w t - 1) = notes_of w t - 1).
    { apply wrap64_small. unfold INT64_MIN, INT64_MAX in *. lia. }
    rewrite Hw in Hcases.
    destruct Hcases as [[Hpos _]|[[_ [_ H]]|[_ [Hcr' _]]]];
      [lia| |congruence].
    split; [now rewrite H|].
    intros b w'. unfold wait. rewrite H.
    set (w1 := set_current
                 (upd w t (set_notes (ctxs w t) (notes_of w t - 1))) None).
    assert (Hf1 : interruption INTERRUPTED w1 t = true).
    { rewrite <- Hflag. unfold interruption, w1. simpl.
      now rewrite Nat.eqb_refl. }
    destruct (alarm_fired t w1 (run_ext INTERRUPTED es w1)); [|discriminate].
    destruct (wait_resume_flagged t (run_ext INTERRUPTED es w1)
                (run_ext_interruption es w1 t Hf1)) as [w2 [-> _]].
    discriminate.
Qed.

Lemma interrupts_S (n t : nat) (w : world) :
  interrupts INTERRUPTED (S n) t w
  = interrupt INTERRUPTED t (interrupts INTERRUPTED n t w).
Proof. reflexivity. Qed.

Lemma interrupts_cancels (n t : nat) (w : world) :
  cancels_of (interrupts INTERRUPTED n t w) t = (cancels_of w t + n)%nat.
Proof.
  induction n as [|n IH]; [simpl; lia|].
  rewrite interrupts_S, interrupt_cancels, IH. lia.
Qed.

(** X6. The interruption flag is one bit: after any number of interrupts,
    one or more, each of which posts a wake, the next interruption point
    throws once and the one after it returns with no effect. *)
Theorem interrupts_coalesce (n t : nat) (w : world)
        (Hmask : INTERRUPTED <> 0) (Hn : (1 <= n)%nat) :
  cancels_of (interrupts INTERRUPTED n t w) t = (cancels_of w t + n)%nat
  /\ exists w1,
       interruption_point INTERRUPTED t (interrupts INTERRUPTED n t w)
       = Throw interrupted w1
       /\ interruption_point INTERRUPTED t w1 = Ok tt w1.
Proof.
  split; [apply interrupts_cancels|].
  destruct n as [|n]; [lia|]. rewrite interrupts_S.
  set (w0 := interrupts INTERRUPTED n t w).
  pose proof (interruption_interrupt_same t w0 Hmask) as Hf.
  destruct (interruption_point_cases INTERRUPTED t
              (interrupt INTERRUPTED t w0)) as [[Hf' _]|[_ He]];
    [congruence|].
  eexists. split; [exact He|].
  match goal with
  | |- interruption_point _ _ ?w1 = _ =>
      destruct (interruption_point_cases INTERRUPTED t w1)
        as [[_ He1]|[Hf1 _]]; [exact He1|]
  end.
  unfold interruption in Hf1. simpl in Hf1. rewrite Nat.eqb_refl in Hf1.
  simpl in Hf1. now rewrite land_lnot_same in Hf1.
Qed.

(** ** A wait without a deadline *)

Lemma run_ext_untargeted (es : list ext) (w : world) (c : nat) :
  forallb (fun e => negb (targets c e)) es = true ->
  ctxs (run_ext INTERRUPTED es w) c = ctxs w c.
Proof.
  revert w. induction es as [|e es IH]; intros w H; [reflexivity|].
  simpl in H. apply andb_true_iff in H. destruct H as [He Hes].
  rewrite run_ext_cons, (IH _ Hes).
  apply negb_true_iff in He.
  destruct e as [u|u|us|u]; simpl in *.
  - apply Nat.eqb_neq in He. unfold notify. apply note_other. congruence.
  - apply Nat.eqb_neq in He. apply interrupt_other. congruence.
  - reflexivity.
  - apply Nat.eqb_neq in He. unfold notify. apply note_other. congruence.
Qed.

Lemma run_ext_elapsed (es : list ext) (w : world) :
  clock (run_ext INTERRUPTED es w) = clock w + elapsed es.
Proof.
  revert w. induction es as [|e es IH]; intros w; [simpl; lia|].
  rewrite run_ext_cons, IH.
  destruct e as [u|u|us|u]; simpl.
  - unfold notify. now rewrite note_clock.
  - reflexivity.
  - lia.
  - unfold notify. now rewrite note_clock.
Qed.

(** X7. [this_ctx::wait()] has no deadline: a context that suspends in it
    stays suspended as long as nobody notifies or interrupts it, however
    much time passes short of [time_point::max()]. *)
Theorem this_wait_only_wake (es : list ext) (w : world) (c : nat)
        (Hc : current w = Some c)
        (Hsusp : suspends (this_wait_enter c w) = true)
        (Hes : forallb (fun e => negb (targets c e)) es = true)
        (Hclock : clock w + elapsed es < TIME_MAX) :
  exists w', this_wait INTERRUPTED es w = Blocked w'.
Proof.
  unfold this_wait, wait. rewrite Hc.
  unfold this_wait_enter in Hsusp.
  pose proof (wait_enter_frame c (expires_at c TIME_MAX w)) as Hf.
  destruct (wait_enter c (expires_at c TIME_MAX w)) as [b w1|w1|];
    try discriminate.
  destruct Hf as [He [Hk _]].
  destruct (expires_at_frame c TIME_MAX w) as [Hx [Hk0 _]].
  unfold alarm_fired.
  rewrite (run_ext_untargeted es w1 c Hes), Nat.ltb_irrefl.
  fold (expiry_of w1 c). rewrite He, Hx, run_ext_elapsed, Hk, Hk0.
  destruct (Z.leb_spec TIME_MAX (clock w + elapsed es)); [lia|].
  simpl. eexists; reflexivity.
Qed.

(** ** yield *)

Lemma yield_loop_restored (fuel : nat) (me : nat) :
  forall (rounds : list (list ext)) (w w' : world),
    yield_loop INTERRUPTED fuel me rounds false w = Ok tt w' ->
    exists es, In es rounds /\ existsb (is_restore me) es = true.
Proof.
  induction fuel as [|fuel IH]; intros rounds w w'; simpl.
  - discriminate.
  - destruct (this_wait_enter me w) as [b w1|w1|]; [apply IH| |discriminate].
    destruct rounds as [|es rest]; [discriminate|].
    destruct (alarm_fired me w1 (run_ext INTERRUPTED es w1));
      [|discriminate].
    destruct (wait_resume INTERRUPTED me (run_ext INTERRUPTED es w1))
      as [b w3|e w3| |w3]; try discriminate.
    destruct (existsb (is_restore me) es) eqn:Er; simpl.
    + intros _. exists es. split; [now left|exact Er].
    + intros H. destruct (IH rest w3 w' H) as [es' [Hin Hr]].
      exists es'. split; [now right|exact Hr].
Qed.

(** X8. [this_ctx::yield()] returns only after the closure it posted has
    run: notes that wake the context before that are ignored, the loop goes
    back to wait. *)
Theorem yield_needs_restore (fuel : nat) (rounds : list (list ext))
        (w w' : world) (me : nat)
        (Hc : current w = Some me)
        (Hret : yield INTERRUPTED fuel rounds w = Ok tt w') :
  exists es, In es rounds /\ existsb (is_restore me) es = true.
Proof.
  unfold yield in Hret. rewrite Hc in Hret.
  now apply yield_loop_restored in Hret.
Qed.

(** ** sleep_until returns *)









End Overloads.

(** ** Time slices *)

(** X9. [check_slice] always adds the time used to [awake].  It throws
    [interrupted] exactly from [slice_interrupt] on, when that is set and the
    assertion has not failed; it warns exactly from [slice_warning] on; the
    assertion can fail only inside the warning: with [slice_warning] off,
    [slice_assertion] is inert.  With the settings of the source it never
    throws and never fails, and warns from 50ms on. *)
Theorem check_slice_thresholds (s : settings) (start now awake : Z) :
  let u := now - start in
  let r := check_slice s start now awake in
  awake_after r = awake + u
  /\ (warned r = true <-> 0 < slice_warning s <= u)
  /\ (ended r = slice_assert_failed
      <-> 0 < slice_warning s <= u
          /\ slice_assertion s <> 0 /\ slice_assertion s <= u)
  /\ (ended r = slice_interrupted
      <-> ended r <> slice_assert_failed /\ 0 < slice_interrupt s <= u)
  /\ (slice_warning s <= 0 -> ended r <> slice_assert_failed)
  /\ ended (check_slice default_settings start now awake) = slice_ok
  /\ (warned (check_slice default_settings start now awake) = true
      <-> 50000 <= u).
Proof.
  intros u r. subst r. unfold check_slice. fold u.
  split.
  { destruct (_ && negb _); [reflexivity|]. now destruct (_ && _). }
  split.
  { destruct (Z.ltb_spec 0 (slice_warning s)),
             (Z.leb_spec (slice_warning s) u),
             (Z.eqb_spec (slice_assertion s) 0),
             (Z.ltb_spec u (slice_assertion s)),
             (Z.ltb_spec 0 (slice_interrupt s)),
             (Z.leb_spec (slice_interrupt s) u);
      simpl; split; intros; try lia; try discriminate; reflexivity. }
  split.
  { destruct (Z.ltb_spec 0 (slice_warning s)),
             (Z.leb_spec (slice_warning s) u),
             (Z.eqb_spec (slice_assertion s) 0),
             (Z.ltb_spec u (slice_assertion s)),
             (Z.ltb_spec 0 (slice_interrupt s)),
             (Z.leb_spec (slice_interrupt s) u);
      simpl; split; intros; try lia; try discriminate; reflexivity. }
  split.
  { destruct (Z.ltb_spec 0 (slice_warning s)),
             (Z.leb_spec (slice_warning s) u),
             (Z.eqb_spec (slice_assertion s) 0),
             (Z.ltb_spec u (slice_assertion s)),
             (Z.ltb_spec 0 (slice_interrupt s)),
             (Z.leb_spec (slice_interrupt s) u);
      simpl; split; intros Hyp; try discriminate;
      try (split; [discriminate|lia]); try reflexivity;
      destruct Hyp as [Hne Hint]; try lia; try (now contradiction Hne). }
  split.
  { intros Hw. destruct (Z.ltb_spec 0 (slice_warning s)); [lia|].
    simpl. destruct (_ && _); discriminate. }
  split.
  { simpl. destruct (50000 <=? u); reflexivity. }
  simpl. destruct (Z.leb_spec 50000 u); simpl; split; intros;
    try lia; try discriminate; reflexivity.
Qed.

(** ** The contexts of a pool *)

Section PoolContexts.

Variable context : Type.
Variable worker : context.

Lemma del_target_small (size num : Z) :
  0 <= size < 2 ^ 63 -> 0 <= num < 2 ^ 63 ->
  del_target size num = Z.max (size - num) 0.
Proof.
  intros Hs Hn. unfold del_target, wrap64.
  rewrite Z.add_mod_idemp_l by lia.
  rewrite Z.mod_small by lia. f_equal. lia.
Qed.

Lemma pop_back_while_firstn (fuel : nat) (target : Z) :
  forall ctxs : list context,
    (List.length ctxs <= fuel)%nat -> 0 <= target ->
    pop_back_while context fuel target ctxs = firstn (Z.to_nat target) ctxs.
Proof.
  induction fuel as [|fuel IH]; intros ctxs Hlen Ht; simpl.
  - destruct ctxs; [now rewrite firstn_nil|simpl in Hlen; lia].
  - destruct (Z.ltb_spec target (Z.of_nat (List.length ctxs))) as [Hlt|Hge].
    + rewrite IH; [|rewrite removelast_firstn_len, length_firstn; lia|lia].
      rewrite removelast_firstn_len, firstn_firstn. f_equal. lia.
    + symmetry. apply firstn_all2. lia.
Qed.

Lemma add_repeat (num : nat) :
  forall ctxs : list context,
    add context worker num ctxs = ctxs ++ repeat worker num.
Proof.
  induction num as [|num IH]; intros ctxs; simpl.
  - now rewrite app_nil_r.
  - rewrite IH, <- app_assoc. reflexivity.
Qed.

(** X10. With [size()] the number of contexts, [del(num)] keeps the first
    [size - num] contexts and destroys the others from the back; a [num]
    larger than the size empties the pool, the unsigned difference being
    read as a signed one.  [join()] leaves no context, and [del(n)] after
    [add(n)] gives back the contexts there were. *)
Theorem pool_del_add_join (ctxs : list context) (num : Z)
        (Hsize : Z.of_nat (List.length ctxs) < 2 ^ 63)
        (Hnum : 0 <= num < 2 ^ 63) :
  let size := Z.of_nat (List.length ctxs) in
  del context size num ctxs
  = firstn (List.length ctxs - Z.to_nat num) ctxs
  /\ List.length (del context size num ctxs)
     = (List.length ctxs - Z.to_nat num)%nat
  /\ join context size ctxs = []
  /\ (forall n : nat,
        Z.of_nat (List.length ctxs + n) < 2 ^ 63 ->
        List.length (add context worker n ctxs) = (List.length ctxs + n)%nat
        /\ del context (Z.of_nat (List.length ctxs + n)) (Z.of_nat n)
               (add context worker n ctxs)
           = ctxs).
Proof.
  intros size. subst size.
  assert (Hdel : forall (l : list context) (k : Z),
             Z.of_nat (List.length l) < 2 ^ 63 -> 0 <= k < 2 ^ 63 ->
             del context (Z.of_nat (List.length l)) k l
             = firstn (List.length l - Z.to_nat k) l).
  { intros l k Hl Hk. unfold del.
    rewrite del_target_small by lia.
    rewrite pop_back_while_firstn by lia. f_equal. lia. }
  split; [now apply Hdel|].
  split; [rewrite Hdel by assumption; rewrite length_firstn; lia|].
  split.
  { unfold join. rewrite Hdel by lia.
    replace (List.length ctxs - Z.to_nat (Z.of_nat (List.length ctxs)))%nat
      with 0%nat by lia. reflexivity. }
  intros n Hn.
  assert (Hlen : List.length (add context worker n ctxs)
                 = (List.length ctxs + n)%nat).
  { now rewrite add_repeat, length_app, repeat_length. }
  split; [exact Hlen|].
  rewrite <- Hlen, Hdel by (rewrite ?Hlen; lia).
  rewrite Hlen, add_repeat.
  replace (List.length ctxs + n - Z.to_nat (Z.of_nat n))%nat
    with (List.length ctxs + 0)%nat by lia.
  rewrite firstn_app_2. simpl. now rewrite app_nil_r.
Qed.

End PoolContexts.

(** ** The queue of a pool *)

Lemma main_loop_runs (q : list closure) :
  forall (fuel : nat) (av : Z) (done : list (nat * Z)),
    (List.length q < fuel)%nat ->
    main_loop fuel (mk_pool q av done)
    = (if existsb interrupting q then main_exited else main_waiting,
       mk_pool (snd (split_at_interrupt q)) av
               (done ++ map (fun c => (fst c, av - 1))
                            (fst (split_at_interrupt q)))).
Proof.
  induction q as [|[id e] q IH]; intros fuel av done Hlen;
    (destruct fuel as [|fuel]; [simpl in Hlen; lia|]).
  - simpl. now rewrite app_nil_r.
  - simpl in Hlen.
    assert (Hav : av - 1 + 1 = av) by lia.
    destruct e; simpl; rewrite Hav.
    + rewrite IH by lia.
      destruct (split_at_interrupt q) as [a b]. simpl.
      now rewrite <- app_assoc.
    + reflexivity.
    + rewrite IH by lia.
      destruct (split_at_interrupt q) as [a b]. simpl.
      now rewrite <- app_assoc.
Qed.

Lemma split_at_interrupt_app (q : list closure) :
  q = fst (split_at_interrupt q) ++ snd (split_at_interrupt q).
Proof.
  induction q as [|[id e] q IH]; [reflexivity|].
  simpl. destruct e; try reflexivity;
    destruct (split_at_interrupt q) as [a b]; simpl in *; now rewrite <- IH.
Qed.

Lemma split_at_interrupt_none (q : list closure) :
  existsb interrupting q = false -> snd (split_at_interrupt q) = [].
Proof.
  induction q as [|[id e] q IH]; [reflexivity|].
  simpl. destruct e; simpl; try discriminate;
    intros H; destruct (split_at_interrupt q) as [a b]; simpl in *; auto.
Qed.

Lemma submit_all (fs : list closure) :
  forall p : pool,
    fold_left (fun p f => submit f p) fs p
    = mk_pool (queue p ++ fs) (available p) (ran p).
Proof.
  induction fs as [|f fs IH]; intros [q av done]; simpl.
  - now rewrite app_nil_r.
  - rewrite IH. simpl. now rewrite <- app_assoc.
Qed.

Lemma split_at_interrupt_all (q : list closure) :
  existsb interrupting q = false -> fst (split_at_interrupt q) = q.
Proof.
  intros H. pose proof (split_at_interrupt_app q) as Ha.
  rewrite (split_at_interrupt_none q H), app_nil_r in Ha. now symmetry.
Qed.

(** X11. A worker of a pool runs the closures in the order they were
    submitted with [operator()], behind those queued before, each with
    [available] one below its value while the worker is idle.  A closure
    that throws a [std::exception] does not stop it; the first one that
    throws [interrupted] does, the closures behind it stay queued, and
    [available] is left as the worker found it.  With no such closure the
    worker runs all of them, in the order of submission, and waits, counted
    as available. *)
Theorem pool_main_fifo (p : pool) (fs : list closure) (fuel : nat)
        (Hfuel : (List.length (queue p) + List.length fs < fuel)%nat) :
  let submitted := fold_left (fun p f => submit f p) fs p in
  let done := fst (split_at_interrupt (queue p ++ fs)) in
  let rest := snd (split_at_interrupt (queue p ++ fs)) in
  queue submitted = queue p ++ fs
  /\ queue p ++ fs = done ++ rest
  /\ main fuel submitted
     = (if existsb interrupting (queue p ++ fs)
        then main_exited else main_waiting,
        mk_pool rest
                (if existsb interrupting (queue p ++ fs)
                 then available p else available p + 1)
                (ran p ++ map (fun c => (fst c, available p)) done))
  /\ (existsb interrupting (queue p ++ fs) = false ->
      rest = [] /\ done = queue p ++ fs).
Proof.
  intros submitted done rest. subst submitted done rest.
  rewrite submit_all.
  split; [reflexivity|].
  split; [apply split_at_interrupt_app|].
  split.
  - unfold main. simpl.
    rewrite main_loop_runs by (rewrite length_app; lia).
    replace (available p + 1 - 1) with (available p) by lia.
    destruct (existsb interrupting (queue p ++ fs)); simpl; [|reflexivity].
    now replace (available p + 1 - 1) with (available p) by lia.
  - intros H. split;
      [now apply split_at_interrupt_none|now apply split_at_interrupt_all].
Qed.

(** ** The offload queue *)

Lemma ole_worker_runs (q : list nat) :
  forall (fuel : nat) (intr : bool) (done : list nat),
    (List.length q < fuel)%nat ->
    ole_worker fuel (mk_ole q intr) done
    = (if intr then worker_returned else worker_waiting,
       mk_ole [] intr, done ++ q).
Proof.
  induction q as [|f q IH]; intros fuel intr done Hlen;
    (destruct fuel as [|fuel]; [simpl in Hlen; lia|]).
  - simpl. rewrite app_nil_r. now destruct intr.
  - simpl in *. rewrite IH by lia. now rewrite <- app_assoc.
Qed.

Lemma push_all (fs : list nat) :
  forall o : ole,
    fold_left (fun o f => push f o) fs o
    = mk_ole (ole_queue o ++ fs) (ole_interruption o).
Proof.
  induction fs as [|f fs IH]; intros [q i]; simpl.
  - now rewrite app_nil_r.
  - rewrite IH. simpl. now rewrite <- app_assoc.
Qed.

(** X12. The offload worker takes the closures in the order they were
    pushed, and [interruption] does not make it drop any: [pop] throws only
    on an empty queue, so the worker runs all that was queued and then
    returns if interrupted, waits if not. *)
Theorem ole_worker_drains (o : ole) (fs : list nat) (fuel : nat)
        (Hfuel : (List.length (ole_queue o) + List.length fs < fuel)%nat) :
  ole_worker fuel (fold_left (fun o f => push f o) fs o) []
  = (if ole_interruption o then worker_returned else worker_waiting,
     mk_ole [] (ole_interruption o), ole_queue o ++ fs)
  /\ (forall f q, ole_queue o = f :: q ->
      pop o = pop_closure f (mk_ole q (ole_interruption o)))
  /\ (pop o = pop_interrupted
      <-> ole_queue o = [] /\ ole_interruption o = true).
Proof.
  split.
  { rewrite push_all, ole_worker_runs by (rewrite length_app; lia).
    reflexivity. }
  split.
  { intros f q H. unfold pop. now rewrite H. }
  unfold pop. destruct (ole_queue o) as [|f q].
  - destruct (ole_interruption o); split; try discriminate; auto.
    intros [_ H]; discriminate.
  - split; [discriminate|]. intros [H _]; discriminate.
Qed.

End CtxMoreFacts.

(* ------------------------------------------------------------------------- *)
(** * Properties of the report's accessors, names and text *)
(* ------------------------------------------------------------------------- *)

Module EventMoreFacts.

Import Event EventFacts EventMore.

Open Scope string_scope.

#[local] Arguments array_at : simpl never.

(** ** Bits *)

Lemma has_ldiff (r skip : Z) (c : code) :
  has (Z.ldiff r skip) c = has r c && negb (Z.testbit skip (code_value c)).
Proof. rewrite !has_testbit. apply Z.ldiff_spec. Qed.

Lemma has_del (r : report) (a b : code) :
  has (del r a) b = has r b && negb (code_eqb a b).
Proof.
  unfold del. rewrite has_ldiff. f_equal. f_equal.
  pose proof (code_value_range a).
  rewrite Z.shiftl_1_l, Z.pow2_bits_eqb by lia. reflexivity.
Qed.

(** X13. [del(code)] takes exactly that code out of a report and [set(code)]
    puts exactly that code in: the other codes read as before, a code that
    was set and deleted is absent, and deleting the only code of a report
    leaves it clean. *)
Theorem set_del_codes (r : report) (a : code) :
  (forall b, has (del r a) b = has r b && negb (code_eqb a b))
  /\ (forall b, has (set r a) b = has r b || code_eqb a b)
  /\ has (del (set r a) a) a = false
  /\ has (set (del r a) a) a = true
  /\ clean (del (set 0%Z a) a) = true.
Proof.
  split; [apply has_del|].
  split; [apply has_set|].
  split; [now rewrite has_del, code_eqb_refl, andb_false_r|].
  split; [now rewrite has_set, code_eqb_refl, orb_true_r|].
  destruct a; reflexivity.
Qed.

(** X14. The [uint] overload of [has] compares the masked bit with the
    number of the code, not with zero: for a number below 64, the width of
    the shift, it never reports a code that is set.  It is true only for
    number 0, and then exactly when that code is not set. *)
Theorem has_uint_never_set (r : report) (c : Z) (Hc : (0 <= c < 64)%Z) :
  (has_uint r c = true <-> c = 0%Z /\ Z.testbit r 0 = false)
  /\ (Z.testbit r c = true -> has_uint r c = false)
  /\ (forall k : code,
        has_uint r (code_value k) = true ->
        k = INVALID_OR_MISSING_EVENT_ID /\ has r k = false).
Proof.
  assert (Hmain : has_uint r c = true <-> c = 0%Z /\ Z.testbit r 0 = false).
  { unfold has_uint. rewrite Z.shiftl_1_l, land_pow2 by lia.
    pose proof (Z.pow_gt_lin_r 2 c ltac:(lia) ltac:(lia)) as Hgt.
    destruct (Z.testbit r c) eqn:Eb.
    - split.
      + intros H. apply Z.eqb_eq in H. lia.
      + intros [-> Hb]. rewrite Hb in Eb. discriminate.
    - split.
      + intros H. apply Z.eqb_eq in H. subst c. now split.
      + intros [-> _]. reflexivity. }
  split; [exact Hmain|].
  split.
  { intros Hb. apply not_true_is_false. intros E.
    apply Hmain in E. destruct E as [-> E]. congruence. }
  intros k Hk.
  assert (Hk' : has_uint r (code_value k) = true
                <-> code_value k = 0%Z /\ Z.testbit r 0 = false).
  { unfold has_uint. pose proof (code_value_range k) as Hr.
    rewrite Z.shiftl_1_l, land_pow2 by lia.
    pose proof (Z.pow_gt_lin_r 2 (code_value k) ltac:(lia) ltac:(lia)) as Hgt.
    destruct (Z.testbit r (code_value k)) eqn:Eb.
    - split.
      + intros H. apply Z.eqb_eq in H. lia.
      + intros [H0 Hb]. rewrite H0 in Eb. congruence.
    - split.
      + intros H. apply Z.eqb_eq in H. rewrite <- H in *. now split.
      + intros [H0 _]. rewrite H0. reflexivity. }
  apply Hk' in Hk. destruct Hk as [H0 Hb].
  assert (k = INVALID_OR_MISSING_EVENT_ID) as ->
    by (destruct k; simpl in H0; try discriminate; reflexivity).
  split; [reflexivity|]. now rewrite has_testbit.
Qed.

Section Skip.

Variable valid : sigil -> string -> bool.
Variable id_host : string -> string.
Variable unquote : string -> string.

(** X15. [conforms(e, skip)] reports a code exactly when [conforms(e)]
    reports it and its bit is not in [skip]; it throws when [conforms(e)]
    does; a skip of 0 changes nothing and a skip of everything reported
    gives a clean report. *)
Theorem conforms_skip_codes (e : event) (skip : Z) :
  (conforms_skip valid id_host unquote e skip = None
   <-> conforms valid id_host unquote e = None)
  /\ (forall r, conforms valid id_host unquote e = Some r ->
      exists rs,
        conforms_skip valid id_host unquote e skip = Some rs
        /\ (forall c, has rs c
                      = has r c && negb (Z.testbit skip (code_value c)))
        /\ conforms_skip valid id_host unquote e 0 = Some r
        /\ conforms_skip valid id_host unquote e r = Some 0%Z).
Proof.
  unfold conforms_skip.
  destruct (conforms valid id_host unquote e) as [r|]; simpl.
  - split; [split; discriminate|].
    intros r' H. injection H as <-. eexists. split; [reflexivity|].
    split; [intros c; apply has_ldiff|].
    split; [now rewrite Z.ldiff_0_r|now rewrite Z.ldiff_diag].
  - split; [split; reflexivity|]. discriminate.
Qed.

End Skip.

(** ** The names of the codes *)

Lemma find_index_found (name : string) (l : list string) :
  forall i n, find_index name l i = Some n ->
              (i <= n < i + List.length l)%nat
              /\ nth (n - i) l "??????" = name.
Proof.
  induction l as [|x l IH]; intros i n H; simpl in H; [discriminate|].
  destruct (String.eqb_spec x name) as [->|Hne].
  - injection H as <-. simpl. rewrite Nat.sub_diag. split; [lia|reflexivity].
  - apply IH in H. destruct H as [Hr Hn]. simpl. split; [lia|].
    replace (n - i)%nat with (S (n - S i)) by lia. exact Hn.
Qed.

(** X16. The names and the codes go back and forth: the code of the name of
    a code is that code, and the name of the code of a name is that name.
    A number past the last code has the name [??????], which is the name of
    no code: [reflect] of it throws. *)
Theorem reflect_round_trip :
  (forall c : code,
      conforms_reflect (reflect c) = Some (Z.to_nat (code_value c)))
  /\ (forall name n, conforms_reflect name = Some n ->
        reflect_at n = name /\ (n < 24)%nat)
  /\ (forall n, (24 <= n)%nat -> reflect_at n = "??????")
  /\ conforms_reflect "??????" = None.
Proof.
  split; [intros c; destruct c; reflexivity|].
  split.
  { intros name n H. unfold conforms_reflect in H.
    apply find_index_found in H. destruct H as [Hr Hn].
    rewrite Nat.sub_0_r in Hn. split; [exact Hn|exact (proj2 Hr)]. }
  split; [|reflexivity].
  intros n Hn. unfold reflect_at. apply nth_overflow. exact Hn.
Qed.

(** ** The text of a report *)

Lemma substring_length (s : string) :
  forall n, (n <= String.length s)%nat ->
            String.length (substring 0 n s) = n.
Proof.
  induction s as [|a s IH]; intros n Hn; simpl in *.
  - destruct n; [reflexivity|lia].
  - destruct n as [|n]; [reflexivity|]. simpl. rewrite IH; [reflexivity|lia].
Qed.

Lemma substring_all (s : string) : substring 0 (String.length s) s = s.
Proof. induction s as [|a s IH]; simpl; [reflexivity|now rewrite IH]. Qed.

Lemma copy_consume_sum (b : buffer) (s : string) :
  (String.length (written (copy_consume b s)) + room (copy_consume b s)
   = String.length (written b) + room b)%nat.
Proof.
  unfold copy_consume. simpl.
  rewrite length_append', substring_length by lia. lia.
Qed.

Lemma copy_consume_fits (b : buffer) (s : string) :
  (String.length s <= room b)%nat ->
  copy_consume b s = mk_buffer (written b ++ s) (room b - String.length s).
Proof.
  intros H. unfold copy_consume.
  rewrite Nat.min_r by assumption. now rewrite substring_all.
Qed.

Lemma string_loop_sum (r : report) (cs : list code) :
  forall b,
    (String.length (written (string_loop r cs b)) + room (string_loop r cs b)
     = String.length (written b) + room b)%nat.
Proof.
  induction cs as [|c cs IH]; intros b; simpl; [reflexivity|].
  destruct (has r c); [|apply IH].
  rewrite IH, copy_consume_sum.
  destruct (empty_str (written b)); [reflexivity|apply copy_consume_sum].
Qed.

(** The names joined by one space after what is written already. *)
Lemma string_loop_fits (r : report) (cs : list code) :
  forall b,
    (30 * List.length cs <= room b)%nat ->
    (forall c, In c cs -> (1 <= String.length (reflect c) <= 29)%nat) ->
    written (string_loop r cs b)
    = match map reflect (filter (has r) cs) with
      | [] => written b
      | names =>
          if empty_str (written b) then String.concat " " names
          else written b ++ " " ++ String.concat " " names
      end.
Proof.
  induction cs as [|c cs IH]; intros b Hroom Hnames; simpl; [reflexivity|].
  assert (Hc : (1 <= String.length (reflect c) <= 29)%nat)
    by (apply Hnames; now left).
  assert (Hcs : forall c', In c' cs ->
                           (1 <= String.length (reflect c') <= 29)%nat)
    by (intros c' H'; apply Hnames; now right).
  simpl in Hroom.
  destruct (has r c); simpl; [|apply IH; [lia|exact Hcs]].
  set (b1 := if empty_str (written b) then b else copy_consume b " ").
  assert (Hb1 : written b1
                = (if empty_str (written b) then EmptyString
                   else written b ++ " ")
                /\ (room b - 1 <= room b1)%nat).
  { unfold b1. destruct (empty_str (written b)) eqn:Ee.
    - apply String.eqb_eq in Ee. split; [exact Ee|lia].
    - rewrite copy_consume_fits by (simpl; lia). simpl. split; [reflexivity|lia]. }
  destruct Hb1 as [Hw1 Hr1].
  rewrite IH; [|rewrite copy_consume_fits by lia; simpl; lia|exact Hcs].
  rewrite copy_consume_fits by lia. simpl written. rewrite Hw1.
  assert (Hne : forall x, empty_str (x ++ reflect c) = false).
  { intros x. unfold empty_str. apply String.eqb_neq. intros H.
    apply (f_equal String.length) in H. rewrite length_append' in H.
    simpl in H. lia. }
  destruct (map reflect (filter (has r) cs)) as [|n ns] eqn:En.
  - destruct (empty_str (written b)); simpl; [reflexivity|].
    now rewrite append_assoc'.
  - rewrite Hne.
    destruct (empty_str (written b)); simpl; [reflexivity|].
    now rewrite !append_assoc'.
Qed.

Lemma reflect_lengths (c : code) :
  (1 <= String.length (reflect c) <= 29)%nat.
Proof. destruct c; unfold reflect; simpl; lia. Qed.

(** X17. The text of a report is the names of its codes by increasing
    value, one space between two names and none at either end, whenever the
    buffer has 720 bytes or more; the 1024 bytes of [operator<<] are enough
    for every report.  In a smaller buffer the text is cut, never
    overrun.  A clean report has the empty text. *)
Theorem conforms_string_names (r : report) :
  (forall capacity,
      (String.length (conforms_string r capacity) <= capacity)%nat)
  /\ (forall capacity, (720 <= capacity)%nat ->
        conforms_string r capacity
        = String.concat " " (map reflect (filter (has r) codes)))
  /\ conforms_string r ostream_buf_size
     = String.concat " " (map reflect (filter (has r) codes))
  /\ (forall capacity, conforms_string 0%Z capacity = EmptyString).
Proof.
  assert (Hfit : forall capacity, (720 <= capacity)%nat ->
             conforms_string r capacity
             = String.concat " " (map reflect (filter (has r) codes))).
  { intros capacity Hcap. unfold conforms_string.
    rewrite string_loop_fits;
      [|change (30 * 24 <= capacity)%nat; lia
       |intros c _; apply reflect_lengths].
    destruct (map reflect (filter (has r) codes)); reflexivity. }
  split.
  { intros capacity. unfold conforms_string.
    pose proof (string_loop_sum r codes (mk_buffer EmptyString capacity)) as H.
    change (String.length (written (mk_buffer EmptyString capacity))
            + room (mk_buffer EmptyString capacity))%nat
      with capacity in H.
    lia. }
  split; [exact Hfit|].
  split; [apply Hfit; unfold ostream_buf_size; lia|].
  intros capacity. reflexivity.
Qed.

(** ** Signing *)

Lemma members_at_agree (keys : list string) (c1 c2 : iov) :
  agree_on keys c1 c2 -> members_at c1 keys = members_at c2 keys.
Proof.
  unfold agree_on. induction keys as [|k keys IH]; intros H; simpl.
  - reflexivity.
  - rewrite (H k) by now left.
    rewrite IH by (intros k' Hk'; apply H; now right). reflexivity.
Qed.

Lemma members_at_none (contents : iov) (keys : list string) :
  members_at contents keys = None
  <-> exists k, In k keys /\ iov_at contents k = None.
Proof.
  induction keys as [|k keys IH]; simpl.
  - split; [discriminate|]. intros [k [[] _]].
  - destruct (iov_at contents k) as [x|] eqn:E.
    + destruct (members_at contents keys) as [ms|].
      * split; [discriminate|].
        intros [k' [[<-|Hin] Hk']]; [congruence|].
        apply proj2 in IH. discriminate IH. now exists k'.
      * split; [|reflexivity]. intros _.
        destruct (proj1 IH eq_refl) as [k' [Hin Hk']].
        exists k'. split; [now right|exact Hk'].
    + split; [|reflexivity]. intros _. exists k. split; [now left|exact E].
Qed.

Section Signing.

Variable stringify_iov : iov -> string.
Variable ed25519_sign : string -> string.
Variable b64encode_unpadded : string -> string.
Variable stringify_members : list (string * value) -> string.
Variable my_host : string.
Variable public_key_id : string.

Abbreviation sign' := (sign stringify_iov ed25519_sign).
Abbreviation signatures' :=
  (signatures stringify_iov ed25519_sign b64encode_unpadded
              stringify_members my_host public_key_id).

(** The seven branches of [sign] as one lookup in the table of keys. *)
Lemma sign_by_allowlist (ev contents : iov) (ty : string) :
  iov_at ev "type" = Some (jtext ty) ->
  sign' ev contents
  = match members_at contents (allowlist ty) with
    | None => None
    | Some ms =>
        Some (ed25519_sign
                (stringify_iov
                   (push ev ("content",
                             match allowlist ty with
                             | [] => jtext "{}"
                             | _ => jmembers ms
                             end))))
    end.
Proof.
  intros Htype. unfold sign. rewrite Htype. unfold type_is.
  destruct (String.eqb_spec ty "m.room.aliases") as [->|N1];
    [reflexivity|].
  destruct (String.eqb_spec ty "m.room.create") as [->|N2];
    [reflexivity|].
  destruct (String.eqb_spec ty "m.room.history_visibility") as [->|N3];
    [reflexivity|].
  destruct (String.eqb_spec ty "m.room.join_rules") as [->|N4];
    [reflexivity|].
  destruct (String.eqb_spec ty "m.room.member") as [->|N5];
    [reflexivity|].
  destruct (String.eqb_spec ty "m.room.power_levels") as [->|N6];
    [reflexivity|].
  unfold allowlist.
  apply String.eqb_neq in N1, N2, N3, N4, N5, N6.
  now rewrite N1, N2, N3, N4, N5, N6.
Qed.

(** X18. The signature depends on the content only through the keys kept
    for the type of the event: two contents that agree on those keys are
    signed alike, or refused alike.  For a type that keeps no key, such as a
    message, the signature does not depend on the content at all. *)
Theorem sign_depends_on_allowlist (ev c1 c2 : iov) (ty : string)
        (Htype : iov_at ev "type" = Some (jtext ty))
        (Hagree : agree_on (allowlist ty) c1 c2) :
  sign' ev c1 = sign' ev c2
  /\ signatures' ev c1 = signatures' ev c2
  /\ (allowlist ty = [] ->
      forall c,
        sign' ev c
        = Some (ed25519_sign
                  (stringify_iov (push ev ("content", jtext "{}"))))).
Proof.
  assert (H : sign' ev c1 = sign' ev c2).
  { rewrite !(sign_by_allowlist _ _ ty Htype).
    now rewrite (members_at_agree _ _ _ Hagree). }
  split; [exact H|].
  split; [unfold signatures; now rewrite H|].
  intros Hnil c. rewrite (sign_by_allowlist _ _ ty Htype), Hnil. reflexivity.
Qed.

(** X19. For an event under construction whose type, where it has one, is
    a text: [sign] throws exactly when the event has no type, or has a type
    one of whose kept keys is missing from the content; [signatures] throws
    exactly when [sign] does. *)
Theorem sign_throws_exactly (ev contents : iov)
        (Htext : forall ms, iov_at ev "type" <> Some (jmembers ms)) :
  (sign' ev contents = None
   <-> iov_at ev "type" = None
       \/ exists ty k, iov_at ev "type" = Some (jtext ty)
                       /\ In k (allowlist ty)
                       /\ iov_at contents k = None)
  /\ (signatures' ev contents = None <-> sign' ev contents = None).
Proof.
  split.
  - destruct (iov_at ev "type") as [[ty|ms]|] eqn:Et.
    + rewrite (sign_by_allowlist _ _ ty Et). split.
      * intros H. right.
        destruct (members_at contents (allowlist ty)) eqn:Em;
          [discriminate|].
        apply members_at_none in Em. destruct Em as [k [Hin Hk]].
        now exists ty, k.
      * intros [H|[ty' [k [Heq [Hin Hk]]]]]; [discriminate|].
        injection Heq as <-.
        assert (Em : members_at contents (allowlist ty) = None)
          by (apply members_at_none; now exists k).
        now rewrite Em.
    + now destruct (Htext ms).
    + unfold sign. rewrite Et. split; [now left|reflexivity].
  - unfold signatures. destruct (sign' ev contents); split;
      try discriminate; reflexivity.
Qed.

End Signing.

(** ** m::membership *)

Section Membership.

Variable valid : sigil -> string -> bool.
Variable id_host : string -> string.
Variable unquote : string -> string.

(** X20. For a member event whose report has neither [MISSING_MEMBERSHIP]
    nor [INVALID_MEMBERSHIP], [membership(e)] is the membership member of
    the event, not empty and all lower case; when that member is empty it is
    the unquoted membership of the content, which is not empty and all lower
    case if the report has neither [MISSING_CONTENT_MEMBERSHIP] nor
    [INVALID_CONTENT_MEMBERSHIP]. *)
Theorem membership_conformed (e : event) (r : report)
        (Hr : conforms valid id_host unquote e = Some r)
        (Htype : type e = "m.room.member") :
  (has r MISSING_MEMBERSHIP = false -> has r INVALID_MEMBERSHIP = false ->
   membership unquote e = membership_ e
   /\ membership unquote e <> EmptyString
   /\ all_of islower (membership unquote e) = true)
  /\ (membership_ e = EmptyString ->
      has r MISSING_CONTENT_MEMBERSHIP = false ->
      has r INVALID_CONTENT_MEMBERSHIP = false ->
      membership unquote e = unquote (object_get (content e) "membership")
      /\ membership unquote e <> EmptyString
      /\ all_of islower (membership unquote e) = true).
Proof.
  split.
  - rewrite !(conforms_has valid id_host unquote e r Hr). simpl.
    rewrite !orb_false_r. fields_has. rewrite Htype. simpl.
    intros Hm Hi. apply negb_false_iff in Hi.
    unfold membership. rewrite Hm. simpl.
    split; [reflexivity|]. split; [|exact Hi].
    now apply String.eqb_neq.
  - intros He. rewrite !(conforms_has valid id_host unquote e r Hr). simpl.
    rewrite !orb_false_r. fields_has. rewrite Htype. simpl.
    intros Hm Hi. apply negb_false_iff in Hi.
    unfold membership. rewrite He. simpl.
    split; [reflexivity|]. split; [|exact Hi].
    now apply String.eqb_neq.
Qed.

End Membership.

(** ** More of the conformance report *)

Lemma code_bits_set_if (x : bool) (c : code) (r : report) :
  code_bits r -> code_bits (set_if x c r).
Proof.
  intros [H0 Hn]. unfold set_if. destruct x; [|now split].
  unfold set. pose proof (code_value_range c) as Hc. split.
  - apply Z.lor_nonneg. split; [assumption|].
    rewrite Z.shiftl_1_l. apply Z.pow_nonneg. lia.
  - intros n Hn'. rewrite Z.lor_spec, Hn by assumption.
    rewrite Z.shiftl_1_l, Z.pow2_bits_eqb by lia.
    simpl. apply Z.eqb_neq. lia.
Qed.

Lemma code_bits_below (r : report) : code_bits r -> (r < 2 ^ 24)%Z.
Proof.
  intros [H0 Hn]. destruct (Z.lt_ge_cases r (2 ^ 24)) as [|Hge]; [assumption|].
  assert (Hpos : (0 < r)%Z) by lia.
  pose proof (Z.bit_log2 r Hpos) as Hb.
  assert (Hl : (24 <= Z.log2 r)%Z).
  { apply Z.log2_le_pow2; [assumption|exact Hge]. }
  rewrite (Hn _ Hl) in Hb. discriminate.
Qed.

Lemma code_of_value (n : Z) :
  (0 <= n < 24)%Z -> exists c, code_value c = n.
Proof.
  intros Hn. exists (nth (Z.to_nat n) codes INVALID_OR_MISSING_EVENT_ID).
  assert (Hn' : n = Z.of_nat (Z.to_nat n)) by lia.
  assert (Hlt : (Z.to_nat n < 24)%nat) by lia.
  rewrite Hn' at 2. revert Hlt. generalize (Z.to_nat n). intros m Hm.
  do 24 (destruct m as [|m]; [reflexivity|]). lia.
Qed.

Section Report.

Variable valid : sigil -> string -> bool.
Variable id_host : string -> string.
Variable unquote : string -> string.

Abbreviation conforms' := (conforms valid id_host unquote).
Abbreviation conforms_fields' := (conforms_fields valid id_host unquote).

Lemma code_bits_fields (e : event) : code_bits (conforms_fields' e).
Proof.
  unfold conforms_fields. cbv zeta.
  repeat apply code_bits_set_if.
  split; [lia|]. intros n _. apply Z.bits_0.
Qed.

Lemma code_bits_scan_dup (dup : code) (x : string) (i : nat)
      (refs : list array) :
  forall j r r', scan_dup dup x i refs j r = Some r' ->
                 code_bits r -> code_bits r'.
Proof.
  induction refs as [|pe_ refs IH]; intros j r r' H Hr; simpl in H.
  - now injection H as <-.
  - destruct (Nat.eqb i j); [now apply (IH _ _ _ H)|].
    destruct (array_at pe_ 0) as [y|]; [|discriminate].
    apply (IH _ _ _ H). now apply code_bits_set_if.
Qed.

Lemma code_bits_scan_refs (self dup : code) (eid : string)
      (refs : list array) :
  forall rest i r r',
    scan_refs unquote self dup eid refs rest i r = Some r' ->
    code_bits r -> code_bits r'.
Proof.
  induction rest as [|pe rest IH]; intros i r r' H Hr; simpl in H.
  - now injection H as <-.
  - destruct (array_at pe 0) as [x|]; [|discriminate].
    destruct (scan_dup dup x i refs 0 _) as [r2|] eqn:Ed; [|discriminate].
    apply (IH _ _ _ H). apply (code_bits_scan_dup _ _ _ _ _ _ _ Ed).
    now apply code_bits_set_if.
Qed.

(** X21. A report has bits of the 24 codes only: it is below 2^24.  The
    code [INVALID_ORIGIN] is in no report: its check is [if(false)]. *)
Theorem conforms_report_bits (e : event) (r : report)
        (Hr : conforms' e = Some r) :
  (0 <= r < 2 ^ 24)%Z
  /\ has r INVALID_ORIGIN = false
  /\ (clean r = true <-> forall c, has r c = false).
Proof.
  assert (Hbits : code_bits r).
  { unfold conforms in Hr.
    destruct (scan_refs unquote SELF_PREV_EVENT _ _ _ _ _ _) as [r1|] eqn:E1;
      [|discriminate].
    apply (code_bits_scan_refs _ _ _ _ _ _ _ _ Hr).
    apply (code_bits_scan_refs _ _ _ _ _ _ _ _ E1).
    apply code_bits_fields. }
  split; [split; [apply Hbits|now apply code_bits_below]|].
  split.
  { rewrite (conforms_has valid id_host unquote e r Hr). simpl.
    rewrite !orb_false_r. fields_has. reflexivity. }
  split.
  - unfold clean. intros H c. apply Z.eqb_eq in H. subst r. apply has_zero.
  - intros H. unfold clean. apply Z.eqb_eq. apply Z.bits_inj'. intros n Hn.
    rewrite Z.bits_0. destruct (Z.lt_ge_cases n 24) as [Hlt|Hge].
    + destruct (code_of_value n ltac:(lia)) as [c <-].
      rewrite <- has_testbit. apply H.
    + now apply Hbits.
Qed.

(** ** The loops, read backwards *)

Lemma dup_at_found (x : string) (i : nat) (refs : list array) :
  forall j, dup_at x i refs j = true ->
            exists k a, nth_error refs k = Some a
                        /\ array_at a 0 = Some x /\ (j + k)%nat <> i.
Proof.
  induction refs as [|pe_ refs IH]; intros j H; simpl in H; [discriminate|].
  apply orb_true_iff in H. destruct H as [H|H].
  - apply andb_true_iff in H. destruct H as [Hij Hx].
    apply negb_true_iff, Nat.eqb_neq in Hij.
    destruct (array_at pe_ 0) as [y|] eqn:Ey; [|discriminate].
    apply String.eqb_eq in Hx. subst y.
    exists 0%nat, pe_. repeat split; [exact Ey|lia].
  - destruct (IH _ H) as [k [a [Hn [Ha Hne]]]].
    exists (S k), a. repeat split; [exact Hn|exact Ha|lia].
Qed.

Lemma any_dup_found (refs : list array) :
  forall rest i, any_dup refs rest i = true ->
                 exists k a x, nth_error rest k = Some a
                               /\ array_at a 0 = Some x
                               /\ dup_at x (i + k) refs 0 = true.
Proof.
  induction rest as [|pe rest IH]; intros i H; simpl in H; [discriminate|].
  apply orb_true_iff in H. destruct H as [H|H].
  - destruct (array_at pe 0) as [x|] eqn:Ex; [|discriminate].
    exists 0%nat, pe, x. rewrite Nat.add_0_r. now repeat split.
  - destruct (IH _ H) as [k [a [x [Hn [Ha Hd]]]]].
    exists (S k), a, x. repeat split; [exact Hn|exact Ha|].
    now replace (i + S k)%nat with (S i + k)%nat by lia.
Qed.

Lemma any_dup_repeated (refs : list array) :
  any_dup refs refs 0 = true <-> repeated refs.
Proof.
  split; [|apply repeated_any_dup].
  intros H. apply any_dup_found in H.
  destruct H as [k [a [x [Hn [Ha Hd]]]]].
  apply dup_at_found in Hd. destruct Hd as [k' [b [Hn' [Hb Hne]]]].
  exists k, k', x. simpl in Hne.
  split; [lia|]. rewrite Hn, Hn'. simpl. now rewrite Ha, Hb.
Qed.

Lemma any_self_names (eid : string) (refs : list array) :
  any_self unquote eid refs = true <-> names_self unquote eid refs.
Proof.
  unfold any_self, names_self. rewrite existsb_exists. split.
  - intros [a [Hin H]]. destruct (array_at a 0) as [x|] eqn:Ex;
      [|discriminate].
    apply String.eqb_eq in H. now exists a, x.
  - intros [a [x [Hin [Hx He]]]]. exists a. split; [exact Hin|].
    rewrite Hx. now apply String.eqb_eq.
Qed.

(** X22. The two loops report what is there and nothing else:
    [DUP_PREV_EVENT] exactly when two positions of [prev_events] carry the
    same event id, [SELF_PREV_EVENT] exactly when an entry of [prev_events]
    names the event itself, likewise for [prev_state]; and [SELF_REDACTS]
    exactly when [redacts] is given and is the event id. *)
Theorem conforms_loops_exact (e : event) (r : report)
        (Hr : conforms' e = Some r) :
  (has r DUP_PREV_EVENT = true <-> repeated (prev_events e))
  /\ (has r DUP_PREV_STATE = true <-> repeated (prev_state e))
  /\ (has r SELF_PREV_EVENT = true
      <-> names_self unquote (event_id_ e) (prev_events e))
  /\ (has r SELF_PREV_STATE = true
      <-> names_self unquote (event_id_ e) (prev_state e))
  /\ (has r SELF_REDACTS = true
      <-> redacts e <> EmptyString /\ redacts e = event_id_ e).
Proof.
  rewrite !(conforms_has valid id_host unquote e r Hr). simpl.
  rewrite !orb_false_r. fields_has.
  split; [apply any_dup_repeated|].
  split; [apply any_dup_repeated|].
  split; [apply any_self_names|].
  split; [apply any_self_names|].
  rewrite andb_true_iff, negb_true_iff. unfold empty_str.
  now rewrite String.eqb_neq, String.eqb_eq.
Qed.

(** X23. Which events a check applies to.  A room creation event is exempt
    from [MISSING_PREV_EVENTS], [MISSING_PREV_STATE] and [DEPTH_ZERO], not
    from [DEPTH_NEGATIVE]; [INVALID_OR_MISSING_REDACTS_ID] is reported for
    redaction events only, and the four membership codes for member events
    only. *)
Theorem conforms_checks_by_type (e : event) (r : report)
        (Hr : conforms' e = Some r) :
  (has r MISSING_PREV_EVENTS = true
   <-> type e <> "m.room.create" /\ prev_events e = [])
  /\ (has r MISSING_PREV_STATE = true
      <-> type e <> "m.room.create" /\ state_key e <> EmptyString
          /\ prev_state e = [])
  /\ (has r DEPTH_ZERO = true
      <-> type e <> "m.room.create" /\ depth e = 0%Z)
  /\ (has r DEPTH_NEGATIVE = true <-> (depth e < 0)%Z)
  /\ (has r INVALID_OR_MISSING_REDACTS_ID = true ->
      type e = "m.room.redaction")
  /\ (has r MISSING_MEMBERSHIP = true \/ has r INVALID_MEMBERSHIP = true
      \/ has r MISSING_CONTENT_MEMBERSHIP = true
      \/ has r INVALID_CONTENT_MEMBERSHIP = true ->
      type e = "m.room.member").
Proof.
  rewrite !(conforms_has valid id_host unquote e r Hr). simpl.
  rewrite !orb_false_r. fields_has.
  assert (Hempty : forall (A : Type) (l : list A),
             empty_list l = true <-> l = []).
  { intros A l. destruct l; split; try discriminate; reflexivity. }
  split.
  { rewrite andb_true_iff, negb_true_iff, String.eqb_neq. now rewrite Hempty. }
  split.
  { rewrite !andb_true_iff, !negb_true_iff, String.eqb_neq. unfold empty_str.
    rewrite String.eqb_neq, Hempty. tauto. }
  split.
  { rewrite andb_true_iff, negb_true_iff, String.eqb_neq, Z.eqb_eq.
    reflexivity. }
  split; [apply Z.ltb_lt|].
  split.
  { intros H. apply andb_true_iff in H. now apply String.eqb_eq. }
  intros [H|[H|[H|H]]]; apply andb_true_iff in H; now apply String.eqb_eq.
Qed.

Lemma scan_refs_throws (self dup : code) (eid : string) (refs : list array) :
  forall rest i r,
    entries_ok rest = false ->
    scan_refs unquote self dup eid refs rest i r = None.
Proof.
  induction rest as [|pe rest IH]; intros i r H; simpl in H; [discriminate|].
  simpl. destruct pe as [|x pe]; [reflexivity|].
  simpl in H. unfold array_at. simpl.
  destruct (scan_dup dup x i refs 0 _); [now apply IH|reflexivity].
Qed.

(** X24. The constructor throws exactly when an entry of [prev_events] or
    of [prev_state] is an empty array; nothing else in the event, its
    [auth_events] included, makes it throw. *)
Theorem conforms_throws_exactly (e : event) :
  (conforms' e = None
   <-> entries_ok (prev_events e) = false
       \/ entries_ok (prev_state e) = false)
  /\ (forall l, conforms' (with_auth_events e l) = None
                <-> conforms' e = None).
Proof.
  split; [|intros l; reflexivity].
  split.
  - intros H.
    destruct (entries_ok (prev_events e)) eqn:Ep; [|now left].
    destruct (entries_ok (prev_state e)) eqn:Es; [|now right].
    destruct (conforms_total valid id_host unquote e Ep Es) as [r Hr].
    congruence.
  - intros [H|H]; unfold conforms.
    + now rewrite scan_refs_throws.
    + destruct (scan_refs unquote SELF_PREV_EVENT _ _ _ _ _ _);
        [now apply scan_refs_throws|reflexivity].
Qed.

End Report.

End EventMoreFacts.

(* ------------------------------------------------------------------------- *)
(** * Runs of the overloads, the pool and the offload queue *)
(* ------------------------------------------------------------------------- *)

Module CtxMoreExamples.

Import Ctx CtxMore CtxFacts CtxMoreFacts.

Open Scope Z_scope.

(** The state in which context 0, with one note, has suspended in [wait]. *)
Definition world_suspended : world :=
  match wait_enter 0 (world_running 1) with
  | Yielded w1 => w1
  | _ => world_running 1
  end.

(** Context 0 running with two notes and the interruption flag set. *)
Definition world_flagged : world :=
  interrupt INTERRUPTED_0x10 0 (world_running 2).

(** The state [yield] returns in after a stray note and the restore. *)
Definition world_yielded : world :=
  match yield INTERRUPTED_0x10 5 [ [ext_notify 0%nat]; [ext_restore 0%nat] ]
              (world_running 3) with
  | Ok _ w' => w'
  | _ => world_running 3
  end.

(** Notified half a microsecond before the deadline of a wait of 10us:
    [wait_for] gives 0, [wait_until] false. *)
Lemma wait_until_agrees_wait_for_witness :
  0 <= clock (world_running 1)
  /\ 0 <= deadline 10 (world_running 1) <= INT64_MAX
  /\ wait_for INTERRUPTED_0x10 10 0
              [ext_elapse 9500; ext_notify 0%nat] (world_running 1)
     = match wait_until INTERRUPTED_0x10 (deadline 10 (world_running 1))
                        [ext_elapse 9500; ext_notify 0%nat] (world_running 1)
       with
       | Ok _ w1 =>
           Ok (Z.quot (deadline 10 (world_running 1)
                       - (clock w1 + Z.of_N 0)) 1000)
              (set_clock w1 (clock w1 + Z.of_N 0))
       | Throw e w1 => Throw e w1
       | Abort => Abort
       | Blocked w1 => Blocked w1
       end.
Proof.
  assert (H1 : 0 <= clock (world_running 1)) by (vm_compute; discriminate).
  assert (H2 : 0 <= deadline 10 (world_running 1) <= INT64_MAX)
    by (vm_compute; split; discriminate).
  split; [exact H1|]. split; [exact H2|].
  exact (proj1 (wait_until_agrees_wait_for INTERRUPTED_0x10 10 0
                  [ext_elapse 9500; ext_notify 0%nat] (world_running 1)
                  H1 H2)).
Defined.

Example wait_last_microsecond_run :
  returned (wait_for INTERRUPTED_0x10 10 0
                     [ext_elapse 9500; ext_notify 0%nat] (world_running 1))
  = Some 0
  /\ returned (wait_until INTERRUPTED_0x10 (deadline 10 (world_running 1))
                          [ext_elapse 9500; ext_notify 0%nat]
                          (world_running 1))
     = Some false.
Proof. split; reflexivity. Qed.

(** [wait(seconds(1))] notified after half a second throws [timeout] with
    half a second to go: 500000us are no whole second. *)
Example wait_seconds_run :
  match wait_for_throw INTERRUPTED_0x10 seconds 1 0
                       [ext_elapse 500000000; ext_notify 0%nat]
                       (world_running 1) with
  | Raised ex_timeout w' =>
      deadline (duration_cast seconds microseconds 1) (world_running 1)
      - clock w' = 500000000
  | _ => False
  end
  /\ returned (wait_for_nothrow INTERRUPTED_0x10 microseconds 1000000 0
                                [ext_elapse 500000000; ext_notify 0%nat]
                                (world_running 1))
     = Some 500000.
Proof. split; reflexivity. Qed.

Lemma wait_throw_overloads_witness :
  1000 <= period_ns seconds
  /\ 0 <= clock (world_running 1)
  /\ 0 <= deadline (duration_cast seconds microseconds 1) (world_running 1)
       <= INT64_MAX
  /\ (forall w',
        wait_for_throw INTERRUPTED_0x10 seconds 1 0
                       [ext_elapse 500000000; ext_notify 0%nat]
                       (world_running 1)
        = Raised ex_timeout w' ->
        deadline (duration_cast seconds microseconds 1) (world_running 1)
        - clock w' < period_ns seconds).
Proof.
  assert (H0 : 1000 <= period_ns seconds) by (vm_compute; discriminate).
  assert (H1 : 0 <= clock (world_running 1)) by (vm_compute; discriminate).
  assert (H2 : 0 <= deadline (duration_cast seconds microseconds 1)
                             (world_running 1) <= INT64_MAX)
    by (vm_compute; split; discriminate).
  split; [exact H0|]. split; [exact H1|]. split; [exact H2|].
  exact (proj1 (proj2 (wait_throw_overloads INTERRUPTED_0x10 seconds 1 0
                         [ext_elapse 500000000; ext_notify 0%nat]
                         (world_running 1) H0 H1 H2))).
Defined.

Lemma wait_interrupted_witness :
  INTERRUPTED_0x10 <> 0
  /\ wait_enter 0 (world_running 1) = Yielded world_suspended
  /\ In (ext_interrupt 0%nat) [ext_notify 0%nat; ext_interrupt 0%nat]
  /\ exists w2,
       wait INTERRUPTED_0x10 0 [ext_notify 0%nat; ext_interrupt 0%nat]
            (world_running 1)
       = Throw interrupted w2
       /\ interruption INTERRUPTED_0x10 w2 0 = false
       /\ notes_of w2 0 = 1.
Proof.
  assert (H1 : INTERRUPTED_0x10 <> 0) by (vm_compute; discriminate).
  assert (H2 : wait_enter 0 (world_running 1) = Yielded world_suspended)
    by reflexivity.
  assert (H3 : In (ext_interrupt 0%nat)
                  [ext_notify 0%nat; ext_interrupt 0%nat])
    by (right; left; reflexivity).
  split; [exact H1|]. split; [exact H2|]. split; [exact H3|].
  exact (wait_interrupted INTERRUPTED_0x10 0
           [ext_notify 0%nat; ext_interrupt 0%nat]
           (world_running 1) world_suspended H1 H2 H3).
Defined.

Lemma wait_flag_pending_witness :
  current world_flagged = Some 0%nat
  /\ interruption INTERRUPTED_0x10 world_flagged 0 = true
  /\ (1 < notes_of world_flagged 0 <= INT64_MAX ->
      exists w', wait INTERRUPTED_0x10 0 [] world_flagged = Ok false w'
                 /\ interruption INTERRUPTED_0x10 w' 0 = true).
Proof.
  assert (H1 : current world_flagged = Some 0%nat) by reflexivity.
  assert (H2 : interruption INTERRUPTED_0x10 world_flagged 0 = true)
    by reflexivity.
  split; [exact H1|]. split; [exact H2|].
  exact (proj1 (wait_flag_pending INTERRUPTED_0x10 0 [] world_flagged H1 H2)).
Defined.

Lemma interrupts_coalesce_witness :
  INTERRUPTED_0x10 <> 0
  /\ (1 <= 3)%nat
  /\ cancels_of (interrupts INTERRUPTED_0x10 3 0 (world_running 1)) 0
     = (cancels_of (world_running 1) 0 + 3)%nat.
Proof.
  assert (H1 : INTERRUPTED_0x10 <> 0) by (vm_compute; discriminate).
  assert (H2 : (1 <= 3)%nat) by lia.
  split; [exact H1|]. split; [exact H2|].
  exact (proj1 (interrupts_coalesce INTERRUPTED_0x10 3 0 (world_running 1)
                  H1 H2)).
Defined.

Lemma this_wait_only_wake_witness :
  current (world_running 1) = Some 0%nat
  /\ suspends (this_wait_enter 0 (world_running 1)) = true
  /\ forallb (fun e => negb (targets 0 e)) [ext_elapse 5; ext_notify 1%nat]
     = true
  /\ clock (world_running 1) + elapsed [ext_elapse 5; ext_notify 1%nat]
     < TIME_MAX
  /\ exists w', this_wait INTERRUPTED_0x10 [ext_elapse 5; ext_notify 1%nat]
                          (world_running 1)
                = Blocked w'.
Proof.
  assert (H1 : current (world_running 1) = Some 0%nat) by reflexivity.
  assert (H2 : suspends (this_wait_enter 0 (world_running 1)) = true)
    by reflexivity.
  assert (H3 : forallb (fun e => negb (targets 0 e))
                       [ext_elapse 5; ext_notify 1%nat] = true)
    by reflexivity.
  assert (H4 : clock (world_running 1)
               + elapsed [ext_elapse 5; ext_notify 1%nat] < TIME_MAX)
    by (vm_compute; reflexivity).
  split; [exact H1|]. split; [exact H2|]. split; [exact H3|].
  split; [exact H4|].
  exact (this_wait_only_wake INTERRUPTED_0x10
           [ext_elapse 5; ext_notify 1%nat] (world_running 1) 0
           H1 H2 H3 H4).
Defined.

Lemma yield_needs_restore_witness :
  current (world_running 3) = Some 0%nat
  /\ yield INTERRUPTED_0x10 5 [ [ext_notify 0%nat]; [ext_restore 0%nat] ]
           (world_running 3)
     = Ok tt world_yielded
  /\ exists es, In es [ [ext_notify 0%nat]; [ext_restore 0%nat] ]
                /\ existsb (is_restore 0) es = true.
Proof.
  assert (H1 : current (world_running 3) = Some 0%nat) by reflexivity.
  assert (H2 : yield INTERRUPTED_0x10 5
                     [ [ext_notify 0%nat]; [ext_restore 0%nat] ]
                     (world_running 3)
               = Ok tt world_yielded) by reflexivity.
  split; [exact H1|]. split; [exact H2|].
  exact (yield_needs_restore INTERRUPTED_0x10 5
           [ [ext_notify 0%nat]; [ext_restore 0%nat] ]
           (world_running 3) world_yielded 0 H1 H2).
Defined.

Lemma pool_del_add_join_witness :
  Z.of_nat (List.length [1; 2; 3]%nat) < 2 ^ 63
  /\ 0 <= 2 < 2 ^ 63
  /\ del nat 3 2 [1; 2; 3]%nat = [1]%nat
  /\ del nat 3 5 [1; 2; 3]%nat = []
  /\ join nat 3 [1; 2; 3]%nat = [].
Proof.
  assert (H1 : Z.of_nat (List.length [1; 2; 3]%nat) < 2 ^ 63)
    by (vm_compute; reflexivity).
  assert (H2 : 0 <= 2 < 2 ^ 63) by (vm_compute; split; [discriminate|reflexivity]).
  assert (H3 : 0 <= 5 < 2 ^ 63) by (vm_compute; split; [discriminate|reflexivity]).
  split; [exact H1|]. split; [exact H2|].
  split; [exact (proj1 (pool_del_add_join nat 7%nat [1; 2; 3]%nat 2 H1 H2))|].
  split; [exact (proj1 (pool_del_add_join nat 7%nat [1; 2; 3]%nat 5 H1 H3))|].
  exact (proj1 (proj2 (proj2 (pool_del_add_join nat 7%nat [1; 2; 3]%nat 2
                                H1 H2)))).
Defined.

(** A sleep to time 1010 that a stray note interrupts at 1000 returns once
    the clock is at 1020. *)
Example sleep_until_run :
  option_map clock
             (world_of (sleep_until INTERRUPTED_0x10 5 1010
                                    [ [ext_notify 0%nat]; [ext_elapse 20] ]
                                    (world_running 1)))
  = Some 1020
  /\ returned (sleep_until INTERRUPTED_0x10 5 1010
                           [ [ext_notify 0%nat]; [ext_elapse 20] ]
                           (world_running 1))
     = Some tt.
Proof. split; reflexivity. Qed.

(** A pool with one closure queued, and three more to submit: the first
    of these throws a [std::exception], the second [interrupted]. *)
Definition pool_sample : pool := mk_pool [ (1%nat, returns) ] 0 [].

Definition closures_sample : list closure :=
  [ (2%nat, throws_exception); (3%nat, throws_interrupted);
    (4%nat, returns) ].

Lemma pool_main_fifo_witness :
  (List.length (queue pool_sample) + List.length closures_sample < 5)%nat
  /\ main 5 (submit (4%nat, returns)
               (submit (3%nat, throws_interrupted)
                  (submit (2%nat, throws_exception) pool_sample)))
     = (main_exited,
        mk_pool [ (4%nat, returns) ] 0
                [ (1%nat, 0); (2%nat, 0); (3%nat, 0) ]).
Proof.
  assert (H : (List.length (queue pool_sample)
               + List.length closures_sample < 5)%nat)
    by (vm_compute; lia).
  split; [exact H|].
  exact (proj1 (proj2 (proj2
           (pool_main_fifo pool_sample closures_sample 5 H)))).
Defined.

Lemma ole_worker_drains_witness :
  (List.length (ole_queue (mk_ole [1%nat] true))
   + List.length [2%nat; 3%nat] < 4)%nat
  /\ ole_worker 4 (push 3 (push 2 (mk_ole [1%nat] true))) []
     = (worker_returned, mk_ole [] true, [1; 2; 3]%nat).
Proof.
  assert (H : (List.length (ole_queue (mk_ole [1%nat] true))
               + List.length [2%nat; 3%nat] < 4)%nat)
    by (vm_compute; lia).
  split; [exact H|].
  exact (proj1 (ole_worker_drains (mk_ole [1%nat] true) [2%nat; 3%nat] 4 H)).
Defined.

End CtxMoreExamples.

(* ------------------------------------------------------------------------- *)
(** * Reports, names and signatures of sample events *)
(* ------------------------------------------------------------------------- *)

Module EventMoreExamples.

Import Event EventMore EventFacts EventMoreFacts.

Open Scope string_scope.

Abbreviation conforms_std := (conforms valid_std host_std unquote_std).

(** The sample member event conforms. *)
Example conforms_member : conforms_std ev_member = Some 0%Z.
Proof. reflexivity. Qed.

(** The text of a report with two codes. *)
Example conforms_string_run :
  conforms_string (set (set 0%Z DUP_PREV_EVENT) MISSING_TYPE)
                  ostream_buf_size
  = "MISSING_TYPE DUP_PREV_EVENT".
Proof. reflexivity. Qed.

(** Code 2 is set in the report 5, and [has(2u)] denies it. *)
Lemma has_uint_never_set_witness :
  (0 <= 2 < 64)%Z
  /\ (Z.testbit 5 2 = true -> has_uint 5 2 = false).
Proof.
  assert (H : (0 <= 2 < 64)%Z) by lia.
  split; [exact H|].
  exact (proj1 (proj2 (has_uint_never_set 5%Z 2%Z H))).
Defined.

(** The member content with another display name. *)
Definition content_renamed : iov :=
  [ ("displayname", jtext "b"); ("membership", jtext "join") ].

Lemma sign_depends_on_allowlist_witness :
  iov_at iov_member "type" = Some (jtext "m.room.member")
  /\ agree_on (allowlist "m.room.member") content_member content_renamed
  /\ sign (fun v => String.concat "," (map fst v)) (fun s => s)
          iov_member content_member
     = sign (fun v => String.concat "," (map fst v)) (fun s => s)
            iov_member content_renamed.
Proof.
  assert (H1 : iov_at iov_member "type" = Some (jtext "m.room.member"))
    by reflexivity.
  assert (H2 : agree_on (allowlist "m.room.member")
                        content_member content_renamed).
  { intros k [<-|[]]. reflexivity. }
  split; [exact H1|]. split; [exact H2|].
  exact (proj1 (sign_depends_on_allowlist
                  (fun v => String.concat "," (map fst v)) (fun s => s)
                  (fun s => s) (fun _ => EmptyString) "h" "ed25519:a"
                  iov_member content_member content_renamed
                  "m.room.member" H1 H2)).
Defined.

(** A member content without the membership. *)
Definition content_nameless : iov := [ ("displayname", jtext "a") ].

Lemma sign_throws_exactly_witness :
  (forall ms, iov_at iov_member "type" <> Some (jmembers ms))
  /\ (sign (fun v => String.concat "," (map fst v)) (fun s => s)
           iov_member content_nameless = None
      <-> iov_at iov_member "type" = None
          \/ exists ty k, iov_at iov_member "type" = Some (jtext ty)
                          /\ In k (allowlist ty)
                          /\ iov_at content_nameless k = None).
Proof.
  assert (H : forall ms, iov_at iov_member "type" <> Some (jmembers ms))
    by (intros ms; discriminate).
  split; [exact H|].
  exact (proj1 (sign_throws_exactly
                  (fun v => String.concat "," (map fst v)) (fun s => s)
                  (fun s => s) (fun _ => EmptyString) "h" "ed25519:a"
                  iov_member content_nameless H)).
Defined.

(** The sample member event is not signed without its membership. *)
Example sign_nameless_throws :
  sign (fun v => String.concat "," (map fst v)) (fun s => s)
       iov_member content_nameless = None.
Proof. reflexivity. Qed.

Lemma membership_conformed_witness :
  conforms_std ev_member = Some 0%Z
  /\ type ev_member = "m.room.member"
  /\ (has 0%Z MISSING_MEMBERSHIP = false ->
      has 0%Z INVALID_MEMBERSHIP = false ->
      membership unquote_std ev_member = membership_ ev_member
      /\ membership unquote_std ev_member <> EmptyString
      /\ all_of islower (membership unquote_std ev_member) = true).
Proof.
  assert (H1 : conforms_std ev_member = Some 0%Z) by reflexivity.
  assert (H2 : type ev_member = "m.room.member") by reflexivity.
  split; [exact H1|]. split; [exact H2|].
  exact (proj1 (membership_conformed valid_std host_std unquote_std
                  ev_member 0%Z H1 H2)).
Defined.

Lemma conforms_report_bits_witness :
  conforms_std ev_foreign
  = Some (set (set (set 0%Z MISSING_ORIGIN_SIGNATURE) MISMATCH_ORIGIN_SENDER)
              MISMATCH_ORIGIN_EVENT_ID)
  /\ has (set (set (set 0%Z MISSING_ORIGIN_SIGNATURE) MISMATCH_ORIGIN_SENDER)
              MISMATCH_ORIGIN_EVENT_ID) INVALID_ORIGIN = false.
Proof.
  assert (H : conforms_std ev_foreign
              = Some (set (set (set 0%Z MISSING_ORIGIN_SIGNATURE)
                               MISMATCH_ORIGIN_SENDER)
                          MISMATCH_ORIGIN_EVENT_ID)) by reflexivity.
  split; [exact H|].
  exact (proj1 (proj2 (conforms_report_bits valid_std host_std unquote_std
                         ev_foreign _ H))).
Defined.

Lemma conforms_loops_exact_witness :
  conforms_std ev_dup_prev = Some (set 0%Z DUP_PREV_EVENT)
  /\ (has (set 0%Z DUP_PREV_EVENT) DUP_PREV_EVENT = true
      <-> repeated (prev_events ev_dup_prev)).
Proof.
  assert (H : conforms_std ev_dup_prev = Some (set 0%Z DUP_PREV_EVENT))
    by reflexivity.
  split; [exact H|].
  exact (proj1 (conforms_loops_exact valid_std host_std unquote_std
                  ev_dup_prev _ H)).
Defined.

Lemma conforms_checks_by_type_witness :
  conforms_std ev_untyped = Some (set (set 0%Z MISSING_TYPE) DEPTH_NEGATIVE)
  /\ (has (set (set 0%Z MISSING_TYPE) DEPTH_NEGATIVE) DEPTH_NEGATIVE = true
      <-> (depth ev_untyped < 0)%Z).
Proof.
  assert (H : conforms_std ev_untyped
              = Some (set (set 0%Z MISSING_TYPE) DEPTH_NEGATIVE))
    by reflexivity.
  split; [exact H|].
  exact (proj1 (proj2 (proj2 (proj2
           (conforms_checks_by_type valid_std host_std unquote_std
              ev_untyped _ H))))).
Defined.

End EventMoreExamples.
